(** * Portfolio backend: contact-form service (server.js)

    A shallow embedding of the two variants of [server.js] kept in the
    repository:

    - the e-mail only server (module [EmailOnly]): validation, two
      notification mails, no storage;
    - the persisting server (module [Persisting]): validation, a Mongoose
      [Contact] model, two notification mails and the admin routes.

    Conventions of the model.

    - A JavaScript string is the list of its UTF-16 code units ([jsstring]).
    - A request is taken after body parsing: the three fields of the
      contact form are absent ([None]) or strings; [page] and [limit] of
      the admin list are absent or the natural number their decimal text
      denotes.  Other JSON types in these places are outside the model.
    - [helmet], [morgan], [cors] and the body parsers only touch headers,
      the log and [req.body]; they are layers that always call [next()].
    - The packages [express], [express-rate-limit], [mongoose] and
      [nodemailer] are not part of the repository.  Their documented
      behaviour is written out where the handlers rely on it.  What the
      outside world decides (is the database reachable, does the mail
      transport accept a message) and what depends on the installed
      version of a package (how the rate limiter times its windows, which
      texts the driver takes for an ObjectId) is read from an environment
      [Env].

    Where the model is simpler than the code.  The statements below say
    in their hypotheses when they depend on one of these points.

    - A request has one of the methods GET, POST, PUT, PATCH and DELETE.
      [OPTIONS], which the [cors] package answers itself, and [HEAD] are
      outside the model.
    - Express passes an error on when a body cannot be parsed or when a
      path segment it has to decode holds a malformed percent-escape;
      the persisting server's error middleware, or Express's own error
      page, then answers.  The model has no such error path: its
      requests are those the parsers accepted, and a statement that
      depends on the path needing no decoding assumes a path without
      percent signs ([More.no_escape], [More.plain_path]).
    - Path segments are compared exactly.  Express compares without
      regard to letter case, ignores one trailing slash, and wants a
      [:param] to be non-empty; a statement that depends on a route not
      applying is made about the path as Express reads it
      ([More.route_path], [More.outside_api]) or about paths without
      empty segments ([More.plain_path]).
    - [page] and [limit] are exact natural numbers, where the source
      computes with IEEE doubles; the two agree as long as the numbers
      involved are at most 2^53 ([More.exact_numbers]).
    - Documents with the same [createdAt] are listed in the order in
      which they were stored, where the database leaves their order
      open; a statement about the order of a list is made about some
      descending order, or assumes distinct [createdAt]. *)

From Stdlib Require Import ZArith NArith List String Ascii Lia Bool.
From Stdlib Require Import Sorting.Sorted Sorting.Permutation.
From stdpp Require Import base option list gmap.

Open Scope Z_scope.

(* ===================================================================== *)
(** * JavaScript strings *)
(* ===================================================================== *)

Module JS.

(** A string is its sequence of UTF-16 code units. *)
Definition jsstring : Type := list N.

(** Code units of a literal of the development (one unit per byte). *)
Definition js (s : string) : jsstring :=
  map N_of_ascii (list_ascii_of_string s).
Arguments js s%_string.

(** [s.length] *)
Definition length (s : jsstring) : Z := Z.of_nat (List.length s).

(** Truthiness of a value that is undefined or a string: [!v] is true for
    [undefined] and for the empty string. *)
Definition falsy (v : option jsstring) : bool :=
  match v with
  | None => true
  | Some [] => true
  | Some (_ :: _) => false
  end.

(** [\w]: ASCII letters, digits and the underscore. *)
Definition is_word (c : N) : bool :=
  ((48 <=? c) && (c <=? 57) || (65 <=? c) && (c <=? 90) ||
   (c =? 95) || (97 <=? c) && (c <=? 122))%N.

(** ASCII letters only (what the specification calls "letters"). *)
Definition is_letter (c : N) : bool :=
  ((65 <=? c) && (c <=? 90) || (97 <=? c) && (c <=? 122))%N.

(** WhiteSpace and LineTerminator code units, as stripped by
    [String.prototype.trim]. *)
Definition is_space (c : N) : bool :=
  ((9 <=? c) && (c <=? 13) || (c =? 32) || (c =? 160) || (c =? 5760) ||
   (8192 <=? c) && (c <=? 8202) || (c =? 8232) || (c =? 8233) ||
   (c =? 8239) || (c =? 8287) || (c =? 12288) || (c =? 65279))%N.

Fixpoint trimStart (s : jsstring) : jsstring :=
  match s with
  | c :: s' => if is_space c then trimStart s' else s
  | [] => []
  end.

Definition trimEnd (s : jsstring) : jsstring := rev (trimStart (rev s)).

(** [s.trim()] *)
Definition trim (s : jsstring) : jsstring := trimEnd (trimStart s).

(** [s.toLowerCase()] on the ASCII range; the Unicode case tables are not
    modelled and other code units are left as they are. *)
Definition lower (c : N) : N :=
  if ((65 <=? c) && (c <=? 90))%N then (c + 32)%N else c.

Definition toLowerCase (s : jsstring) : jsstring := map lower s.

(** [String(v)] of a value that is undefined or a string, as done by
    [RegExp.prototype.test] and by template literals. *)
Definition ToString (v : option jsstring) : jsstring :=
  match v with
  | Some s => s
  | None => js "undefined"
  end.

(** [v.length] of a value that passed the presence test (for [undefined]
    the property access is never reached: the presence test returns
    first). *)
Definition length_of (v : option jsstring) : Z :=
  match v with
  | Some s => length s
  | None => 0
  end.

(** [a === b] on strings. *)
Definition eqb (a b : jsstring) : bool := bool_decide (a = b).

(** [arr.includes(v)] for an array of strings. *)
Definition includes (arr : list jsstring) (v : jsstring) : bool :=
  existsb (eqb v) arr.

End JS.

Abbreviation jsstring := JS.jsstring.
Abbreviation js := JS.js.

(* ===================================================================== *)
(** * Regular expressions *)
(* ===================================================================== *)

Module RegExp.

(** Character classes that occur in the source patterns. *)
Inductive charset : Type :=
| Word                          (* \w *)
| OneOf (cs : list N).          (* [..] or a literal character *)

Definition in_class (k : charset) (c : N) : bool :=
  match k with
  | Word => JS.is_word c
  | OneOf cs => existsb (N.eqb c) cs
  end.

(** Pattern syntax.  [Void] matches nothing; it only arises while a
    pattern is being matched. *)
Inductive regex : Type :=
| Void
| Eps
| Chr (k : charset)
| Cat (r1 r2 : regex)
| Alt (r1 r2 : regex)
| Star (r : regex).

(** [r?], [r+] and [r{2,3}] *)
Definition Opt (r : regex) : regex := Alt Eps r.
Definition Plus (r : regex) : regex := Cat r (Star r).
Definition Rep23 (r : regex) : regex := Cat r (Cat r (Opt r)).

(** The language of a pattern. *)
Inductive lang : regex -> jsstring -> Prop :=
| L_eps : lang Eps []
| L_chr k c : in_class k c = true -> lang (Chr k) [c]
| L_cat r1 r2 s1 s2 : lang r1 s1 -> lang r2 s2 -> lang (Cat r1 r2) (s1 ++ s2)
| L_alt_l r1 r2 s : lang r1 s -> lang (Alt r1 r2) s
| L_alt_r r1 r2 s : lang r2 s -> lang (Alt r1 r2) s
| L_star_nil r : lang (Star r) []
| L_star_app r s1 s2 :
    lang r s1 -> lang (Star r) s2 -> lang (Star r) (s1 ++ s2).

(** Matching by derivatives. *)
Fixpoint nullable (r : regex) : bool :=
  match r with
  | Void => false
  | Eps => true
  | Chr _ => false
  | Cat r1 r2 => nullable r1 && nullable r2
  | Alt r1 r2 => nullable r1 || nullable r2
  | Star _ => true
  end.

Fixpoint deriv (c : N) (r : regex) : regex :=
  match r with
  | Void => Void
  | Eps => Void
  | Chr k => if in_class k c then Eps else Void
  | Cat r1 r2 =>
      if nullable r1 then Alt (Cat (deriv c r1) r2) (deriv c r2)
      else Cat (deriv c r1) r2
  | Alt r1 r2 => Alt (deriv c r1) (deriv c r2)
  | Star r1 => Cat (deriv c r1) (Star r1)
  end.

Fixpoint matches (r : regex) (s : jsstring) : bool :=
  match s with
  | [] => nullable r
  | c :: s' => matches (deriv c r) s'
  end.

(** The character classes a pattern mentions. *)
Fixpoint classes (r : regex) : list charset :=
  match r with
  | Void | Eps => []
  | Chr k => [k]
  | Cat r1 r2 | Alt r1 r2 => classes r1 ++ classes r2
  | Star r1 => classes r1
  end.

(** [re.test(s)] for a pattern written between [^] and [$] (no flags):
    the whole string has to match. *)
Definition test (r : regex) (s : jsstring) : bool := matches r s.

End RegExp.

(* ===================================================================== *)
(** * Requests, responses and the Express middleware stack *)
(* ===================================================================== *)

Module Http.

Inductive Method : Type := GET | POST | PUT | PATCH | DELETE.

Definition Method_eqb (a b : Method) : bool :=
  match a, b with
  | GET, GET | POST, POST | PUT, PUT | PATCH, PATCH | DELETE, DELETE => true
  | _, _ => false
  end.

Definition Method_name (m : Method) : jsstring :=
  match m with
  | GET => js "GET"
  | POST => js "POST"
  | PUT => js "PUT"
  | PATCH => js "PATCH"
  | DELETE => js "DELETE"
  end.

(** [req.body] after the JSON / urlencoded parsers: the fields the
    handlers destructure.  [None] is [undefined]. *)
Record ReqBody : Type := {
  b_name : option jsstring;
  b_email : option jsstring;
  b_message : option jsstring;
  b_status : option jsstring
}.

(** [req.query] of the admin list. *)
Record ReqQuery : Type := {
  q_page : option N;
  q_limit : option N;
  q_status : option jsstring
}.

Record Request : Type := {
  method : Method;
  path : list jsstring;             (* segments of req.path *)
  ip : jsstring;                    (* req.ip *)
  now : Z;                          (* Date.now() while it is handled, ms *)
  user_agent : option jsstring;     (* req.get("User-Agent") *)
  body : ReqBody;
  query : ReqQuery
}.

(** JSON values of the response bodies.  [JDate] and [JId] are a [Date]
    and an [ObjectId]; JSON prints them as an ISO-8601 text and as 24
    hexadecimal digits. *)
#[warnings="-register-all"]
Inductive json : Type :=
| JNull
| JBool (b : bool)
| JNum (z : Z)
| JStr (s : jsstring)
| JDate (ms : Z)
| JId (oid : N)
| JArr (items : list json)
| JObj (fields : list (jsstring * json)).

(** [res.send(text)] or [res.json(value)] *)
Inductive Payload : Type :=
| Text (s : jsstring)
| Json (j : json).

Record Response : Type := { statusCode : Z; payload : Payload }.

(** [res.status(c).json(j)]; [res.json(j)] alone answers 200. *)
Definition res_json (c : Z) (j : json) : Response :=
  {| statusCode := c; payload := Json j |}.

(** [{ success, message }] *)
Definition envelope (ok : bool) (msg : string) : json :=
  JObj [(js "success", JBool ok); (js "message", JStr (js msg))].
Arguments envelope ok msg%_string.

(** Property lookup in a JSON object. *)
Fixpoint assoc (k : jsstring) (fields : list (jsstring * json)) : option json :=
  match fields with
  | [] => None
  | (k', v) :: rest => if JS.eqb k k' then Some v else assoc k rest
  end.

Definition field (k : jsstring) (j : json) : option json :=
  match j with
  | JObj fields => assoc k fields
  | _ => None
  end.

End Http.

Module Express.
Import Http.

Section Stack.
Context {Env State : Type}.

(** A middleware or handler either calls [next()] or ends the request
    with a response. *)
Inductive Outcome : Type :=
| Next (s : State)
| Respond (s : State) (r : Response).

Definition Handler : Type := Env -> State -> Request -> Outcome.

(** One entry of the application's stack: [app.use(path, h)] or
    [app.METHOD(path, h1, h2, ...)]. *)
Record Layer : Type := {
  applies : Request -> bool;
  handlers : list Handler
}.

Fixpoint run_handlers (hs : list Handler) (e : Env) (s : State) (r : Request)
  : Outcome :=
  match hs with
  | [] => Next s
  | h :: hs' =>
      match h e s r with
      | Next s' => run_handlers hs' e s' r
      | Respond s' resp => Respond s' resp
      end
  end.

(** The answer of Express when the stack is exhausted. *)
Definition finalhandler (r : Request) : Response :=
  {| statusCode := 404;
     payload := Text (js "Cannot " ++ Method_name (method r) ++ js " " ++
                      concat (map (fun seg => js "/" ++ seg) (path r))) |}.

(** Layers are tried in the order in which they were registered. *)
Fixpoint dispatch (stack : list Layer) (e : Env) (s : State) (r : Request)
  : State * Response :=
  match stack with
  | [] => (s, finalhandler r)
  | l :: rest =>
      if applies l r then
        match run_handlers (handlers l) e s r with
        | Next s' => dispatch rest e s' r
        | Respond s' resp => (s', resp)
        end
      else dispatch rest e s r
  end.

(** [app.use(h)] and [app.use("*", h)]: every request. *)
Definition use (h : Handler) : Layer :=
  {| applies := fun _ => true; handlers := [h] |}.

Fixpoint starts_with (prefix p : list jsstring) : bool :=
  match prefix, p with
  | [], _ => true
  | a :: prefix', b :: p' => JS.eqb a b && starts_with prefix' p'
  | _ :: _, [] => false
  end.

(** [app.use("/api/", h)]: every request whose path lies under the
    prefix. *)
Definition use_at (prefix : list jsstring) (h : Handler) : Layer :=
  {| applies := fun r => starts_with prefix (path r); handlers := [h] |}.

(** A segment of a route path: a literal or a [:param]. *)
Inductive Segment : Type :=
| Lit (s : jsstring)
| Param.

Fixpoint path_matches (pat : list Segment) (p : list jsstring) : bool :=
  match pat, p with
  | [], [] => true
  | Lit a :: pat', b :: p' => JS.eqb a b && path_matches pat' p'
  | Param :: pat', _ :: p' => path_matches pat' p'
  | _, _ => false
  end.

(** [app.get(path, ...)], [app.post(path, ...)], ... *)
Definition route (m : Method) (pat : list Segment) (hs : list Handler) : Layer :=
  {| applies := fun r => Method_eqb (method r) m && path_matches pat (path r);
     handlers := hs |}.

(** Middleware that only decorates the request or the response. *)
Definition passthrough : Handler := fun _ s _ => Next s.

End Stack.

Arguments Outcome : clear implicits.
Arguments Handler : clear implicits.
Arguments Layer : clear implicits.

End Express.

(* ===================================================================== *)
(** * express-rate-limit *)
(* ===================================================================== *)

Module RateLimit.
Import Http Express.

(** The options the source passes to [rateLimit({...})]. *)
Record Options : Type := {
  windowMs : Z;
  max : Z;
  message : jsstring
}.

(** What the memory store keeps for one client address. *)
Record Window : Type := {
  hits : Z;
  resetTime : Z
}.

(** How the memory store of the installed version times its windows:
    per client, from the client's first counted request (version 7 and
    later), or for all clients at once, by a timer that the store starts
    when it is created and that fires every [windowMs] (earlier
    versions). *)
Inductive Timing : Type :=
| PerClient
| Shared (started : Z).

(** The end of the window in which a request at time [t] is counted when
    no window is open for it. *)
Definition window_end (tm : Timing) (window t : Z) : Z :=
  match tm with
  | PerClient => t + window
  | Shared t0 => t0 + ((t - t0) / window + 1) * window
  end.

(** The package is not part of the repository; its memory store is
    written out from its documentation, in the terms of sections 4.1 and
    9 of the specification (a mapping from client address to count and
    window, fixed windows).  A request inside the open window of its
    address adds one hit, also when it is rejected; a request that finds
    no window, or an elapsed one, starts the count again at 1. *)
Definition increment (o : Options) (tm : Timing)
    (store : gmap jsstring Window) (key : jsstring) (t : Z) : Window :=
  match store !! key with
  | Some w =>
      if t <? resetTime w
      then {| hits := hits w + 1; resetTime := resetTime w |}
      else {| hits := 1; resetTime := window_end tm (windowMs o) t |}
  | None => {| hits := 1; resetTime := window_end tm (windowMs o) t |}
  end.

(** The store after the request has been counted. *)
Definition record (o : Options) (tm : Timing) (store : gmap jsstring Window)
    (key : jsstring) (t : Z) : gmap jsstring Window :=
  <[key := increment o tm store key t]> store.

Section Limiter.
Context {Env State : Type}.

(** The middleware: count the request under [req.ip], answer 429 with the
    configured message once the count exceeds [max], call [next()]
    otherwise. *)
Definition rateLimit (o : Options) (timing : Env -> Timing)
    (get : State -> gmap jsstring Window)
    (set : gmap jsstring Window -> State -> State) : Handler Env State :=
  fun e s r =>
    let w := increment o (timing e) (get s) (ip r) (now r) in
    let s' := set (record o (timing e) (get s) (ip r) (now r)) s in
    if max o <? hits w
    then Respond s' {| statusCode := 429; payload := Text (message o) |}
    else Next s'.

End Limiter.

(** The number of hits the store reports for a request. *)
Definition hits_after (store : gmap jsstring Window) (key : jsstring) (t : Z)
  : Z :=
  match store !! key with
  | Some w => if t <? resetTime w then hits w + 1 else 1
  | None => 1
  end.

(** The limiter lets the request through. *)
Definition admits (o : Options) (store : gmap jsstring Window)
    (key : jsstring) (t : Z) : bool :=
  negb (max o <? hits_after store key t).

End RateLimit.

(* ===================================================================== *)
(** * The outside world, the documents and the server state *)
(* ===================================================================== *)

Module World.
Import Http.

(** The two message templates of the contact route, with the values they
    interpolate, and the fixed text of the test route. *)
Inductive MailContent : Type :=
| OwnerText (name email message : jsstring)
    (* text: `Name: ${name}\nEmail: ${email}\nMessage: ${message}` *)
| ThanksHtml (name message : jsstring)
    (* html: <p>Hi ${name},</p> ... <p><b>Your Message:</b><br/>${message}</p> ... *)
| TestText.
    (* text: "This is a test email from backend." *)

(** The argument of [transporter.sendMail]; the sender address is always
    [process.env.OWNER_EMAIL]. *)
Record Mail : Type := {
  from_name : jsstring;
  to : jsstring;
  subject : jsstring;
  content : MailContent
}.

(** What the process reads from its environment and what the external
    services answer while one request is handled. *)
Record Env : Type := {
  OWNER_EMAIL : jsstring;            (* process.env.OWNER_EMAIL *)
  limiter_timing : RateLimit.Timing; (* how the installed rate limiter
                                        times its windows *)
  db_up : bool;                      (* the database answers *)
  castObjectId : jsstring -> option N;
                                     (* the driver's ObjectId parser: which
                                        texts it accepts depends on the
                                        installed version *)
  smtp : Mail -> option jsstring     (* None: accepted; Some m: the
                                        transport fails with message m *)
}.

(** A document of the [Contact] collection (fields of [contactSchema]). *)
Record Contact : Type := {
  _id : N;
  name : jsstring;
  email : jsstring;
  message : jsstring;
  ipAddress : jsstring;
  userAgent : jsstring;
  createdAt : Z;
  status : jsstring
}.

(** Observable effects, in the order in which they happen. *)
Inductive Event : Type :=
| Saved (c : Contact)                       (* contact.save() resolved *)
| Mailed (m : Mail) (accepted : bool).      (* sendMail was called *)

(** The state of the server process and of its collection.  The e-mail
    only server has no collection and leaves [contacts] and [next_id]
    alone. *)
Record State : Type := {
  limiter_store : gmap jsstring RateLimit.Window;
  contactLimiter_store : gmap jsstring RateLimit.Window;
  contacts : list Contact;           (* in insertion order *)
  next_id : N;                       (* source of fresh ObjectIds *)
  events : list Event
}.

Definition set_limiter_store (m : gmap jsstring RateLimit.Window) (s : State) :=
  {| limiter_store := m; contactLimiter_store := contactLimiter_store s;
     contacts := contacts s; next_id := next_id s; events := events s |}.

Definition set_contactLimiter_store (m : gmap jsstring RateLimit.Window) (s : State) :=
  {| limiter_store := limiter_store s; contactLimiter_store := m;
     contacts := contacts s; next_id := next_id s; events := events s |}.

Definition set_contacts (cs : list Contact) (s : State) :=
  {| limiter_store := limiter_store s;
     contactLimiter_store := contactLimiter_store s;
     contacts := cs; next_id := next_id s; events := events s |}.

Definition set_next_id (n : N) (s : State) :=
  {| limiter_store := limiter_store s;
     contactLimiter_store := contactLimiter_store s;
     contacts := contacts s; next_id := n; events := events s |}.

Definition log (ev : Event) (s : State) :=
  {| limiter_store := limiter_store s;
     contactLimiter_store := contactLimiter_store s;
     contacts := contacts s; next_id := next_id s;
     events := events s ++ [ev] |}.

(** What a rejected promise carries. *)
Inductive Error : Type :=
| ValidationError (errors : list jsstring)   (* Mongoose, schema validation *)
| CastError                                  (* Mongoose, malformed ObjectId *)
| MongoError                                 (* the database does not answer *)
| MailError (msg : jsstring).                (* nodemailer *)

(** [error.name] *)
Definition Error_name (err : Error) : jsstring :=
  match err with
  | ValidationError _ => js "ValidationError"
  | CastError => js "CastError"
  | MongoError => js "MongoNetworkError"
  | MailError _ => js "Error"
  end.

(** [error.message] (only the transport's text is ever sent back). *)
Definition Error_message (err : Error) : jsstring :=
  match err with
  | MailError m => m
  | ValidationError _ => js "Contact validation failed"
  | CastError => js "Cast to ObjectId failed"
  | MongoError => js "connection refused"
  end.

(** The body of an [async] handler: it threads the state and either
    returns a value or throws. *)
Inductive Result (A : Type) : Type :=
| Ok (a : A)
| Throw (err : Error).
Arguments Ok {A} a.
Arguments Throw {A} err.

Definition Async (A : Type) : Type := State -> State * Result A.

Definition ret {A} (a : A) : Async A := fun s => (s, Ok a).

Definition throw {A} (err : Error) : Async A := fun s => (s, Throw err).

Definition bind {A B} (m : Async A) (k : A -> Async B) : Async B :=
  fun s =>
    match m s with
    | (s', Ok a) => k a s'
    | (s', Throw err) => (s', Throw err)
    end.

(** [try { ... } catch (error) { ... }] around a handler body. *)
Definition try_catch (m : Async Response) (h : Error -> Response)
  : State -> State * Response :=
  fun s =>
    match m s with
    | (s', Ok resp) => (s', resp)
    | (s', Throw err) => (s', h err)
    end.

(** [await transporter.sendMail(m)] *)
Definition sendMail (e : Env) (m : Mail) : Async unit :=
  fun s =>
    match smtp e m with
    | None => (log (Mailed m true) s, Ok tt)
    | Some msg => (log (Mailed m false) s, Throw (MailError msg))
    end.

End World.

Declare Scope async_scope.
Delimit Scope async_scope with async.
Notation "'let!' x := m 'in' k" := (World.bind m (fun x => k))
  (at level 10, x name, m at level 99, k at level 200) : async_scope.
Notation "'await' m ;; k" := (World.bind m (fun _ => k))
  (at level 10, m at level 99, k at level 200) : async_scope.

(* ===================================================================== *)
(** * Parts that both variants of server.js spell the same way *)
(* ===================================================================== *)

Module Common.
Import Http Express RateLimit World RegExp.

(** [/^\w+([.-]?\w+)*@\w+([.-]?\w+)*(\.\w{2,3})+$/], as written in both
    validators and in the schema. *)
Definition words : regex :=
  Cat (Plus (Chr Word))
      (Star (Cat (Opt (Chr (OneOf [46; 45]%N))) (Plus (Chr Word)))).

Definition emailRegex : regex :=
  Cat words
      (Cat (Chr (OneOf [64%N]))
           (Cat words
                (Plus (Cat (Chr (OneOf [46%N])) (Rep23 (Chr Word)))))).

Definition helmet : Handler Env State := passthrough.
Definition morgan : Handler Env State := passthrough.
Definition cors : Handler Env State := passthrough.
Definition express_json : Handler Env State := passthrough.
Definition express_urlencoded : Handler Env State := passthrough.

Definition api : Segment := Lit (js "api").

(** [res.status(404).json({ success: false, message: "Route not found" })] *)
Definition fallback404 : Handler Env State :=
  fun _ s _ => Respond s (res_json 404 (envelope false "Route not found")).

(** The two notification mails of the contact route. *)
Definition ownerMail (e : Env) (name email message : jsstring) : Mail :=
  {| from_name := js "Portfolio Contact";
     to := OWNER_EMAIL e;
     subject := js "New Contact Form Submission";
     content := OwnerText name email message |}.

Definition userMail (name email message : jsstring) : Mail :=
  {| from_name := js "Paras Jagdale";
     to := email;
     subject := js "Thank you for contacting!";
     content := ThanksHtml name message |}.

End Common.

(* ===================================================================== *)
(** * First variant: the e-mail only server *)
(* ===================================================================== *)

Module EmailOnly.
Import Http Express RateLimit World Common.
Local Open Scope async_scope.

Definition limiter_options : Options :=
  {| windowMs := 15 * 60 * 1000;
     max := 100;
     RateLimit.message := js "Too many requests, try again later." |}.

Definition limiter : Handler Env State :=
  rateLimit limiter_options limiter_timing limiter_store set_limiter_store.

Definition contactLimiter_options : Options :=
  {| windowMs := 60 * 60 * 1000;
     max := 5;
     RateLimit.message := js "Too many contact requests, try again later." |}.

Definition contactLimiter : Handler Env State :=
  rateLimit contactLimiter_options limiter_timing contactLimiter_store
    set_contactLimiter_store.

Definition validateContactInput : Handler Env State :=
  fun _ s r =>
    let name := b_name (body r) in
    let email := b_email (body r) in
    let message := b_message (body r) in
    if JS.falsy name || JS.falsy email || JS.falsy message then
      Respond s (res_json 400 (envelope false "All fields are required"))
    else if (100 <? JS.length_of name) || (1000 <? JS.length_of message) then
      Respond s (res_json 400 (envelope false "Input too long"))
    else if negb (RegExp.test emailRegex (JS.ToString email)) then
      Respond s (res_json 400 (envelope false "Invalid email address"))
    else Next s.

(** [app.post("/api/contact", ...)]: the body of the handler proper. *)
Definition submit (e : Env) (r : Request) : State -> State * Response :=
  let name := JS.ToString (b_name (body r)) in
  let email := JS.ToString (b_email (body r)) in
  let message := JS.ToString (b_message (body r)) in
  try_catch
    (await sendMail e (ownerMail e name email message) ;;
     await sendMail e (userMail name email message) ;;
     ret (res_json 200
            (envelope true
               "Message sent successfully. Check your email for confirmation!")))
    (fun _ =>
       res_json 500
         (envelope false "Failed to send message. Please try again later.")).

Definition postContact : Handler Env State :=
  fun e s r => let '(s', resp) := submit e r s in Respond s' resp.

Definition health : Handler Env State :=
  fun _ s _ => Respond s (res_json 200 (envelope true "Server is running")).

Definition testMail (e : Env) : Mail :=
  {| from_name := js "Test";
     to := OWNER_EMAIL e;
     subject := js "Test Email";
     content := TestText |}.

(** [app.get('/api/test-email', ...)]: the body of the handler. *)
Definition sendTestEmail (e : Env) : State -> State * Response :=
  try_catch
    (await sendMail e (testMail e) ;;
     ret (res_json 200 (envelope true "Test email sent")))
    (fun err =>
       res_json 500
         (JObj [(js "success", JBool false);
                (js "error", JStr (Error_message err))])).

Definition testEmail : Handler Env State :=
  fun e s _ => let '(s', resp) := sendTestEmail e s in Respond s' resp.

Definition test_email_route : Layer Env State :=
  route GET [api; Lit (js "test-email")] [testEmail].

(** The stack, in the order of the [app.use] / [app.METHOD] calls. *)
Definition app : list (Layer Env State) :=
  [ use helmet;
    use morgan;
    use_at [js "api"] limiter;
    use cors;
    use express_json;
    use express_urlencoded;
    route POST [api; Lit (js "contact")]
      [contactLimiter; validateContactInput; postContact];
    route GET [api; Lit (js "health")] [health];
    use fallback404;
    test_email_route ].

Definition handle (e : Env) (s : State) (r : Request) : State * Response :=
  dispatch app e s r.

End EmailOnly.

(* ===================================================================== *)
(** * Second variant: the persisting server *)
(* ===================================================================== *)

Module Persisting.
Import Http Express RateLimit World Common.
Local Open Scope async_scope.

Definition limiter_options : Options :=
  {| windowMs := 15 * 60 * 1000;
     max := 100;
     RateLimit.message :=
       js "Too many requests from this IP, please try again later." |}.

Definition limiter : Handler Env State :=
  rateLimit limiter_options limiter_timing limiter_store set_limiter_store.

Definition contactLimiter_options : Options :=
  {| windowMs := 60 * 60 * 1000;
     max := 5;
     RateLimit.message :=
       js "Too many contact submissions from this IP, please try again later." |}.

Definition contactLimiter : Handler Env State :=
  rateLimit contactLimiter_options limiter_timing contactLimiter_store
    set_contactLimiter_store.

(** ** The Mongoose model *)

(** [enum: ["unread", "read", "replied"]] *)
Definition statuses : list jsstring := [js "unread"; js "read"; js "replied"].

(** [new Contact({ name, email, message, ipAddress, userAgent })]: the
    schema's setters ([trim], [lowercase]) and defaults ([createdAt],
    [status]) are applied while the document is built, and the document
    receives a fresh [_id].  ([trim] and [lowercase] commute.) *)
Definition new_Contact (nm em msg ipaddr ua : jsstring) (t : Z) : Async Contact :=
  fun s =>
    (set_next_id (N.succ (next_id s)) s,
     Ok {| _id := next_id s;
           name := JS.trim nm;
           email := JS.toLowerCase (JS.trim em);
           message := JS.trim msg;
           ipAddress := ipaddr;
           userAgent := ua;
           createdAt := t;
           status := js "unread" |}).

(** The validators of one string path: [required] first, then the other
    one; the first that fails gives the path's message. *)
Definition check_path (v : jsstring) (required_msg : string)
    (ok : bool) (msg : string) : list jsstring :=
  match v with
  | [] => [js required_msg]
  | _ :: _ => if ok then [] else [js msg]
  end.
Arguments check_path v required_msg%_string ok msg%_string.

(** Validation of a document against [contactSchema], one message per
    failing path, in the order of the schema. *)
Definition contactSchema (c : Contact) : list jsstring :=
  check_path (name c) "Name is required"
    (JS.length (name c) <=? 100) "Name cannot exceed 100 characters" ++
  check_path (email c) "Email is required"
    (RegExp.test emailRegex (email c)) "Please provide a valid email" ++
  check_path (message c) "Message is required"
    (JS.length (message c) <=? 1000) "Message cannot exceed 1000 characters" ++
  check_path (ipAddress c) "Path `ipAddress` is required." true "" ++
  check_path (userAgent c) "Path `userAgent` is required." true "" ++
  (if JS.includes statuses (status c) then []
   else [js "`" ++ status c ++
         js "` is not a valid enum value for path `status`."]).

(** [await contact.save()]: schema validation, then the insert. *)
Definition save (e : Env) (c : Contact) : Async unit :=
  fun s =>
    match contactSchema c with
    | [] =>
        if db_up e
        then (log (Saved c) (set_contacts (contacts s ++ [c]) s), Ok tt)
        else (s, Throw MongoError)
    | errs => (s, Throw (ValidationError errs))
    end.

(** [.sort({ createdAt: -1 })]: most recent first; documents with the
    same [createdAt] keep their storage order. *)
Fixpoint insert_desc (c : Contact) (l : list Contact) : list Contact :=
  match l with
  | [] => [c]
  | d :: l' =>
      if createdAt d <=? createdAt c then c :: l else d :: insert_desc c l'
  end.

Definition sort_desc (l : list Contact) : list Contact :=
  foldr insert_desc [] l.

(** A document as an object, all paths of the schema and the version
    key. *)
Definition toObject (c : Contact) : list (jsstring * json) :=
  [ (js "_id", JId (_id c));
    (js "name", JStr (name c));
    (js "email", JStr (email c));
    (js "message", JStr (message c));
    (js "ipAddress", JStr (ipAddress c));
    (js "userAgent", JStr (userAgent c));
    (js "createdAt", JDate (createdAt c));
    (js "status", JStr (status c));
    (js "__v", JNum 0) ].

(** [.select("-ipAddress -userAgent")]: the listed paths are left out. *)
Definition select_without (excluded : list jsstring)
    (doc : list (jsstring * json)) : list (jsstring * json) :=
  List.filter (fun kv => negb (JS.includes excluded (fst kv))) doc.

(** [.limit(n)]: at most [n] documents; [0] means no limit. *)
Definition limit_docs {A} (n : N) (l : list A) : list A :=
  if (n =? 0)%N then l else firstn (N.to_nat n) l.

(** [Contact.find(query).sort({createdAt: -1}).limit(n).skip(k)
    .select("-ipAddress -userAgent")].  The database applies the filter,
    the sort, the skip and then the limit; a negative skip is refused. *)
Definition find (e : Env) (query : Contact -> bool) (n : N) (k : Z)
    (excluded : list jsstring) : Async (list json) :=
  fun s =>
    if negb (db_up e) || (k <? 0) then (s, Throw MongoError)
    else
      (s, Ok (map (fun c => JObj (select_without excluded (toObject c)))
                (limit_docs n
                   (skipn (Z.to_nat k)
                      (sort_desc (List.filter query (contacts s))))))).

(** [Contact.countDocuments(query)] *)
Definition countDocuments (e : Env) (query : Contact -> bool) : Async Z :=
  fun s =>
    if db_up e
    then (s, Ok (Z.of_nat (List.length (List.filter query (contacts s)))))
    else (s, Throw MongoError).

(** The first document with the given [_id], updated by [f]. *)
Fixpoint update_first (oid : N) (f : Contact -> Contact) (l : list Contact)
  : option (Contact * list Contact) :=
  match l with
  | [] => None
  | c :: l' =>
      if (_id c =? oid)%N then Some (f c, f c :: l')
      else
        match update_first oid f l' with
        | Some (c', l'') => Some (c', c :: l'')
        | None => None
        end
  end.

Definition set_status (st : jsstring) (c : Contact) : Contact :=
  {| _id := _id c; name := name c; email := email c; message := message c;
     ipAddress := ipAddress c; userAgent := userAgent c;
     createdAt := createdAt c; status := st |}.

(** [Contact.findByIdAndUpdate(id, { status }, { new: true })]: the id is
    cast to an ObjectId (a text that cannot be cast rejects with a
    CastError); the updated document, or [null]. *)
Definition findByIdAndUpdate (e : Env) (id : jsstring) (st : jsstring)
  : Async (option Contact) :=
  fun s =>
    match castObjectId e id with
    | None => (s, Throw CastError)
    | Some oid =>
        if db_up e then
          match update_first oid (set_status st) (contacts s) with
          | Some (c', l') => (set_contacts l' s, Ok (Some c'))
          | None => (s, Ok None)
          end
        else (s, Throw MongoError)
    end.

(** The first document with the given [_id], removed. *)
Fixpoint remove_first (oid : N) (l : list Contact)
  : option (Contact * list Contact) :=
  match l with
  | [] => None
  | c :: l' =>
      if (_id c =? oid)%N then Some (c, l')
      else
        match remove_first oid l' with
        | Some (c', l'') => Some (c', c :: l'')
        | None => None
        end
  end.

(** [Contact.findByIdAndDelete(id)] *)
Definition findByIdAndDelete (e : Env) (id : jsstring)
  : Async (option Contact) :=
  fun s =>
    match castObjectId e id with
    | None => (s, Throw CastError)
    | Some oid =>
        if db_up e then
          match remove_first oid (contacts s) with
          | Some (c, l') => (set_contacts l' s, Ok (Some c))
          | None => (s, Ok None)
          end
        else (s, Throw MongoError)
    end.

(** ** Middleware and routes *)

Definition validateContactInput : Handler Env State :=
  fun _ s r =>
    let name := b_name (body r) in
    let email := b_email (body r) in
    let message := b_message (body r) in
    if JS.falsy name || JS.falsy email || JS.falsy message then
      Respond s (res_json 400 (envelope false "All fields are required"))
    else if 100 <? JS.length_of name then
      Respond s (res_json 400 (envelope false "Name cannot exceed 100 characters"))
    else if 1000 <? JS.length_of message then
      Respond s
        (res_json 400 (envelope false "Message cannot exceed 1000 characters"))
    else if negb (RegExp.test emailRegex (JS.ToString email)) then
      Respond s
        (res_json 400 (envelope false "Please provide a valid email address"))
    else Next s.

(** [app.get("/api/health", ...)] *)
Definition health : Handler Env State :=
  fun _ s r =>
    Respond s
      (res_json 200
         (JObj [(js "success", JBool true);
                (js "message", JStr (js "Server is running"));
                (js "timestamp", JDate (now r))])).

(** [req.get("User-Agent") || "Unknown"] *)
Definition userAgent_of (r : Request) : jsstring :=
  if JS.falsy (user_agent r) then js "Unknown" else JS.ToString (user_agent r).

(** The [catch] block of the contact route. *)
Definition contact_catch (error : Error) : Response :=
  if JS.eqb (Error_name error) (js "ValidationError") then
    res_json 400
      (JObj [(js "success", JBool false);
             (js "message", JStr (js "Validation error"));
             (js "errors",
              JArr (map JStr
                      match error with
                      | ValidationError errs => errs
                      | _ => []
                      end))])
  else
    res_json 500
      (envelope false "Internal server error. Please try again later.").

(** [app.post("/api/contact", ...)]: the body of the handler proper.
    [req.ip] is the address of the socket, so the two fallbacks of
    [ipAddress] read the same value. *)
Definition submit (e : Env) (r : Request) : State -> State * Response :=
  let name := JS.ToString (b_name (body r)) in
  let email := JS.ToString (b_email (body r)) in
  let message := JS.ToString (b_message (body r)) in
  let ipAddress := ip r in
  let userAgent := userAgent_of r in
  try_catch
    (let! contact :=
       new_Contact name email message ipAddress userAgent (now r) in
     await save e contact ;;
     await sendMail e (ownerMail e name email message) ;;
     await sendMail e (userMail name email message) ;;
     ret (res_json 201
            (JObj [(js "success", JBool true);
                   (js "message",
                    JStr (js "Message sent successfully! Thank you for reaching out."));
                   (js "data",
                    JObj [(js "id", JId (_id contact));
                          (js "timestamp", JDate (createdAt contact))])])))
    contact_catch.

Definition postContact : Handler Env State :=
  fun e s r => let '(s', resp) := submit e r s in Respond s' resp.

(** [Math.ceil(total / limit)]: [null] in JSON when [limit] is 0 (the
    quotient is not finite), the exact ceiling otherwise. *)
Definition pages_of (total : Z) (limit : N) : json :=
  if (limit =? 0)%N then JNull else JNum (- ((- total) / Z.of_N limit)).

(** [app.get("/api/contacts", ...)]: the body of the handler. *)
Definition listContacts (e : Env) (r : Request) : State -> State * Response :=
  let page := default 1%N (q_page (query r)) in
  let limit := default 10%N (q_limit (query r)) in
  let status := default (js "all") (q_status (query r)) in
  let query :=
    if negb (JS.eqb status (js "all"))
    then fun c : Contact => JS.eqb (World.status c) status
    else fun _ => true in
  try_catch
    (let! contacts :=
       find e query limit ((Z.of_N page - 1) * Z.of_N limit)
         [js "ipAddress"; js "userAgent"] in
     let! total := countDocuments e query in
     ret (res_json 200
            (JObj [(js "success", JBool true);
                   (js "data", JArr contacts);
                   (js "pagination",
                    JObj [(js "page", JNum (Z.of_N page));
                          (js "limit", JNum (Z.of_N limit));
                          (js "total", JNum total);
                          (js "pages", pages_of total limit)])])))
    (fun _ => res_json 500 (envelope false "Internal server error")).

Definition getContacts : Handler Env State :=
  fun e s r => let '(s', resp) := listContacts e r s in Respond s' resp.

(** [req.params.id] of a route [/api/contacts/:id] *)
Definition params_id (r : Request) : jsstring := nth 2 (path r) [].

(** [app.patch("/api/contacts/:id", ...)]: the body of the handler. *)
Definition updateStatus (e : Env) (r : Request) : State -> State * Response :=
  let id := params_id r in
  let status := b_status (body r) in
  try_catch
    (if negb (match status with
              | Some st => JS.includes statuses st
              | None => false
              end)
     then ret (res_json 400 (envelope false "Invalid status value"))
     else
       let! contact := findByIdAndUpdate e id (JS.ToString status) in
       match contact with
       | None => ret (res_json 404 (envelope false "Contact not found"))
       | Some c =>
           ret (res_json 200
                  (JObj [(js "success", JBool true);
                         (js "data", JObj (toObject c))]))
       end)
    (fun _ => res_json 500 (envelope false "Internal server error")).

Definition patchContact : Handler Env State :=
  fun e s r => let '(s', resp) := updateStatus e r s in Respond s' resp.

(** [app.delete("/api/contacts/:id", ...)]: the body of the handler. *)
Definition removeContact (e : Env) (r : Request) : State -> State * Response :=
  let id := params_id r in
  try_catch
    (let! contact := findByIdAndDelete e id in
     match contact with
     | None => ret (res_json 404 (envelope false "Contact not found"))
     | Some _ =>
         ret (res_json 200 (envelope true "Contact deleted successfully"))
     end)
    (fun _ => res_json 500 (envelope false "Internal server error")).

Definition deleteContact : Handler Env State :=
  fun e s r => let '(s', resp) := removeContact e r s in Respond s' resp.

(** [app.use((error, req, res, next) => ...)]: entered only with an
    error passed to [next], which no layer of this stack does. *)
Definition error_middleware : Layer Env State :=
  {| applies := fun _ => false;
     handlers :=
       [fun _ s _ =>
          Respond s (res_json 500 (envelope false "Internal server error"))] |}.

Definition contacts_id : list Segment := [api; Lit (js "contacts"); Param].

(** The stack, in the order of the [app.use] / [app.METHOD] calls. *)
Definition app : list (Layer Env State) :=
  [ use helmet;
    use morgan;
    use_at [js "api"] limiter;
    use cors;
    use express_json;
    use express_urlencoded;
    route GET [api; Lit (js "health")] [health];
    route POST [api; Lit (js "contact")]
      [contactLimiter; validateContactInput; postContact];
    route GET [api; Lit (js "contacts")] [getContacts];
    route PATCH contacts_id [patchContact];
    route DELETE contacts_id [deleteContact];
    use fallback404;
    error_middleware ].

Definition handle (e : Env) (s : State) (r : Request) : State * Response :=
  dispatch app e s r.

End Persisting.

(* ===================================================================== *)
(** * Vocabulary of the statements *)
(* ===================================================================== *)

Module Spec.
Import Http Express RateLimit World Common.

(** ** The two servers *)

Inductive Variant : Type :=
| first     (* the e-mail only server *)
| second.   (* the persisting server *)

Definition server (v : Variant) : Env -> State -> Request -> State * Response :=
  match v with
  | first => EmailOnly.handle
  | second => Persisting.handle
  end.

Definition general_options (v : Variant) : Options :=
  match v with
  | first => EmailOnly.limiter_options
  | second => Persisting.limiter_options
  end.

Definition contact_options (v : Variant) : Options :=
  match v with
  | first => EmailOnly.contactLimiter_options
  | second => Persisting.contactLimiter_options
  end.

(** The input validator of each server. *)
Definition validator (v : Variant) : Handler Env State :=
  match v with
  | first => EmailOnly.validateContactInput
  | second => Persisting.validateContactInput
  end.

(** ** Requests *)

(** A request to the submission endpoint, [POST /api/contact]. *)
Definition is_submission (r : Request) : Prop :=
  method r = POST /\ path r = [js "api"; js "contact"].

(** A field of the form is absent or empty. *)
Definition missing (v : option jsstring) : Prop := v = None \/ v = Some [].

(** Both limiters in front of the submission endpoint let the request
    through. *)
Definition passes_limiters (general contact : Options) (s : State)
    (r : Request) : Prop :=
  admits general (limiter_store s) (ip r) (now r) = true /\
  admits contact (contactLimiter_store s) (ip r) (now r) = true.

(** The request gets as far as the input validator of server [v]. *)
Definition reaches_validator (v : Variant) (s : State) (r : Request) : Prop :=
  passes_limiters (general_options v) (contact_options v) s r.

(** The state once both limiters have counted the request. *)
Definition counted (general contact : Options) (e : Env) (s : State)
    (r : Request) : State :=
  set_contactLimiter_store
    (record contact (limiter_timing e) (contactLimiter_store s) (ip r) (now r))
    (set_limiter_store
       (record general (limiter_timing e) (limiter_store s) (ip r) (now r)) s).

(** The state once the general limiter has counted the request. *)
Definition counted_api (general : Options) (e : Env) (s : State)
    (r : Request) : State :=
  set_limiter_store
    (record general (limiter_timing e) (limiter_store s) (ip r) (now r)) s.

(** The payload is one the input validator lets through: the three fields
    are present, the two lengths are within their bounds and the e-mail
    matches the pattern. *)
Definition accepted (r : Request) (nm em msg : jsstring) : Prop :=
  b_name (body r) = Some nm /\ b_email (body r) = Some em /\
  b_message (body r) = Some msg /\
  nm <> [] /\ em <> [] /\ msg <> [] /\
  JS.length nm <= 100 /\ JS.length msg <= 1000 /\
  RegExp.test emailRegex em = true.

(** The storage boundary takes the record: the database answers, and
    the fields the schema requires are not empty once trimmed. *)
Definition storable (e : Env) (r : Request) (nm msg : jsstring) : Prop :=
  db_up e = true /\ JS.trim nm <> [] /\ JS.trim msg <> [] /\ ip r <> [].

(** The mail transport takes the message. *)
Definition delivers (e : Env) (m : Mail) : bool :=
  match smtp e m with
  | None => true
  | Some _ => false
  end.

(** The sends of one submission: the owner's notification and, when that
    one went through, the submitter's acknowledgment. *)
Definition notifications (e : Env) (nm em msg : jsstring) : list Event :=
  Mailed (ownerMail e nm em msg) (delivers e (ownerMail e nm em msg)) ::
  (if delivers e (ownerMail e nm em msg)
   then [Mailed (userMail nm em msg) (delivers e (userMail nm em msg))]
   else []).

(** The body of the persisting server's success answer. *)
Definition created_body (c : Contact) : json :=
  JObj [(js "success", JBool true);
        (js "message",
         JStr (js "Message sent successfully! Thank you for reaching out."));
        (js "data",
         JObj [(js "id", JId (_id c));
               (js "timestamp", JDate (createdAt c))])].

(** ** The shape of an e-mail address, in the words of the specification *)

(** A run of word characters. *)
Definition word_run (w : jsstring) : Prop :=
  w <> [] /\ Forall (fun c => JS.is_word c = true) w.

(** An optional dot or hyphen. *)
Definition separator (sp : jsstring) : Prop :=
  sp = [] \/ sp = [46%N] \/ sp = [45%N].

(** A further run of word characters behind an optional separator. *)
Definition group (u : jsstring) : Prop :=
  exists sp w, u = sp ++ w /\ separator sp /\ word_run w.

(** "Word characters with optional dot/hyphen separators". *)
Definition separated_words (s : jsstring) : Prop :=
  exists w gs, s = w ++ concat gs /\ word_run w /\ Forall group gs.

(** A dot followed by two or three characters of the class [final]. *)
Definition final_segment (final : N -> bool) (seg : jsstring) : Prop :=
  exists cs, seg = 46%N :: cs /\
             (2 <= List.length cs <= 3)%nat /\
             Forall (fun c => final c = true) cs.

(** local-part [@] domain, followed by at least one final segment. *)
Definition email_shape (final : N -> bool) (s : jsstring) : Prop :=
  exists loc dom seg segs,
    s = loc ++ [64%N] ++ dom ++ seg ++ concat segs /\
    separated_words loc /\ separated_words dom /\
    Forall (final_segment final) (seg :: segs).

(** ** The admin list *)

(** A document as the list returns it: without [ipAddress] and
    [userAgent]. *)
Definition public_view (c : Contact) : json :=
  JObj [ (js "_id", JId (_id c));
         (js "name", JStr (name c));
         (js "email", JStr (email c));
         (js "message", JStr (message c));
         (js "createdAt", JDate (createdAt c));
         (js "status", JStr (status c));
         (js "__v", JNum 0) ].

(** Page [page] (counted from 1) of [l] in pages of [size]. *)
Definition page_slice {A} (page size : nat) (l : list A) : list A :=
  firstn size (skipn ((page - 1) * size) l).

(** Most recent first. *)
Definition descending (l : list Contact) : Prop :=
  StronglySorted (fun a b => createdAt b <= createdAt a) l.

(** The documents selected by the [status] parameter of the list. *)
Definition selected (st : option jsstring) (l : list Contact) : list Contact :=
  match st with
  | None => l
  | Some v =>
      if JS.eqb v (js "all") then l
      else List.filter (fun c => JS.eqb (status c) v) l
  end.

(** ** Invariants of the submission limiter *)

(** The handler [h] maintains the relation [R] between the state it
    receives and the state it leaves. *)
Definition keeps {Env State : Type} (R : State -> State -> Prop)
    (e : Env) (r : Request) (h : Handler Env State) : Prop :=
  forall s, match h e s r with
            | Next s' => R s s'
            | Respond s' _ => R s s'
            end.

(** The store of the submission limiter is left alone. *)
Definition same_contact_store (s s' : State) : Prop :=
  contactLimiter_store s' = contactLimiter_store s.

(** What the submission limiter holds for [addr]. *)
Definition same_window (addr : jsstring) (s s' : State) : Prop :=
  contactLimiter_store s' !! addr = contactLimiter_store s !! addr.

(** At least [k] submissions of [addr] have been counted in a window that
    ends at [t_end]. *)
Definition counted_in_window (addr : jsstring) (t_end : Z) (k : nat)
    (s : State) : Prop :=
  exists w, contactLimiter_store s !! addr = Some w /\
            Z.of_nat k <= hits w /\ resetTime w = t_end.

(** ** Traces of requests *)

(** The server handles the requests one after the other. *)
Fixpoint serve (handle : Env -> State -> Request -> State * Response)
    (s : State) (trace : list (Env * Request)) : State * list Response :=
  match trace with
  | [] => (s, [])
  | (e, r) :: rest =>
      let '(s1, resp) := handle e s r in
      let '(s2, resps) := serve handle s1 rest in
      (s2, resp :: resps)
  end.

(** [r] is a submission sent from the address [addr]. *)
Definition submission_from (addr : jsstring) (r : Request) : bool :=
  Method_eqb (method r) POST &&
  bool_decide (path r = [js "api"; js "contact"]) &&
  bool_decide (ip r = addr).

(** The submission limiter holds no window of [addr] that is still open
    at time [t]. *)
Definition no_open_window (s : State) (addr : jsstring) (t : Z) : Prop :=
  match contactLimiter_store s !! addr with
  | Some w => resetTime w <= t
  | None => True
  end.

(** The number of submissions from [addr] in a served trace that were let
    through to the route, that is, not turned away with 429. *)
Definition let_through (addr : jsstring) (trace : list (Env * Request))
    (answers : list Response) : nat :=
  List.length
    (List.filter
       (fun qa : (Env * Request) * Response =>
          submission_from addr (snd (fst qa)) &&
          negb (statusCode (snd qa) =? 429))
       (combine trace answers)).

End Spec.

(* ===================================================================== *)
(** * Sample data *)
(* ===================================================================== *)

Module Sample.
Import Http Express RateLimit World Common.

(** A server that has just started, with an empty collection. *)
Definition fresh : State :=
  {| limiter_store := ∅; contactLimiter_store := ∅;
     contacts := []; next_id := 0%N; events := [] |}.

Definition hex_digit (c : N) : option N :=
  if ((48 <=? c) && (c <=? 57))%N then Some (c - 48)%N
  else if ((97 <=? c) && (c <=? 102))%N then Some (c - 87)%N
  else if ((65 <=? c) && (c <=? 70))%N then Some (c - 55)%N
  else None.

Fixpoint hex_value (acc : N) (s : jsstring) : option N :=
  match s with
  | [] => Some acc
  | c :: s' =>
      match hex_digit c with
      | Some d => hex_value (16 * acc + d)%N s'
      | None => None
      end
  end.

(** An ObjectId parser: 24 hexadecimal digits. *)
Definition hex24 (s : jsstring) : option N :=
  if (List.length s =? 24)%nat then hex_value 0%N s else None.

(** Database and mail transport both work. *)
Definition world : Env :=
  {| OWNER_EMAIL := js "owner@example.com";
     limiter_timing := PerClient;
     db_up := true;
     castObjectId := hex24;
     smtp := fun _ => None |}.

(** The same, with a rate limiter that resets all counts on the hour of
    a timer started at time 0. *)
Definition world_with_timer : Env :=
  {| OWNER_EMAIL := js "owner@example.com";
     limiter_timing := Shared 0;
     db_up := true;
     castObjectId := hex24;
     smtp := fun _ => None |}.

(** The mail transport refuses every message. *)
Definition world_without_mail : Env :=
  {| OWNER_EMAIL := js "owner@example.com";
     limiter_timing := PerClient;
     db_up := true;
     castObjectId := hex24;
     smtp := fun _ => Some (js "connect ECONNREFUSED") |}.

Definition form (nm em msg : option jsstring) : ReqBody :=
  {| b_name := nm; b_email := em; b_message := msg; b_status := None |}.

Definition no_query : ReqQuery :=
  {| q_page := None; q_limit := None; q_status := None |}.

Definition client : jsstring := js "203.0.113.7".

(** [POST /api/contact] with the given body, at time [t]. *)
Definition submission (t : Z) (b : ReqBody) : Request :=
  {| method := POST; path := [js "api"; js "contact"]; ip := client;
     now := t; user_agent := Some (js "curl/8.5.0"); body := b;
     query := no_query |}.

(** [GET /api/contacts] with the given query. *)
Definition list_request (t : Z) (q : ReqQuery) : Request :=
  {| method := GET; path := [js "api"; js "contacts"]; ip := client;
     now := t; user_agent := None; body := form None None None;
     query := q |}.

(** [PATCH /api/contacts/:id] with the given status. *)
Definition patch_request (t : Z) (id : jsstring) (st : option jsstring)
  : Request :=
  {| method := PATCH; path := [js "api"; js "contacts"; id]; ip := client;
     now := t; user_agent := None;
     body := {| b_name := None; b_email := None; b_message := None;
                b_status := st |};
     query := no_query |}.

(** [DELETE /api/contacts/:id] *)
Definition delete_request (t : Z) (id : jsstring) : Request :=
  {| method := DELETE; path := [js "api"; js "contacts"; id]; ip := client;
     now := t; user_agent := None; body := form None None None;
     query := no_query |}.

(** [GET /api/health] *)
Definition health_request (t : Z) : Request :=
  {| method := GET; path := [js "api"; js "health"]; ip := client;
     now := t; user_agent := None; body := form None None None;
     query := no_query |}.

(** [GET /api/test-email] *)
Definition test_email_request (t : Z) : Request :=
  {| method := GET; path := [js "api"; js "test-email"]; ip := client;
     now := t; user_agent := None; body := form None None None;
     query := no_query |}.

(** A stored submission, created [i] seconds after the epoch. *)
Definition stored (i : nat) : Contact :=
  {| _id := N.of_nat i; name := js "Ann"; email := js "ann@example.com";
     message := js "Hi"; ipAddress := client; userAgent := js "curl/8.5.0";
     createdAt := 1000 * Z.of_nat i; status := js "unread" |}.

(** A collection of 25 records, oldest first. *)
Definition archive : State :=
  {| limiter_store := ∅; contactLimiter_store := ∅;
     contacts := map stored (seq 1 25); next_id := 26%N; events := [] |}.

(** The scenario of the specification. *)
Definition ann : ReqBody :=
  form (Some (js "Ann")) (Some (js "ann@example.com")) (Some (js "Hi")).

End Sample.

(* ===================================================================== *)
(** * Further vocabulary: requests, invariants and pages *)
(* ===================================================================== *)

Module More.
Import Http Express RateLimit World Common Spec.

(** The path of the request lies under [/api/]. *)
Definition under_api (r : Request) : bool := starts_with [js "api"] (path r).

(** The first segment of the path is not [api], in any letter case
    (Express compares route paths without regard to case). *)
Definition outside_api (r : Request) : Prop :=
  forall a p, path r = a :: p -> JS.toLowerCase a <> js "api".

(** A path as the route matching of Express reads it: without regard to
    letter case, and with one trailing slash (an empty last segment)
    ignored. *)
Definition route_path (p : list jsstring) : list jsstring :=
  map JS.toLowerCase
    match rev p with
    | [] :: q => rev q
    | _ => p
    end.

(** The request is not for [POST /api/contact], as Express matches that
    route. *)
Definition not_a_submission (r : Request) : Prop :=
  method r <> POST \/ route_path (path r) <> [js "api"; js "contact"].

(** No segment of the path contains a percent sign, so the path needs no
    decoding (and no decoding of it can fail). *)
Definition no_escape (r : Request) : Prop :=
  Forall (fun seg => ~ In 37%N seg) (path r).

(** Moreover no segment is empty: the path has no doubled and no
    trailing slash. *)
Definition plain_path (r : Request) : Prop :=
  Forall (fun seg => seg <> [] /\ ~ In 37%N seg) (path r).

(** The range in which the arithmetic of the list route, which the
    source does in IEEE doubles ([parseInt(page)], [limit * 1],
    [(page - 1) * limit], [total / limit]), is exact: all the integers
    involved are at most 2^53. *)
Definition exact_numbers (page size : N) (total : Z) : Prop :=
  Z.of_N page <= 2 ^ 53 /\ Z.of_N size <= 2 ^ 53 /\
  (Z.of_N page - 1) * Z.of_N size <= 2 ^ 53 /\ total <= 2 ^ 53.

(** No record has the id [oid], and [oid] as well as the ids of all
    records were handed out before: ids still to come are different. *)
Definition retired (oid : N) (s : State) : Prop :=
  (oid < next_id s)%N /\
  Forall (fun c => _id c <> oid /\ (_id c < next_id s)%N) (contacts s).

(** If [oid] was retired, it still is. *)
Definition stays_retired (oid : N) (s s' : State) : Prop :=
  retired oid s -> retired oid s'.

(** Every id in the collection was handed out by the id counter. *)
Definition ids_below_counter (s : State) : Prop :=
  Forall (fun c => (_id c < next_id s)%N) (contacts s).

(** The general limiter lets the request through. *)
Definition passes_general (v : Variant) (s : State) (r : Request) : Prop :=
  admits (general_options v) (limiter_store s) (ip r) (now r) = true.

(** A status value of the schema's enumeration. *)
Definition valid_status (st : option jsstring) : Prop :=
  exists v, st = Some v /\ In v Persisting.statuses.

(** Every document of the collection passes the schema's validators. *)
Definition valid_collection (s : State) : Prop :=
  Forall (fun c => Persisting.contactSchema c = []) (contacts s).

(** What the schema asks of a stored record, field by field. *)
Definition well_formed (c : Contact) : Prop :=
  name c <> [] /\ JS.length (name c) <= 100 /\
  RegExp.test emailRegex (email c) = true /\
  message c <> [] /\ JS.length (message c) <= 1000 /\
  ipAddress c <> [] /\ userAgent c <> [] /\
  In (status c) Persisting.statuses.

(** A request whose method is none of those of the writing routes. *)
Definition read_only (r : Request) : Prop :=
  method r <> POST /\ method r <> PATCH /\ method r <> DELETE.

(** If the collection was valid, it still is. *)
Definition stays_valid (s s' : State) : Prop :=
  valid_collection s -> valid_collection s'.

(** The collection and the trace of effects are as before. *)
Definition same_data (s s' : State) : Prop :=
  contacts s' = contacts s /\ events s' = events s /\ next_id s' = next_id s.

(** No mail was sent and no record was added. *)
Definition nothing_new (s s' : State) : Prop :=
  events s' = events s /\ next_id s' = next_id s /\
  (List.length (contacts s') <= List.length (contacts s))%nat.

(** The store of the general limiter is left alone. *)
Definition same_general_store (s s' : State) : Prop :=
  limiter_store s' = limiter_store s.

(** The same request, asking for page [p]. *)
Definition with_page (p : N) (r : Request) : Request :=
  {| method := method r; path := path r; ip := ip r; now := now r;
     user_agent := user_agent r; body := body r;
     query := {| q_page := Some p; q_limit := q_limit (query r);
                 q_status := q_status (query r) |} |}.

(** The [data] array of a list answer. *)
Definition data_of (resp : Response) : list json :=
  match payload resp with
  | Json j =>
      match field (js "data") j with
      | Some (JArr items) => items
      | _ => []
      end
  | Text _ => []
  end.

(** [r] comes from [addr] and its path lies under [/api/]. *)
Definition api_request_from (addr : jsstring) (r : Request) : bool :=
  under_api r && bool_decide (ip r = addr).

(** The general limiter holds no window of [addr] that is still open at
    time [t]. *)
Definition no_open_general_window (s : State) (addr : jsstring) (t : Z)
  : Prop :=
  match limiter_store s !! addr with
  | Some w => resetTime w <= t
  | None => True
  end.




(** Whenever the handler [h] answers, the answer satisfies [P]. *)
Definition answers (P : Response -> Prop) (e : Env) (r : Request)
    (h : Handler Env State) : Prop :=
  forall s, match h e s r with
            | Respond _ resp => P resp
            | Next _ => True
            end.

(** The stack of each server, and what stands behind the general
    limiter (the third layer). *)
Definition stack (v : Variant) : list (Layer Env State) :=
  match v with
  | first => EmailOnly.app
  | second => Persisting.app
  end.

Definition behind_general (v : Variant) : list (Layer Env State) :=
  skipn 3 (stack v).

(** The number of requests of a trace that come from [addr] and lie
    under [/api/]. *)
Definition api_requests (addr : jsstring) (trace : list (Env * Request))
  : nat :=
  List.length (List.filter (fun q => api_request_from addr (snd q)) trace).

(** The number of requests of a trace that come from [addr]. *)
Definition requests_from (addr : jsstring) (trace : list (Env * Request))
  : nat :=
  List.length
    (List.filter (fun q => bool_decide (ip (snd q) = addr)) trace).

(** The general limiter has counted exactly [k] requests of [addr] in a
    window that ends at [t_end]. *)
Definition general_window (addr : jsstring) (t_end : Z) (k : nat)
    (s : State) : Prop :=
  exists w, limiter_store s !! addr = Some w /\
            hits w = Z.of_nat k /\ resetTime w = t_end.

(** The messages of the schema's [required] validators for a document
    built from the given name, message and client address. *)
Definition required_errors (nm msg ipaddr : jsstring) : list jsstring :=
  match JS.trim nm with
  | [] => [js "Name is required"]
  | _ :: _ => []
  end ++
  match JS.trim msg with
  | [] => [js "Message is required"]
  | _ :: _ => []
  end ++
  match ipaddr with
  | [] => [js "Path `ipAddress` is required."]
  | _ :: _ => []
  end.

(** The answer of the persisting server to a document the schema
    rejects. *)
Definition validation_error (errs : list jsstring) : Response :=
  res_json 400
    (JObj [(js "success", JBool false);
           (js "message", JStr (js "Validation error"));
           (js "errors", JArr (map JStr errs))]).

(** The 400 answer of each validator, by the kind of the defect. *)
Definition too_long_name (v : Variant) : Response :=
  match v with
  | first => res_json 400 (envelope false "Input too long")
  | second => res_json 400 (envelope false "Name cannot exceed 100 characters")
  end.

Definition too_long_message (v : Variant) : Response :=
  match v with
  | first => res_json 400 (envelope false "Input too long")
  | second =>
      res_json 400 (envelope false "Message cannot exceed 1000 characters")
  end.

Definition bad_email (v : Variant) : Response :=
  match v with
  | first => res_json 400 (envelope false "Invalid email address")
  | second =>
      res_json 400 (envelope false "Please provide a valid email address")
  end.

(** A character that can occur in a matching address. *)
Definition address_char (c : N) : Prop :=
  JS.is_word c = true \/ c = 46%N \/ c = 45%N \/ c = 64%N.

(** The routes each server registers in front of its catch-all, as
    method and path pattern. *)
Definition routes (v : Variant) : list (Method * list Segment) :=
  match v with
  | first =>
      [ (POST, [api; Lit (js "contact")]);
        (GET, [api; Lit (js "health")]) ]
  | second =>
      [ (GET, [api; Lit (js "health")]);
        (POST, [api; Lit (js "contact")]);
        (GET, [api; Lit (js "contacts")]);
        (PATCH, Persisting.contacts_id);
        (DELETE, Persisting.contacts_id) ]
  end.

(** The request is for one of these routes, its path taken without
    regard to letter case. *)
Definition routed (v : Variant) (r : Request) : bool :=
  existsb
    (fun mp : Method * list Segment =>
       Method_eqb (method r) (fst mp) &&
       path_matches (snd mp) (map JS.toLowerCase (path r)))
    (routes v).

(** The literal segments of a pattern are in lower case. *)
Definition lower_literals (pat : list Segment) : Prop :=
  Forall (fun seg => match seg with
                     | Lit a => JS.toLowerCase a = a
                     | Param => True
                     end) pat.

(** A text without white space at either end. *)
Definition trimmed (s : jsstring) : Prop :=
  (forall c s', s = c :: s' -> JS.is_space c = false) /\
  (forall s' c, s = s' ++ [c] -> JS.is_space c = false).

(** A text without upper-case ASCII letters. *)
Definition lower_case (s : jsstring) : Prop :=
  Forall (fun c => ~ (65 <= c <= 90)%N) s.

End More.

(* ===================================================================== *)
(** * Start and shutdown of the server process *)
(* ===================================================================== *)

Module Lifecycle.
Import Http.

(** The variables the start-up code reads from [process.env]. *)
Record ProcessEnv : Type := {
  MONGODB_URI : option jsstring;
  env_PORT : option jsstring
}.

(** What the database answers to the process. *)
Record Outside : Type := {
  connects : jsstring -> bool;   (* [mongoose.connect(uri)] resolves *)
  closes : bool                  (* [mongoose.connection.close()] resolves *)
}.

(** What the process does, in the order in which it does it (console
    output is left out). *)
Inductive Effect : Type :=
| Connected (uri : jsstring) (ok : bool)  (* [mongoose.connect] was called *)
| Listening (port : json)                 (* [app.listen(PORT)] *)
| Closed (ok : bool)              (* [mongoose.connection.close()] was called *)
| Exited (code : Z).                      (* [process.exit(code)] *)

(** How a piece of start-up or shutdown code ends: it returns, its
    promise rejects, or the process has exited under it. *)
Inductive Fate (A : Type) : Type :=
| Returns (a : A)
| Rejects
| Exits.
Arguments Returns {A} a.
Arguments Rejects {A}.
Arguments Exits {A}.

Definition Proc (A : Type) : Type := list Effect -> list Effect * Fate A.

Definition ret {A} (a : A) : Proc A := fun t => (t, Returns a).

Definition bind {A B} (m : Proc A) (k : A -> Proc B) : Proc B :=
  fun t =>
    match m t with
    | (t', Returns a) => k a t'
    | (t', Rejects) => (t', Rejects)
    | (t', Exits) => (t', Exits)
    end.

(** [try { m } catch (error) { h }]: only a rejection is caught; after
    [process.exit] nothing runs any more. *)
Definition try_catch {A} (m : Proc A) (h : Proc A) : Proc A :=
  fun t =>
    match m t with
    | (t', Rejects) => h t'
    | done => done
    end.

(** [process.exit(code)] *)
Definition exit {A} (code : Z) : Proc A :=
  fun t => (t ++ [Exited code], Exits).

(** [await mongoose.connect(uri, ...)] *)
Definition connect (out : Outside) (uri : jsstring) : Proc unit :=
  fun t =>
    (t ++ [Connected uri (connects out uri)],
     if connects out uri then Returns tt else Rejects).

(** [await mongoose.connection.close()] *)
Definition close (out : Outside) : Proc unit :=
  fun t => (t ++ [Closed (closes out)],
            if closes out then Returns tt else Rejects).

(** [app.listen(PORT, ...)] *)
Definition listen (port : json) : Proc unit :=
  fun t => (t ++ [Listening port], Returns tt).

(** [a || b] on an environment variable: unset and empty are falsy. *)
Definition or_else (v : option jsstring) (d : jsstring) : jsstring :=
  if JS.falsy v then d else JS.ToString v.

(** [process.env.MONGODB_URI || "mongodb://localhost:27017/portfolio"] *)
Definition mongo_uri (env : ProcessEnv) : jsstring :=
  or_else (MONGODB_URI env) (js "mongodb://localhost:27017/portfolio").

(** [const PORT = process.env.PORT || 5000]: the text of the variable,
    or the number 5000. *)
Definition PORT (env : ProcessEnv) : json :=
  if JS.falsy (env_PORT env) then JNum 5000
  else JStr (JS.ToString (env_PORT env)).

(** [connectDB]: a failed connection is caught here and ends the
    process. *)
Definition connectDB (env : ProcessEnv) (out : Outside) : Proc unit :=
  try_catch (connect out (mongo_uri env)) (exit 1).

(** [startServer] *)
Definition startServer (env : ProcessEnv) (out : Outside) : Proc unit :=
  bind (connectDB env out) (fun _ => listen (PORT env)).

(** [startServer().catch(...)], the last statement of the persisting
    server's start-up. *)
Definition start (env : ProcessEnv) (out : Outside) : Proc unit :=
  try_catch (startServer env out) (exit 1).

(** The start-up of the e-mail only server: [app.listen(PORT, ...)]. *)
Definition start_emailonly (env : ProcessEnv) : Proc unit :=
  listen (PORT env).

(** The handlers of [SIGTERM] and [SIGINT], which are spelled alike. *)
Definition shutdown (out : Outside) : Proc unit :=
  bind (close out) (fun _ => exit 0).

End Lifecycle.
(* ===================================================================== *)
(** * Facts about the regular-expression matcher *)
(* ===================================================================== *)

Module RegExpFacts.
Import RegExp.

Lemma nullable_lang r : nullable r = true <-> lang r [].
Proof.
  split.
  - induction r; simpl; intros H; try discriminate.
    + constructor.
    + apply andb_true_iff in H as [H1 H2].
      change (@nil N) with (@nil N ++ []). constructor; auto.
    + apply orb_true_iff in H as [H|H]; [apply L_alt_l | apply L_alt_r]; auto.
    + constructor.
  - intros H. remember [] as s eqn:Hs. induction H; simpl; auto; try discriminate.
    + apply app_eq_nil in Hs as [-> ->]. rewrite IHlang1, IHlang2; auto.
    + rewrite IHlang; auto.
    + rewrite IHlang; auto using orb_true_r.
Qed.

Lemma lang_deriv_sound c r : forall s, lang (deriv c r) s -> lang r (c :: s).
Proof.
  induction r; simpl; intros s H.
  - inversion H.
  - inversion H.
  - destruct (in_class k c) eqn:E; inversion H; subst. constructor; auto.
  - destruct (nullable r1) eqn:E.
    + inversion H; subst.
      * match goal with Hc : lang (Cat _ _) _ |- _ => inversion Hc; subst end.
        change (c :: s1 ++ s2) with ((c :: s1) ++ s2). constructor; auto.
      * change (c :: s) with ([] ++ c :: s). constructor; auto.
        apply nullable_lang; auto.
    + inversion H; subst.
      change (c :: s1 ++ s2) with ((c :: s1) ++ s2). constructor; auto.
  - inversion H; subst; [apply L_alt_l | apply L_alt_r]; auto.
  - inversion H; subst.
    change (c :: s1 ++ s2) with ((c :: s1) ++ s2). constructor; auto.
Qed.

Lemma lang_deriv_complete r cs :
  lang r cs -> forall c s, cs = c :: s -> lang (deriv c r) s.
Proof.
  induction 1; intros c0 s0 E; simpl.
  - discriminate.
  - injection E as -> <-. rewrite H. constructor.
  - destruct s1 as [|c1 s1'].
    + simpl in E. subst s2.
      assert (Hn : nullable r1 = true) by (apply nullable_lang; auto).
      rewrite Hn. apply L_alt_r. eauto.
    + simpl in E. injection E as -> <-.
      destruct (nullable r1).
      * apply L_alt_l. constructor; eauto.
      * constructor; eauto.
  - apply L_alt_l; eauto.
  - apply L_alt_r; eauto.
  - discriminate.
  - destruct s1 as [|c1 s1'].
    + simpl in E. subst s2. apply (IHlang2 c0 s0 eq_refl).
    + simpl in E. injection E as -> <-. constructor; eauto.
Qed.

(** The matcher decides the language of the pattern. *)
Lemma matches_lang s : forall r, matches r s = true <-> lang r s.
Proof.
  induction s as [|c s IH]; intros r; simpl.
  - apply nullable_lang.
  - rewrite IH. split.
    + apply lang_deriv_sound.
    + intros H. eapply lang_deriv_complete; eauto.
Qed.

Lemma test_lang r s : test r s = true <-> lang r s.
Proof. apply matches_lang. Qed.

(** Inversion of the language constructors. *)
Lemma lang_cat r1 r2 s :
  lang (Cat r1 r2) s <-> exists s1 s2, s = s1 ++ s2 /\ lang r1 s1 /\ lang r2 s2.
Proof.
  split.
  - inversion 1; subst; eauto.
  - intros (s1 & s2 & -> & H1 & H2). constructor; auto.
Qed.

Lemma lang_alt r1 r2 s : lang (Alt r1 r2) s <-> lang r1 s \/ lang r2 s.
Proof.
  split.
  - inversion 1; subst; auto.
  - intros [H|H]; [apply L_alt_l | apply L_alt_r]; auto.
Qed.

Lemma lang_eps s : lang Eps s <-> s = [].
Proof. split; [inversion 1; auto | intros ->; constructor]. Qed.

Lemma lang_chr k s : lang (Chr k) s <-> exists c, s = [c] /\ in_class k c = true.
Proof.
  split.
  - inversion 1; subst; eauto.
  - intros (c & -> & H). constructor; auto.
Qed.

Lemma lang_opt r s : lang (Opt r) s <-> s = [] \/ lang r s.
Proof. unfold Opt. rewrite lang_alt, lang_eps. tauto. Qed.

(** [r*] matches the concatenations of words of [r]. *)
Lemma lang_star r s :
  lang (Star r) s <-> exists ws, s = concat ws /\ Forall (lang r) ws.
Proof.
  split.
  - intros H. remember (Star r) as r' eqn:E. induction H; try discriminate.
    + exists []. split; auto.
    + injection E as ->. destruct (IHlang2 eq_refl) as (ws & -> & Hws).
      exists (s1 :: ws). split; auto.
  - intros (ws & -> & Hws). induction Hws; simpl; constructor; auto.
Qed.

Lemma lang_plus r s :
  lang (Plus r) s <->
  exists w ws, s = w ++ concat ws /\ lang r w /\ Forall (lang r) ws.
Proof.
  unfold Plus. rewrite lang_cat. split.
  - intros (s1 & s2 & -> & H1 & H2). apply lang_star in H2 as (ws & -> & Hws).
    eauto.
  - intros (w & ws & -> & Hw & Hws). exists w, (concat ws).
    repeat split; auto. apply lang_star. eauto.
Qed.

End RegExpFacts.

(* ===================================================================== *)
(** * Facts about the middleware stack and the limiter *)
(* ===================================================================== *)

Module StackFacts.
Import Http Express RateLimit World Common Spec.

(** Closed path and method tests are evaluated. *)
Ltac eval_tests :=
  repeat match goal with
  | |- context [starts_with ?a ?b] =>
      let v := eval vm_compute in (starts_with a b) in
      change (starts_with a b) with v
  | |- context [path_matches ?a ?b] =>
      let v := eval vm_compute in (path_matches a b) in
      change (path_matches a b) with v
  | |- context [Method_eqb ?a ?b] =>
      let v := eval vm_compute in (Method_eqb a b) in
      change (Method_eqb a b) with v
  end.

Ltac walk_stack Hm Hp :=
  cbn [dispatch applies handlers use use_at route run_handlers
       helmet morgan cors express_json express_urlencoded passthrough api];
  try rewrite Hm; try rewrite Hp; eval_tests;
  cbn [andb orb negb].

Section Limiter.
Context {Env State : Type}.
Variable o : Options.
Variable timing : Env -> Timing.
Variable get : State -> gmap jsstring Window.
Variable set : gmap jsstring Window -> State -> State.

Lemma hits_increment tm store key t :
  hits (increment o tm store key t) = hits_after store key t.
Proof.
  unfold increment, hits_after.
  destruct (store !! key) as [w|]; [destruct (t <? resetTime w)|]; reflexivity.
Qed.

Lemma rateLimit_admits (e : Env) s r :
  admits o (get s) (ip r) (now r) = true ->
  rateLimit o timing get set e s r =
    Next (set (record o (timing e) (get s) (ip r) (now r)) s).
Proof.
  unfold admits, rateLimit. intros H. apply negb_true_iff in H.
  cbv zeta. rewrite hits_increment, H. reflexivity.
Qed.

Lemma rateLimit_rejects (e : Env) s r :
  admits o (get s) (ip r) (now r) = false ->
  rateLimit o timing get set e s r =
    Respond (set (record o (timing e) (get s) (ip r) (now r)) s)
            {| statusCode := 429; payload := Text (RateLimit.message o) |}.
Proof.
  unfold admits, rateLimit. intros H. apply negb_false_iff in H.
  cbv zeta. rewrite hits_increment, H. reflexivity.
Qed.

End Limiter.

(** A layer that answers every request hides the layers behind it. *)
Lemma dispatch_hidden {Env State : Type}
    (pre post : list (Layer Env State)) (h : Handler Env State) :
  (forall e s r, exists s' resp, h e s r = Respond s' resp) ->
  forall e s r,
    dispatch (pre ++ use h :: post) e s r = dispatch (pre ++ [use h]) e s r.
Proof.
  intros Hh e s r. revert s.
  induction pre as [|l pre IH]; intros s; simpl.
  - destruct (Hh e s r) as (s' & resp & ->). reflexivity.
  - destruct (applies l r); auto.
    destruct (run_handlers (handlers l) e s r); auto.
Qed.

(** ** The submission endpoint *)

Lemma persisting_submission e s r :
  is_submission r ->
  Persisting.handle e s r =
    match Persisting.limiter e s r with
    | Respond s1 resp => (s1, resp)
    | Next s1 =>
        match Persisting.contactLimiter e s1 r with
        | Respond s2 resp => (s2, resp)
        | Next s2 =>
            match Persisting.validateContactInput e s2 r with
            | Respond s3 resp => (s3, resp)
            | Next s3 => Persisting.submit e r s3
            end
        end
    end.
Proof.
  intros [Hm Hp]. unfold Persisting.handle, Persisting.app.
  walk_stack Hm Hp.
  destruct (Persisting.limiter e s r) as [s1|]; auto.
  destruct (Persisting.contactLimiter e s1 r) as [s2|]; auto.
  destruct (Persisting.validateContactInput e s2 r) as [s3|]; auto.
  unfold Persisting.postContact. destruct (Persisting.submit e r s3); auto.
Qed.

Lemma emailonly_submission e s r :
  is_submission r ->
  EmailOnly.handle e s r =
    match EmailOnly.limiter e s r with
    | Respond s1 resp => (s1, resp)
    | Next s1 =>
        match EmailOnly.contactLimiter e s1 r with
        | Respond s2 resp => (s2, resp)
        | Next s2 =>
            match EmailOnly.validateContactInput e s2 r with
            | Respond s3 resp => (s3, resp)
            | Next s3 => EmailOnly.submit e r s3
            end
        end
    end.
Proof.
  intros [Hm Hp]. unfold EmailOnly.handle, EmailOnly.app.
  walk_stack Hm Hp.
  destruct (EmailOnly.limiter e s r) as [s1|]; auto.
  destruct (EmailOnly.contactLimiter e s1 r) as [s2|]; auto.
  destruct (EmailOnly.validateContactInput e s2 r) as [s3|]; auto.
  unfold EmailOnly.postContact. destruct (EmailOnly.submit e r s3); auto.
Qed.

(** Behind the limiters, the request meets the validator and then the
    handler proper. *)
Lemma persisting_behind_limiters e s r :
  is_submission r -> reaches_validator second s r ->
  Persisting.handle e s r =
    let s2 := counted Persisting.limiter_options
                Persisting.contactLimiter_options e s r in
    match Persisting.validateContactInput e s2 r with
    | Respond s3 resp => (s3, resp)
    | Next s3 => Persisting.submit e r s3
    end.
Proof.
  intros Hr [Hg Hc]. rewrite persisting_submission by assumption.
  unfold Persisting.limiter.
  rewrite rateLimit_admits by exact Hg.
  unfold Persisting.contactLimiter.
  rewrite rateLimit_admits by exact Hc.
  reflexivity.
Qed.

Lemma emailonly_behind_limiters e s r :
  is_submission r -> reaches_validator first s r ->
  EmailOnly.handle e s r =
    let s2 := counted EmailOnly.limiter_options
                EmailOnly.contactLimiter_options e s r in
    match EmailOnly.validateContactInput e s2 r with
    | Respond s3 resp => (s3, resp)
    | Next s3 => EmailOnly.submit e r s3
    end.
Proof.
  intros Hr [Hg Hc]. rewrite emailonly_submission by assumption.
  unfold EmailOnly.limiter.
  rewrite rateLimit_admits by exact Hg.
  unfold EmailOnly.contactLimiter.
  rewrite rateLimit_admits by exact Hc.
  reflexivity.
Qed.

End StackFacts.

(* ===================================================================== *)
(** * The input validator *)
(* ===================================================================== *)

Module ValidatorFacts.
Import Http Express RateLimit World Common Spec StackFacts.

Lemma falsy_missing v : JS.falsy v = true <-> missing v.
Proof.
  unfold missing. destruct v as [[|c s]|]; simpl; split; intros H; auto;
    try discriminate.
  destruct H as [H|H]; discriminate.
Qed.

Lemma falsy_present v : JS.falsy v = false <-> exists s, v = Some s /\ s <> [].
Proof.
  destruct v as [[|c s]|]; simpl; split; intros H; try discriminate;
    try reflexivity;
    try (destruct H as (s0 & H1 & H2); congruence);
    try (exists (c :: s); split; [reflexivity | discriminate]).
Qed.

(** The validators never touch the state and answer 400 when they
    answer. *)
Lemma persisting_validator_answer e s r s' resp :
  Persisting.validateContactInput e s r = Respond s' resp ->
  s' = s /\ statusCode resp = 400.
Proof.
  unfold Persisting.validateContactInput.
  repeat match goal with
         | |- context [if ?b then _ else _] => destruct b
         end; intros [= <- <-] || intros [=]; auto.
Qed.

Lemma emailonly_validator_answer e s r s' resp :
  EmailOnly.validateContactInput e s r = Respond s' resp ->
  s' = s /\ statusCode resp = 400.
Proof.
  unfold EmailOnly.validateContactInput.
  repeat match goal with
         | |- context [if ?b then _ else _] => destruct b
         end; intros [= <- <-] || intros [=]; auto.
Qed.

(** They call [next()] exactly for the accepted payloads. *)
Lemma persisting_validator_next e s r s' :
  Persisting.validateContactInput e s r = Next s' <->
  s' = s /\ exists nm em msg, accepted r nm em msg.
Proof.
  unfold Persisting.validateContactInput, accepted. split.
  - destruct (JS.falsy (b_name (body r))) eqn:En; [discriminate|].
    destruct (JS.falsy (b_email (body r))) eqn:Ee; [discriminate|].
    destruct (JS.falsy (b_message (body r))) eqn:Em; [discriminate|].
    apply falsy_present in En as (nm & En & Hn).
    apply falsy_present in Ee as (em & Ee & He).
    apply falsy_present in Em as (msg & Em & Hm).
    rewrite En, Ee, Em. cbn [orb JS.length_of JS.ToString].
    destruct (100 <? JS.length nm) eqn:L1; [discriminate|].
    destruct (1000 <? JS.length msg) eqn:L2; [discriminate|].
    destruct (RegExp.test emailRegex em) eqn:T; [|discriminate].
    intros [= <-]. split; auto. exists nm, em, msg.
    apply Z.ltb_ge in L1, L2. repeat split; auto.
  - intros (-> & nm & em & msg & En & Ee & Em & Hn & He & Hm & L1 & L2 & T).
    rewrite En, Ee, Em.
    destruct nm; [congruence|]. destruct em; [congruence|].
    destruct msg; [congruence|].
    cbn [JS.falsy orb JS.length_of JS.ToString].
    apply Z.ltb_ge in L1, L2. rewrite L1, L2, T. reflexivity.
Qed.

Lemma emailonly_validator_next e s r s' :
  EmailOnly.validateContactInput e s r = Next s' <->
  s' = s /\ exists nm em msg, accepted r nm em msg.
Proof.
  unfold EmailOnly.validateContactInput, accepted. split.
  - destruct (JS.falsy (b_name (body r))) eqn:En; [discriminate|].
    destruct (JS.falsy (b_email (body r))) eqn:Ee; [discriminate|].
    destruct (JS.falsy (b_message (body r))) eqn:Em; [discriminate|].
    apply falsy_present in En as (nm & En & Hn).
    apply falsy_present in Ee as (em & Ee & He).
    apply falsy_present in Em as (msg & Em & Hm).
    rewrite En, Ee, Em. cbn [orb JS.length_of JS.ToString].
    destruct (100 <? JS.length nm) eqn:L1; [discriminate|].
    destruct (1000 <? JS.length msg) eqn:L2; [discriminate|].
    destruct (RegExp.test emailRegex em) eqn:T; [|discriminate].
    intros [= <-]. split; auto. exists nm, em, msg.
    apply Z.ltb_ge in L1, L2. repeat split; auto.
  - intros (-> & nm & em & msg & En & Ee & Em & Hn & He & Hm & L1 & L2 & T).
    rewrite En, Ee, Em.
    destruct nm; [congruence|]. destruct em; [congruence|].
    destruct msg; [congruence|].
    cbn [JS.falsy orb JS.length_of JS.ToString].
    apply Z.ltb_ge in L1, L2. rewrite L1, L2, T. reflexivity.
Qed.

(** A payload that is not accepted is answered 400 by the submission
    endpoint of either server, and nothing is stored or sent. *)
Lemma not_accepted_400 v e s r :
  is_submission r -> reaches_validator v s r ->
  (forall nm em msg, ~ accepted r nm em msg) ->
  statusCode (snd (server v e s r)) = 400 /\
  contacts (fst (server v e s r)) = contacts s /\
  events (fst (server v e s r)) = events s.
Proof.
  intros Hr Hl Hno. destruct v; simpl server.
  - rewrite emailonly_behind_limiters by assumption. cbv zeta.
    destruct (EmailOnly.validateContactInput _ _ r) as [s3|s3 resp] eqn:E.
    + apply emailonly_validator_next in E as (_ & nm & em & msg & Ha).
      destruct (Hno _ _ _ Ha).
    + apply emailonly_validator_answer in E as [-> Hst]. simpl. auto.
  - rewrite persisting_behind_limiters by assumption. cbv zeta.
    destruct (Persisting.validateContactInput _ _ r) as [s3|s3 resp] eqn:E.
    + apply persisting_validator_next in E as (_ & nm & em & msg & Ha).
      destruct (Hno _ _ _ Ha).
    + apply persisting_validator_answer in E as [-> Hst]. simpl. auto.
Qed.

End ValidatorFacts.

(* ===================================================================== *)
(** * The e-mail pattern *)
(* ===================================================================== *)

Module EmailFacts.
Import RegExp RegExpFacts World Common Spec.

Lemma concat_singletons (l : jsstring) : concat (map (fun c => [c]) l) = l.
Proof. induction l; simpl; congruence. Qed.

Lemma chars_of_class k ws :
  Forall (lang (Chr k)) ws -> Forall (fun c => in_class k c = true) (concat ws).
Proof.
  induction 1 as [|w ws Hw _ IH]; simpl; [constructor|].
  apply lang_chr in Hw as (c & -> & Hc). constructor; auto.
Qed.

(** [\w+] *)
Lemma lang_word_run w : lang (Plus (Chr Word)) w <-> word_run w.
Proof.
  rewrite lang_plus. unfold word_run. split.
  - intros (w0 & ws & -> & H0 & Hws).
    apply lang_chr in H0 as (c & -> & Hc). split; [discriminate|].
    constructor; [exact Hc|]. apply (chars_of_class Word); auto.
  - intros [Hne Hall]. destruct w as [|c w]; [congruence|].
    inversion Hall; subst.
    exists [c], (map (fun c => [c]) w). rewrite concat_singletons.
    split; [reflexivity|]. split; [constructor; auto|].
    match goal with H : Forall _ w |- _ => induction H; constructor; auto end.
    constructor; auto.
Qed.

(** [[.-]] *)
Lemma lang_dot_or_hyphen sp :
  lang (Chr (OneOf [46; 45]%N)) sp <-> sp = [46%N] \/ sp = [45%N].
Proof.
  rewrite lang_chr. split.
  - intros (c & -> & Hc). simpl in Hc.
    destruct (N.eqb_spec c 46); [left; congruence|].
    destruct (N.eqb_spec c 45); [right; congruence|]. discriminate.
  - intros [->| ->]; eexists; split; reflexivity.
Qed.

(** [[.-]?\w+] *)
Lemma lang_group u :
  lang (Cat (Opt (Chr (OneOf [46; 45]%N))) (Plus (Chr Word))) u <-> group u.
Proof.
  rewrite lang_cat. unfold group, separator. split.
  - intros (sp & w & -> & Hsp & Hw). exists sp, w.
    apply lang_opt in Hsp. rewrite lang_dot_or_hyphen in Hsp.
    apply lang_word_run in Hw. tauto.
  - intros (sp & w & -> & Hsp & Hw). exists sp, w.
    rewrite lang_opt, lang_dot_or_hyphen, lang_word_run. tauto.
Qed.

(** [\w+([.-]?\w+)*] *)
Lemma lang_words s : lang words s <-> separated_words s.
Proof.
  unfold words, separated_words. rewrite lang_cat. split.
  - intros (w & t & -> & Hw & Ht).
    apply lang_star in Ht as (gs & -> & Hgs). exists w, gs.
    split; [reflexivity|]. split; [apply lang_word_run; auto|].
    eapply List.Forall_impl; [|exact Hgs]. intros u. apply lang_group.
  - intros (w & gs & -> & Hw & Hgs). exists w, (concat gs).
    split; [reflexivity|]. split; [apply lang_word_run; auto|].
    apply lang_star. exists gs. split; [reflexivity|].
    eapply List.Forall_impl; [|exact Hgs]. intros u. apply lang_group.
Qed.

(** [\.\w{2,3}] *)
Lemma lang_final_segment seg :
  lang (Cat (Chr (OneOf [46%N])) (Rep23 (Chr Word))) seg <->
  final_segment JS.is_word seg.
Proof.
  unfold final_segment, Rep23. split.
  - intros H.
    apply lang_cat in H as (d & t & -> & Hd & Ht).
    apply lang_chr in Hd as (c & -> & Hc). simpl in Hc.
    destruct (N.eqb_spec c 46); [subst c|discriminate].
    apply lang_cat in Ht as (a & t' & -> & Ha & Ht').
    apply lang_cat in Ht' as (b & o & -> & Hb & Ho).
    apply lang_chr in Ha as (ca & -> & Hca).
    apply lang_chr in Hb as (cb & -> & Hcb).
    apply lang_opt in Ho as [->|Ho].
    + exists [ca; cb]. simpl. repeat split; auto.
    + apply lang_chr in Ho as (cc & -> & Hcc).
      exists [ca; cb; cc]. simpl. repeat split; auto.
  - intros (cs & -> & [Hlo Hhi] & Hall).
    destruct cs as [|ca [|cb [|cc [|cd cs]]]]; simpl in Hlo, Hhi; try lia.
    + inversion Hall as [|? ? Hca Hall']; subst.
      inversion Hall' as [|? ? Hcb _]; subst.
      change (46%N :: [ca; cb]) with ([46%N] ++ [ca] ++ [cb] ++ []).
      repeat constructor; auto.
    + inversion Hall as [|? ? Hca Hall']; subst.
      inversion Hall' as [|? ? Hcb Hall'']; subst.
      inversion Hall'' as [|? ? Hcc _]; subst.
      change (46%N :: [ca; cb; cc]) with ([46%N] ++ [ca] ++ [cb] ++ [cc]).
      constructor; [constructor; reflexivity|].
      constructor; [constructor; auto|].
      constructor; [constructor; auto|].
      apply L_alt_r. constructor; auto.
Qed.

(** The pattern of the source recognises exactly the addresses of the
    shape local-part, [@], domain, and one or more final segments of two
    or three word characters. *)
Lemma emailRegex_shape s :
  RegExp.test emailRegex s = true <-> email_shape JS.is_word s.
Proof.
  rewrite test_lang. unfold emailRegex, email_shape. split.
  - intros H.
    apply lang_cat in H as (loc & t1 & -> & Hloc & H).
    apply lang_cat in H as (at_ & t2 & -> & Hat & H).
    apply lang_cat in H as (dom & t3 & -> & Hdom & H).
    apply lang_plus in H as (seg & segs & -> & Hseg & Hsegs).
    apply lang_chr in Hat as (c & -> & Hc). simpl in Hc.
    destruct (N.eqb_spec c 64); [subst c|discriminate].
    exists loc, dom, seg, segs. split; [reflexivity|].
    split; [apply lang_words; auto|]. split; [apply lang_words; auto|].
    constructor; [apply lang_final_segment; auto|].
    eapply List.Forall_impl; [|exact Hsegs]. intros u. apply lang_final_segment.
  - intros (loc & dom & seg & segs & -> & Hloc & Hdom & Hall).
    inversion Hall as [|? ? Hseg Hsegs]; subst.
    constructor; [apply lang_words; auto|].
    constructor; [constructor; reflexivity|].
    constructor; [apply lang_words; auto|].
    apply lang_plus. exists seg, segs. split; [reflexivity|].
    split; [apply lang_final_segment; auto|].
    eapply List.Forall_impl; [|exact Hsegs]. intros u. apply lang_final_segment.
Qed.

(** An address of that shape ends with a character of the final class. *)
Lemma final_segments_end final seg segs :
  Forall (final_segment final) (seg :: segs) ->
  exists pre c, seg ++ concat segs = pre ++ [c] /\ final c = true.
Proof.
  revert seg. induction segs as [|seg' segs IH]; intros seg Hall.
  - inversion Hall as [|? ? (cs & -> & [Hlo Hhi] & Hcs) _]; subst.
    simpl. rewrite app_nil_r.
    destruct cs as [|ca [|cb [|cc [|cd cs]]]]; simpl in Hlo, Hhi; try lia.
    + exists [46%N; ca], cb. split; [reflexivity|].
      inversion Hcs as [|? ? _ H']; subst. inversion H'; auto.
    + exists [46%N; ca; cb], cc. split; [reflexivity|].
      inversion Hcs as [|? ? _ H']; subst.
      inversion H' as [|? ? _ H'']; subst. inversion H''; auto.
  - inversion Hall as [|? ? _ Hrest]; subst.
    destruct (IH seg' Hrest) as (pre & c & E & Hc).
    exists (seg ++ pre), c. split; [|exact Hc].
    simpl. rewrite E. rewrite app_assoc. reflexivity.
Qed.

Lemma email_shape_end final s :
  email_shape final s -> exists pre c, s = pre ++ [c] /\ final c = true.
Proof.
  intros (loc & dom & seg & segs & -> & _ & _ & Hall).
  destruct (final_segments_end _ _ _ Hall) as (pre & c & E & Hc).
  exists (loc ++ [64%N] ++ dom ++ pre), c. split; [|exact Hc].
  rewrite E. rewrite <- !app_assoc. reflexivity.
Qed.

(** Every character of a matched text belongs to a class of the
    pattern. *)
Lemma lang_classes r s :
  lang r s ->
  Forall (fun c => exists k, In k (classes r) /\ in_class k c = true) s.
Proof.
  induction 1; simpl.
  - constructor.
  - constructor; [|constructor]. exists k. split; [left; reflexivity | auto].
  - apply Forall_app. split.
    + eapply List.Forall_impl; [|exact IHlang1].
      intros c (k & Hk & Hc). exists k. split; auto. apply in_or_app; auto.
    + eapply List.Forall_impl; [|exact IHlang2].
      intros c (k & Hk & Hc). exists k. split; auto. apply in_or_app; auto.
  - eapply List.Forall_impl; [|exact IHlang].
    intros c (k & Hk & Hc). exists k. split; auto. apply in_or_app; auto.
  - eapply List.Forall_impl; [|exact IHlang].
    intros c (k & Hk & Hc). exists k. split; auto. apply in_or_app; auto.
  - constructor.
  - apply Forall_app. split; auto.
Qed.

(** Matching only looks at the classes of the characters. *)
Lemma classes_deriv c r k : In k (classes (deriv c r)) -> In k (classes r).
Proof.
  induction r; simpl; auto.
  - destruct (in_class k0 c); simpl; tauto.
  - destruct (nullable r1); simpl; rewrite ?in_app_iff in *; tauto.
  - rewrite !in_app_iff. tauto.
  - rewrite in_app_iff. tauto.
Qed.

Lemma deriv_class_invariant (f : N -> N) c r :
  (forall k, In k (classes r) -> in_class k (f c) = in_class k c) ->
  deriv (f c) r = deriv c r.
Proof.
  induction r; simpl; intros H; auto.
  - rewrite H by (left; reflexivity). reflexivity.
  - rewrite IHr1, IHr2; auto; intros; apply H; apply in_or_app; auto.
  - rewrite IHr1, IHr2; auto; intros; apply H; apply in_or_app; auto.
  - rewrite IHr; auto.
Qed.

Lemma matches_class_invariant (f : N -> N) s : forall r,
  (forall c k, In k (classes r) -> in_class k (f c) = in_class k c) ->
  matches r (map f s) = matches r s.
Proof.
  induction s as [|c s IH]; intros r H; simpl; [reflexivity|].
  rewrite deriv_class_invariant by (intros; apply H; auto).
  apply IH. intros c' k Hk. apply H. eapply classes_deriv; eauto.
Qed.

Ltac bool_to_prop :=
  rewrite ?orb_true_iff, ?andb_true_iff, ?orb_false_iff, ?andb_false_iff,
    ?N.leb_le, ?N.leb_gt, ?N.eqb_eq, ?N.eqb_neq in *.

Lemma lower_cases c :
  (65 <= c <= 90 /\ JS.lower c = c + 32 \/
   ~ 65 <= c <= 90 /\ JS.lower c = c)%N.
Proof.
  unfold JS.lower.
  destruct ((65 <=? c) && (c <=? 90))%N eqn:E; bool_to_prop; lia.
Qed.

(** Lower-casing keeps a character in, or out of, each class of the
    e-mail pattern. *)
Lemma lower_keeps_classes c k :
  In k (classes emailRegex) -> in_class k (JS.lower c) = in_class k c.
Proof.
  intros H.
  assert (Hk : k = Word \/ k = OneOf [46; 45]%N \/ k = OneOf [64%N] \/
               k = OneOf [46%N]) by (simpl in H; intuition congruence).
  clear H. apply Bool.eq_iff_eq_true.
  destruct (lower_cases c) as [[Hc ->]|[Hc ->]]; [|tauto].
  destruct Hk as [->|[->|[->| ->]]]; unfold in_class, JS.is_word; simpl;
    bool_to_prop; lia.
Qed.

Lemma lowercase_keeps_match s :
  RegExp.test emailRegex (JS.toLowerCase s) = RegExp.test emailRegex s.
Proof.
  unfold RegExp.test, JS.toLowerCase. apply matches_class_invariant.
  intros c k. apply lower_keeps_classes.
Qed.

(** No character of a matching address is white space, so trimming
    keeps the address. *)
Lemma class_not_space c k :
  In k (classes emailRegex) -> in_class k c = true -> JS.is_space c = false.
Proof.
  intros H.
  assert (Hk : k = Word \/ k = OneOf [46; 45]%N \/ k = OneOf [64%N] \/
               k = OneOf [46%N]) by (simpl in H; intuition congruence).
  clear H.
  destruct Hk as [->|[->|[->| ->]]];
    unfold in_class, JS.is_word, JS.is_space; simpl;
    intros Hc; bool_to_prop; lia.
Qed.

Lemma trimStart_no_space s :
  Forall (fun c => JS.is_space c = false) s -> JS.trimStart s = s.
Proof. destruct 1 as [|c s Hc _]; simpl; [reflexivity|]. rewrite Hc. reflexivity. Qed.

Lemma trim_no_space s :
  Forall (fun c => JS.is_space c = false) s -> JS.trim s = s.
Proof.
  intros H. unfold JS.trim, JS.trimEnd.
  rewrite (trimStart_no_space s H).
  rewrite trimStart_no_space by (apply Forall_rev; exact H).
  apply rev_involutive.
Qed.

Lemma matching_email_no_space s :
  RegExp.test emailRegex s = true -> Forall (fun c => JS.is_space c = false) s.
Proof.
  intros H. apply test_lang in H. apply lang_classes in H.
  eapply List.Forall_impl; [|exact H].
  intros c (k & Hk & Hc). eapply class_not_space; eauto.
Qed.

(** What the schema stores for a validated address still matches. *)
Lemma stored_email_matches s :
  RegExp.test emailRegex s = true ->
  RegExp.test emailRegex (JS.toLowerCase (JS.trim s)) = true.
Proof.
  intros H. rewrite trim_no_space by (apply matching_email_no_space; exact H).
  rewrite lowercase_keeps_match. exact H.
Qed.

Lemma trimStart_length s : (List.length (JS.trimStart s) <= List.length s)%nat.
Proof.
  induction s as [|c s IH]; simpl; [lia|].
  destruct (JS.is_space c); simpl; lia.
Qed.

Lemma trim_length s : JS.length (JS.trim s) <= JS.length s.
Proof.
  unfold JS.length, JS.trim, JS.trimEnd.
  rewrite length_rev.
  pose proof (trimStart_length (rev (JS.trimStart s))) as H1.
  rewrite length_rev in H1.
  pose proof (trimStart_length s). lia.
Qed.

End EmailFacts.

(* ===================================================================== *)
(** * Input validation at the submission endpoint *)
(* ===================================================================== *)

Import Http Express RateLimit World Common Spec.

(** C5.  A submission in which the name, the e-mail or the message is
    absent or empty is answered 400 by either server, and no contact
    record is created: the collection (and the trace of effects) is left
    as it was.  The request is one that got past the two rate limiters. *)
Theorem missing_field_is_rejected (v : Variant) e s r :
  is_submission r -> reaches_validator v s r ->
  missing (b_name (body r)) \/ missing (b_email (body r)) \/
    missing (b_message (body r)) ->
  statusCode (snd (server v e s r)) = 400 /\
  contacts (fst (server v e s r)) = contacts s /\
  events (fst (server v e s r)) = events s.
Proof.
  intros Hr Hl Hmiss. apply ValidatorFacts.not_accepted_400; auto.
  intros nm em msg (En & Ee & Em & Hn & He & Hm & _).
  unfold missing in Hmiss. intuition congruence.
Qed.

Lemma missing_field_is_rejected_witness :
  let r := Sample.submission 0
             (Sample.form None (Some (js "ann@example.com")) (Some (js "Hi"))) in
  statusCode (snd (server second Sample.world Sample.fresh r)) = 400 /\
  contacts (fst (server second Sample.world Sample.fresh r)) = [] /\
  events (fst (server second Sample.world Sample.fresh r)) = [].
Proof.
  apply (missing_field_is_rejected second Sample.world Sample.fresh).
  - split; reflexivity.
  - split; vm_compute; reflexivity.
  - left. left. reflexivity.
Defined.

(** C6.  A submission whose name is longer than 100 characters, or whose
    message is longer than 1000 characters, is answered 400 by either
    server; each bound is enforced on its own, whatever the other fields
    are.  The request is one that got past the two rate limiters. *)
Theorem over_long_field_is_rejected (v : Variant) e s r :
  is_submission r -> reaches_validator v s r ->
  (exists nm, b_name (body r) = Some nm /\ 100 < JS.length nm) \/
  (exists msg, b_message (body r) = Some msg /\ 1000 < JS.length msg) ->
  statusCode (snd (server v e s r)) = 400 /\
  contacts (fst (server v e s r)) = contacts s /\
  events (fst (server v e s r)) = events s.
Proof.
  intros Hr Hl Hlong. apply ValidatorFacts.not_accepted_400; auto.
  intros nm em msg (En & Ee & Em & Hn & He & Hm & L1 & L2 & _).
  destruct Hlong as [(nm' & E & L)|(msg' & E & L)].
  - rewrite En in E. injection E as <-. lia.
  - rewrite Em in E. injection E as <-. lia.
Qed.

Lemma over_long_field_is_rejected_witness :
  let r := Sample.submission 0
             (Sample.form (Some (js "Ann")) (Some (js "ann@example.com"))
                (Some (repeat 120%N 1001))) in
  statusCode (snd (server first Sample.world Sample.fresh r)) = 400 /\
  contacts (fst (server first Sample.world Sample.fresh r)) = [] /\
  events (fst (server first Sample.world Sample.fresh r)) = [].
Proof.
  apply (over_long_field_is_rejected first Sample.world Sample.fresh).
  - split; reflexivity.
  - split; vm_compute; reflexivity.
  - right. eexists. split; [reflexivity | vm_compute; reflexivity].
Defined.

(** C7, as the claim states it, fails: the address [a@b.12] ends in a
    segment of two digits, so it is not of the shape with a final segment
    of 2-3 letters, yet both validators let it through and the persisting
    server answers 201. *)
Lemma digits_in_final_segment_accepted :
  let r := Sample.submission 0
             (Sample.form (Some (js "Ann")) (Some (js "a@b.12")) (Some (js "Hi"))) in
  ~ email_shape JS.is_letter (js "a@b.12") /\
  validator first Sample.world Sample.fresh r = Next Sample.fresh /\
  validator second Sample.world Sample.fresh r = Next Sample.fresh /\
  statusCode (snd (server second Sample.world Sample.fresh r)) = 201.
Proof.
  split; [|repeat split; vm_compute; reflexivity].
  intros H. apply EmailFacts.email_shape_end in H as (pre & c & E & Hc).
  change (js "a@b.12") with ([97; 64; 98; 46; 49]%N ++ [50%N]) in E.
  apply app_inj_tail in E as [_ <-]. vm_compute in Hc. discriminate.
Qed.

(** C7, amended.  The e-mail test of either validator passes exactly for
    the addresses of the shape: local-part and domain made of word
    characters with optional dot/hyphen separators, then one or more
    dot-separated final segments of 2-3 word characters (letters, digits
    or underscore).  With the other two fields in order the validator
    lets the payload through exactly then; and whatever the other fields
    are, an address that is not of this shape makes the submission
    endpoint answer 400 with nothing stored or sent. *)
Theorem email_shape_is_enforced (v : Variant) e s r em :
  is_submission r -> reaches_validator v s r ->
  b_email (body r) = Some em ->
  (RegExp.test emailRegex em = true <-> email_shape JS.is_word em) /\
  (forall nm msg,
      b_name (body r) = Some nm -> b_message (body r) = Some msg ->
      nm <> [] -> msg <> [] ->
      JS.length nm <= 100 -> JS.length msg <= 1000 ->
      (validator v e s r = Next s <-> email_shape JS.is_word em)) /\
  (~ email_shape JS.is_word em ->
   statusCode (snd (server v e s r)) = 400 /\
   contacts (fst (server v e s r)) = contacts s /\
   events (fst (server v e s r)) = events s).
Proof.
  intros Hr Hl Ee. split; [apply EmailFacts.emailRegex_shape|]. split.
  - intros nm msg En Em Hn Hm L1 L2.
    rewrite <- EmailFacts.emailRegex_shape.
    assert (Hv : validator v e s r = Next s <->
                 exists nm em msg, accepted r nm em msg).
    { destruct v; simpl validator.
      - rewrite ValidatorFacts.emailonly_validator_next. tauto.
      - rewrite ValidatorFacts.persisting_validator_next. tauto. }
    rewrite Hv. split.
    + intros (nm' & em' & msg' & _ & Ee' & _ & _ & _ & _ & _ & _ & T).
      congruence.
    + intros T. exists nm, em, msg. unfold accepted. repeat split; auto.
      intros ->. vm_compute in T. discriminate.
  - intros Hshape. apply ValidatorFacts.not_accepted_400; auto.
    intros nm em' msg (_ & Ee' & _ & _ & _ & _ & _ & _ & T).
    apply Hshape. apply EmailFacts.emailRegex_shape. congruence.
Qed.

Lemma email_shape_is_enforced_witness :
  let r := Sample.submission 0
             (Sample.form (Some (js "Ann")) (Some (js "ann@example")) (Some (js "Hi"))) in
  (RegExp.test emailRegex (js "ann@example") = true <->
   email_shape JS.is_word (js "ann@example")) /\
  (forall nm msg,
      b_name (body r) = Some nm -> b_message (body r) = Some msg ->
      nm <> [] -> msg <> [] ->
      JS.length nm <= 100 -> JS.length msg <= 1000 ->
      (validator second Sample.world Sample.fresh r = Next Sample.fresh <->
       email_shape JS.is_word (js "ann@example"))) /\
  (~ email_shape JS.is_word (js "ann@example") ->
   statusCode (snd (server second Sample.world Sample.fresh r)) = 400 /\
   contacts (fst (server second Sample.world Sample.fresh r)) = contacts Sample.fresh /\
   events (fst (server second Sample.world Sample.fresh r)) = events Sample.fresh).
Proof.
  apply (email_shape_is_enforced second Sample.world Sample.fresh).
  - split; reflexivity.
  - split; vm_compute; reflexivity.
  - reflexivity.
Defined.

(* ===================================================================== *)
(** * The submission workflow *)
(* ===================================================================== *)

Module SubmitFacts.
Import Http Express RateLimit World Common Spec StackFacts.

Lemma check_path_ok v required_msg ok msg :
  v <> [] -> ok = true -> Persisting.check_path v required_msg ok msg = [].
Proof. intros Hv ->. destruct v; [congruence | reflexivity]. Qed.

Lemma userAgent_of_nonempty r : Persisting.userAgent_of r <> [].
Proof.
  unfold Persisting.userAgent_of.
  destruct (user_agent r) as [[|c ua]|]; simpl; discriminate.
Qed.

(** The schema has nothing to object to in the document built from an
    accepted payload, as long as name and message do not consist of white
    space only and the client address is known. *)
Lemma schema_accepts r nm em msg i t :
  accepted r nm em msg ->
  JS.trim nm <> [] -> JS.trim msg <> [] -> ip r <> [] ->
  Persisting.contactSchema
    {| _id := i; name := JS.trim nm; email := JS.toLowerCase (JS.trim em);
       message := JS.trim msg; ipAddress := ip r;
       userAgent := Persisting.userAgent_of r; createdAt := t;
       status := js "unread" |} = [].
Proof.
  intros (_ & _ & _ & _ & He & _ & L1 & L2 & T) Hn Hm Hip.
  unfold Persisting.contactSchema.
  cbn [name email message ipAddress userAgent status].
  rewrite !check_path_ok; auto.
  - apply userAgent_of_nonempty.
  - apply Z.leb_le. pose proof (EmailFacts.trim_length msg). lia.
  - rewrite EmailFacts.trim_no_space
      by (apply EmailFacts.matching_email_no_space; exact T).
    destruct em; [congruence | discriminate].
  - apply EmailFacts.stored_email_matches. exact T.
  - apply Z.leb_le. pose proof (EmailFacts.trim_length nm). lia.
Qed.

(** What the handler proper does with an accepted payload that the
    storage boundary takes. *)
Lemma persisting_submit_stored e r s nm em msg :
  accepted r nm em msg -> storable e r nm msg ->
  exists c,
    _id c = next_id s /\ name c = JS.trim nm /\
    email c = JS.toLowerCase (JS.trim em) /\ message c = JS.trim msg /\
    ipAddress c = ip r /\ createdAt c = now r /\ status c = js "unread" /\
    contacts (fst (Persisting.submit e r s)) = contacts s ++ [c] /\
    events (fst (Persisting.submit e r s)) =
      events s ++ Saved c :: notifications e nm em msg /\
    snd (Persisting.submit e r s) =
      if delivers e (ownerMail e nm em msg) && delivers e (userMail nm em msg)
      then res_json 201 (created_body c)
      else res_json 500
             (envelope false "Internal server error. Please try again later.").
Proof.
  intros Ha (Hdb & Hn & Hm & Hip).
  pose proof (schema_accepts r nm em msg (next_id s) (now r) Ha Hn Hm Hip) as Hs.
  destruct Ha as (En & Ee & Em & _).
  eexists. repeat (split; [reflexivity|]).
  unfold Persisting.submit, try_catch, bind, Persisting.new_Contact,
    Persisting.save, sendMail, notifications, delivers, ret.
  rewrite En, Ee, Em. cbn [JS.ToString]. rewrite Hs, Hdb.
  destruct (smtp e (ownerMail e nm em msg)) as [m1|];
    [|destruct (smtp e (userMail nm em msg)) as [m2|]];
    cbn [fst snd contacts events log set_contacts set_next_id andb];
    rewrite <- ?app_assoc; repeat split; reflexivity.
Qed.

(** The e-mail only server: two sends, no storage. *)
Lemma emailonly_submit e r s nm em msg :
  accepted r nm em msg ->
  contacts (fst (EmailOnly.submit e r s)) = contacts s /\
  events (fst (EmailOnly.submit e r s)) = events s ++ notifications e nm em msg /\
  snd (EmailOnly.submit e r s) =
    if delivers e (ownerMail e nm em msg) && delivers e (userMail nm em msg)
    then res_json 200
           (envelope true
              "Message sent successfully. Check your email for confirmation!")
    else res_json 500
           (envelope false "Failed to send message. Please try again later.").
Proof.
  intros (En & Ee & Em & _).
  unfold EmailOnly.submit, try_catch, bind, sendMail, notifications, delivers, ret.
  rewrite En, Ee, Em. cbn [JS.ToString].
  destruct (smtp e (ownerMail e nm em msg)) as [m1|];
    [|destruct (smtp e (userMail nm em msg)) as [m2|]];
    cbn [fst snd contacts events log andb];
    rewrite <- ?app_assoc; repeat split; reflexivity.
Qed.

(** An accepted submission behind the limiters runs the handler proper on
    the state in which both limiters have counted it. *)
Lemma persisting_accepted e s r nm em msg :
  is_submission r -> reaches_validator second s r -> accepted r nm em msg ->
  Persisting.handle e s r =
    Persisting.submit e r
      (counted Persisting.limiter_options Persisting.contactLimiter_options e s r).
Proof.
  intros Hr Hl Ha. rewrite persisting_behind_limiters by assumption. cbv zeta.
  destruct (Persisting.validateContactInput _ _ r) as [s3|s3 resp] eqn:E.
  - apply ValidatorFacts.persisting_validator_next in E as [-> _]. reflexivity.
  - assert (Hn : Persisting.validateContactInput e
                   (counted Persisting.limiter_options
                      Persisting.contactLimiter_options e s r) r =
                 Next (counted Persisting.limiter_options
                         Persisting.contactLimiter_options e s r)).
    { apply ValidatorFacts.persisting_validator_next. eauto. }
    congruence.
Qed.

Lemma emailonly_accepted e s r nm em msg :
  is_submission r -> reaches_validator first s r -> accepted r nm em msg ->
  EmailOnly.handle e s r =
    EmailOnly.submit e r
      (counted EmailOnly.limiter_options EmailOnly.contactLimiter_options e s r).
Proof.
  intros Hr Hl Ha. rewrite emailonly_behind_limiters by assumption. cbv zeta.
  destruct (EmailOnly.validateContactInput _ _ r) as [s3|s3 resp] eqn:E.
  - apply ValidatorFacts.emailonly_validator_next in E as [-> _]. reflexivity.
  - assert (Hn : EmailOnly.validateContactInput e
                   (counted EmailOnly.limiter_options
                      EmailOnly.contactLimiter_options e s r) r =
                 Next (counted EmailOnly.limiter_options
                         EmailOnly.contactLimiter_options e s r)).
    { apply ValidatorFacts.emailonly_validator_next. eauto. }
    congruence.
Qed.

End SubmitFacts.

(** C1, as the claim states it, fails: a payload whose name is a single
    space has all three fields present, lengths within bounds and a
    matching e-mail, and the input validator lets it through; but the
    schema trims the name, finds it empty, and [save] rejects the
    document.  The answer is 400, no record is created and no
    notification is attempted. *)
Lemma blank_name_is_accepted_but_not_stored :
  let r := Sample.submission 0
             (Sample.form (Some (js " ")) (Some (js "ann@example.com"))
                (Some (js "Hi"))) in
  accepted r (js " ") (js "ann@example.com") (js "Hi") /\
  reaches_validator second Sample.fresh r /\
  validator second Sample.world Sample.fresh r = Next Sample.fresh /\
  statusCode (snd (server second Sample.world Sample.fresh r)) = 400 /\
  contacts (fst (server second Sample.world Sample.fresh r)) = [] /\
  events (fst (server second Sample.world Sample.fresh r)) = [].
Proof.
  repeat split; try discriminate; vm_compute; congruence.
Qed.

(** C1, amended.  For every payload accepted by the input validator
    that the storage boundary also takes (name and message are not white
    space only, the database answers), the persisting server creates
    exactly one contact record, with status "unread"; only after the
    record is saved does it attempt the notification sends: first the
    owner's and then, if that send succeeded, the submitter's. *)
Theorem accepted_submission_is_stored_then_notified e s r nm em msg :
  is_submission r -> reaches_validator second s r ->
  accepted r nm em msg -> storable e r nm msg ->
  exists c,
    contacts (fst (server second e s r)) = contacts s ++ [c] /\
    status c = js "unread" /\
    events (fst (server second e s r)) =
      events s ++ Saved c :: notifications e nm em msg.
Proof.
  intros Hr Hl Ha Hst. simpl server.
  rewrite (SubmitFacts.persisting_accepted e s r nm em msg) by assumption.
  destruct (SubmitFacts.persisting_submit_stored e r
              (counted Persisting.limiter_options
                 Persisting.contactLimiter_options e s r) nm em msg Ha Hst)
    as (c & _ & _ & _ & _ & _ & _ & Hstatus & Hc & Hev & _).
  exists c. auto.
Qed.

Lemma accepted_submission_is_stored_then_notified_witness :
  let r := Sample.submission 0 Sample.ann in
  exists c,
    contacts (fst (server second Sample.world Sample.fresh r)) =
      contacts Sample.fresh ++ [c] /\
    status c = js "unread" /\
    events (fst (server second Sample.world Sample.fresh r)) =
      events Sample.fresh ++
      Saved c :: notifications Sample.world (js "Ann") (js "ann@example.com")
                   (js "Hi").
Proof.
  apply (accepted_submission_is_stored_then_notified Sample.world Sample.fresh).
  - split; reflexivity.
  - split; vm_compute; reflexivity.
  - repeat split; try discriminate; vm_compute; congruence.
  - repeat split; try discriminate; vm_compute; congruence.
Defined.

(** C2.  When a notification send fails after the record has been
    persisted, the record stays in the collection, the submission
    endpoint answers 500, and nothing is retried: the failed send occurs
    once in the trace, and after a failed owner notification the
    submitter's is not attempted at all. *)
Theorem failed_notification_keeps_the_record e s r nm em msg :
  is_submission r -> reaches_validator second s r ->
  accepted r nm em msg -> storable e r nm msg ->
  delivers e (ownerMail e nm em msg) = false \/
    delivers e (userMail nm em msg) = false ->
  statusCode (snd (server second e s r)) = 500 /\
  exists c,
    contacts (fst (server second e s r)) = contacts s ++ [c] /\
    events (fst (server second e s r)) =
      events s ++ Saved c ::
        (if delivers e (ownerMail e nm em msg)
         then [Mailed (ownerMail e nm em msg) true;
               Mailed (userMail nm em msg) false]
         else [Mailed (ownerMail e nm em msg) false]).
Proof.
  intros Hr Hl Ha Hst Hfail. simpl server.
  rewrite (SubmitFacts.persisting_accepted e s r nm em msg) by assumption.
  destruct (SubmitFacts.persisting_submit_stored e r
              (counted Persisting.limiter_options
                 Persisting.contactLimiter_options e s r) nm em msg Ha Hst)
    as (c & _ & _ & _ & _ & _ & _ & _ & Hc & Hev & Hresp).
  rewrite Hresp, Hev. unfold notifications.
  destruct (delivers e (ownerMail e nm em msg)) eqn:Do;
    destruct (delivers e (userMail nm em msg)) eqn:Du;
    try (destruct Hfail; discriminate);
    (split; [reflexivity | exists c; split; [exact Hc | reflexivity]]).
Qed.

Lemma failed_notification_keeps_the_record_witness :
  let r := Sample.submission 0 Sample.ann in
  let e := Sample.world_without_mail in
  statusCode (snd (server second e Sample.fresh r)) = 500 /\
  exists c,
    contacts (fst (server second e Sample.fresh r)) = contacts Sample.fresh ++ [c] /\
    events (fst (server second e Sample.fresh r)) =
      events Sample.fresh ++ Saved c ::
        (if delivers e (ownerMail e (js "Ann") (js "ann@example.com") (js "Hi"))
         then [Mailed (ownerMail e (js "Ann") (js "ann@example.com") (js "Hi")) true;
               Mailed (userMail (js "Ann") (js "ann@example.com") (js "Hi")) false]
         else [Mailed (ownerMail e (js "Ann") (js "ann@example.com") (js "Hi")) false]).
Proof.
  apply (failed_notification_keeps_the_record Sample.world_without_mail
           Sample.fresh).
  - split; reflexivity.
  - split; vm_compute; reflexivity.
  - repeat split; try discriminate; vm_compute; congruence.
  - repeat split; try discriminate; vm_compute; congruence.
  - left. reflexivity.
Defined.

(** C3, as the claim states it, fails on the e-mail only server: there a
    submission that passes validation and both notification sends is
    answered 200, and the body is [{success, message}] without a [data]
    member. *)
Lemma emailonly_success_is_200_without_data :
  let r := Sample.submission 0 Sample.ann in
  accepted r (js "Ann") (js "ann@example.com") (js "Hi") /\
  reaches_validator first Sample.fresh r /\
  events (fst (server first Sample.world Sample.fresh r)) =
    [Mailed (ownerMail Sample.world (js "Ann") (js "ann@example.com") (js "Hi")) true;
     Mailed (userMail (js "Ann") (js "ann@example.com") (js "Hi")) true] /\
  statusCode (snd (server first Sample.world Sample.fresh r)) = 200 /\
  exists j, payload (snd (server first Sample.world Sample.fresh r)) = Json j /\
            field (js "success") j = Some (JBool true) /\
            field (js "data") j = None.
Proof.
  repeat split; try discriminate; try (vm_compute; congruence).
  eexists. repeat split; vm_compute; reflexivity.
Qed.

(** C3, amended.  On the persisting server, every submission that passes
    validation, persistence and notification is answered 201 with the
    body [{success: true, message, data: {id, timestamp}}] that carries
    the id and the creation time of the record just persisted.  On the
    e-mail only server, which persists nothing, a submission that passes
    validation and notification is answered 200 with the body
    [{success: true, message}]. *)
Theorem successful_submission_answer e s r nm em msg :
  is_submission r -> accepted r nm em msg ->
  delivers e (ownerMail e nm em msg) = true ->
  delivers e (userMail nm em msg) = true ->
  (reaches_validator second s r -> storable e r nm msg ->
   exists c,
     contacts (fst (server second e s r)) = contacts s ++ [c] /\
     snd (server second e s r) = res_json 201 (created_body c)) /\
  (reaches_validator first s r ->
   snd (server first e s r) =
     res_json 200
       (envelope true
          "Message sent successfully. Check your email for confirmation!")).
Proof.
  intros Hr Ha Do Du. split.
  - intros Hl Hst. simpl server.
    rewrite (SubmitFacts.persisting_accepted e s r nm em msg) by assumption.
    destruct (SubmitFacts.persisting_submit_stored e r
                (counted Persisting.limiter_options
                   Persisting.contactLimiter_options e s r) nm em msg Ha Hst)
      as (c & _ & _ & _ & _ & _ & _ & _ & Hc & _ & Hresp).
    exists c. split; [exact Hc|]. rewrite Hresp, Do, Du. reflexivity.
  - intros Hl. simpl server.
    rewrite (SubmitFacts.emailonly_accepted e s r nm em msg) by assumption.
    destruct (SubmitFacts.emailonly_submit e r
                (counted EmailOnly.limiter_options
                   EmailOnly.contactLimiter_options e s r) nm em msg Ha)
      as (_ & _ & Hresp).
    rewrite Hresp, Do, Du. reflexivity.
Qed.

Lemma successful_submission_answer_witness :
  let r := Sample.submission 0 Sample.ann in
  (reaches_validator second Sample.fresh r ->
   storable Sample.world r (js "Ann") (js "Hi") ->
   exists c,
     contacts (fst (server second Sample.world Sample.fresh r)) =
       contacts Sample.fresh ++ [c] /\
     snd (server second Sample.world Sample.fresh r) =
       res_json 201 (created_body c)) /\
  (reaches_validator first Sample.fresh r ->
   snd (server first Sample.world Sample.fresh r) =
     res_json 200
       (envelope true
          "Message sent successfully. Check your email for confirmation!")).
Proof.
  apply (successful_submission_answer Sample.world Sample.fresh
           (Sample.submission 0 Sample.ann)
           (js "Ann") (js "ann@example.com") (js "Hi")).
  - split; reflexivity.
  - repeat split; try discriminate; vm_compute; congruence.
  - reflexivity.
  - reflexivity.
Defined.

(* ===================================================================== *)
(** * The submission limiter over a trace of requests *)
(* ===================================================================== *)

Module LimiterFacts.
Import Http Express RateLimit World Common Spec StackFacts.

(** A relation that every handler of the layers a request meets maintains
    is maintained by the stack. *)
Lemma run_handlers_keeps {Env State : Type} (R : State -> State -> Prop)
    (e : Env) (r : Request) (hs : list (Handler Env State)) :
  (forall s, R s s) -> (forall a b c, R a b -> R b c -> R a c) ->
  Forall (keeps R e r) hs ->
  forall s, match run_handlers hs e s r with
            | Next s' => R s s'
            | Respond s' _ => R s s'
            end.
Proof.
  intros Hrefl Htrans. induction 1 as [|h hs Hh _ IH]; intros s; simpl.
  - apply Hrefl.
  - specialize (Hh s). destruct (h e s r) as [s1|s1 resp]; [|exact Hh].
    specialize (IH s1). destruct (run_handlers hs e s1 r); eauto.
Qed.

Lemma dispatch_keeps {Env State : Type} (R : State -> State -> Prop)
    (e : Env) (r : Request) (stack : list (Layer Env State)) :
  (forall s, R s s) -> (forall a b c, R a b -> R b c -> R a c) ->
  Forall (fun l => applies l r = true -> Forall (keeps R e r) (handlers l))
         stack ->
  forall s, R s (fst (dispatch stack e s r)).
Proof.
  intros Hrefl Htrans. induction 1 as [|l stack Hl _ IH]; intros s; simpl.
  - apply Hrefl.
  - destruct (applies l r) eqn:E; [|apply IH].
    pose proof (run_handlers_keeps R e r (handlers l) Hrefl Htrans
                  (Hl eq_refl) s) as H.
    destruct (run_handlers (handlers l) e s r) as [s1|s1 resp]; [|exact H].
    eapply Htrans; [exact H | apply IH].
Qed.

(** ** Handlers that leave the submission limiter's store alone *)

Lemma keeps_passthrough R e r :
  (forall s : State, R s s) -> keeps R e r (@passthrough Env State).
Proof. intros H s. apply H. Qed.

Lemma keeps_general_limiter o (e : Env) r :
  keeps same_contact_store e r (rateLimit o limiter_timing limiter_store set_limiter_store).
Proof. intros s. unfold rateLimit. cbv zeta. destruct (_ <? _); reflexivity. Qed.

Lemma keeps_fallback e r : keeps same_contact_store e r fallback404.
Proof. intros s. reflexivity. Qed.

Lemma keeps_weaken addr (e : Env) r (h : Handler Env State) :
  keeps same_contact_store e r h -> keeps (same_window addr) e r h.
Proof.
  intros H s. specialize (H s). unfold same_window, same_contact_store in *.
  destruct (h e s r); rewrite H; reflexivity.
Qed.

(** The submission limiter only touches the window of the sender. *)
Lemma keeps_contact_limiter_other o addr (e : Env) r :
  ip r <> addr ->
  keeps (same_window addr) e r
    (rateLimit o limiter_timing contactLimiter_store set_contactLimiter_store).
Proof.
  intros Hip s. unfold rateLimit, same_window, record.
  cbv zeta. destruct (_ <? _); simpl; apply lookup_insert_ne; auto.
Qed.

Lemma persisting_submit_same_store e r s :
  same_contact_store s (fst (Persisting.submit e r s)).
Proof.
  unfold same_contact_store, Persisting.submit, try_catch, bind,
    Persisting.new_Contact, Persisting.save, sendMail, ret.
  destruct (Persisting.contactSchema _); [|reflexivity].
  destruct (db_up e); [|reflexivity].
  destruct (smtp e (ownerMail _ _ _ _)); [reflexivity|].
  destruct (smtp e (userMail _ _ _)); reflexivity.
Qed.

Lemma persisting_keeps_validator e r :
  keeps same_contact_store e r Persisting.validateContactInput.
Proof.
  intros s. unfold Persisting.validateContactInput.
  repeat match goal with
         | |- context [if ?b then _ else _] => destruct b
         end; reflexivity.
Qed.

Lemma persisting_keeps_postContact e r :
  keeps same_contact_store e r Persisting.postContact.
Proof.
  intros s. unfold Persisting.postContact.
  pose proof (persisting_submit_same_store e r s) as H.
  destruct (Persisting.submit e r s). exact H.
Qed.

Lemma persisting_keeps_health e r :
  keeps same_contact_store e r Persisting.health.
Proof. intros s. reflexivity. Qed.

Lemma persisting_keeps_getContacts e r :
  keeps same_contact_store e r Persisting.getContacts.
Proof.
  intros s. unfold Persisting.getContacts, Persisting.listContacts, try_catch,
    bind, Persisting.find, Persisting.countDocuments, ret. cbv zeta.
  destruct (negb (db_up e) || _); [reflexivity|].
  destruct (db_up e); reflexivity.
Qed.

Lemma persisting_keeps_patchContact e r :
  keeps same_contact_store e r Persisting.patchContact.
Proof.
  intros s. unfold Persisting.patchContact, Persisting.updateStatus, try_catch,
    bind, Persisting.findByIdAndUpdate, ret. cbv zeta.
  destruct (negb _); [reflexivity|].
  destruct (castObjectId e _); [|reflexivity].
  destruct (db_up e); [|reflexivity].
  destruct (Persisting.update_first _ _ _) as [[c l]|]; reflexivity.
Qed.

Lemma persisting_keeps_deleteContact e r :
  keeps same_contact_store e r Persisting.deleteContact.
Proof.
  intros s. unfold Persisting.deleteContact, Persisting.removeContact,
    try_catch, bind, Persisting.findByIdAndDelete, ret. cbv zeta.
  destruct (castObjectId e _); [|reflexivity].
  destruct (db_up e); [|reflexivity].
  destruct (Persisting.remove_first _ _) as [[c l]|]; reflexivity.
Qed.


Lemma emailonly_submit_same_store e r s :
  same_contact_store s (fst (EmailOnly.submit e r s)).
Proof.
  unfold same_contact_store, EmailOnly.submit, try_catch, bind, sendMail, ret.
  destruct (smtp e (ownerMail _ _ _ _)); [reflexivity|].
  destruct (smtp e (userMail _ _ _)); reflexivity.
Qed.

Lemma emailonly_keeps_validator e r :
  keeps same_contact_store e r EmailOnly.validateContactInput.
Proof.
  intros s. unfold EmailOnly.validateContactInput.
  repeat match goal with
         | |- context [if ?b then _ else _] => destruct b
         end; reflexivity.
Qed.

Lemma emailonly_keeps_postContact e r :
  keeps same_contact_store e r EmailOnly.postContact.
Proof.
  intros s. unfold EmailOnly.postContact.
  pose proof (emailonly_submit_same_store e r s) as H.
  destruct (EmailOnly.submit e r s). exact H.
Qed.

Lemma emailonly_keeps_health e r :
  keeps same_contact_store e r EmailOnly.health.
Proof. intros s. reflexivity. Qed.

Lemma emailonly_keeps_testEmail e r :
  keeps same_contact_store e r EmailOnly.testEmail.
Proof.
  intros s. unfold EmailOnly.testEmail, EmailOnly.sendTestEmail, try_catch,
    bind, sendMail, ret.
  destruct (smtp e (EmailOnly.testMail e)); reflexivity.
Qed.


Lemma path_matches_contact p :
  path_matches [api; Lit (js "contact")] p = true -> p = [js "api"; js "contact"].
Proof.
  destruct p as [|a [|b [|c p]]]; simpl; try discriminate;
    unfold JS.eqb; intros H;
    apply andb_true_iff in H as [Ha H]; try discriminate;
    apply andb_true_iff in H as [Hb H]; try discriminate.
  apply bool_decide_eq_true in Ha, Hb. congruence.
Qed.

Lemma submission_from_true addr r :
  submission_from addr r = true <-> is_submission r /\ ip r = addr.
Proof.
  unfold submission_from, is_submission.
  rewrite !andb_true_iff, !bool_decide_eq_true.
  destruct (method r); simpl; intuition congruence.
Qed.

(** If the submission route applies although the request is not a
    submission from [addr], the sender is someone else. *)
Lemma other_sender addr r :
  submission_from addr r = false ->
  Method_eqb (method r) POST && path_matches [api; Lit (js "contact")] (path r)
    = true ->
  ip r <> addr.
Proof.
  intros Hno Happ Hip.
  apply andb_true_iff in Happ as [Hm Hp]. apply path_matches_contact in Hp.
  unfold submission_from in Hno. rewrite Hm, Hp, Hip in Hno.
  rewrite !bool_decide_eq_true_2 in Hno by reflexivity. discriminate.
Qed.

Ltac layer_keeps :=
  intros _; repeat constructor; apply keeps_weaken;
  first [ apply keeps_passthrough; reflexivity
        | apply keeps_general_limiter | apply keeps_fallback
        | apply persisting_keeps_health | apply persisting_keeps_getContacts
        | apply persisting_keeps_patchContact | apply persisting_keeps_deleteContact
        | apply emailonly_keeps_health | apply emailonly_keeps_testEmail
        | intros s0; reflexivity ].

(** A request that is not a submission from [addr] leaves the window of
    [addr] as it is. *)
Lemma other_request_same_window v addr e s r :
  submission_from addr r = false ->
  same_window addr s (fst (server v e s r)).
Proof.
  intros Hno.
  assert (Htrans : forall a b c : State,
             same_window addr a b -> same_window addr b c ->
             same_window addr a c)
    by (unfold same_window; intros a b c H1 H2; congruence).
  destruct v; simpl server.
  - unfold EmailOnly.handle. apply dispatch_keeps; [reflexivity|exact Htrans|].
    unfold EmailOnly.app, EmailOnly.test_email_route.
    repeat (apply Forall_cons; split); try layer_keeps.
    + cbn [applies route]. intros Happ.
      pose proof (other_sender addr r Hno Happ) as Hip.
      repeat constructor.
      * apply keeps_contact_limiter_other; auto.
      * apply keeps_weaken, emailonly_keeps_validator.
      * apply keeps_weaken, emailonly_keeps_postContact.
    + apply Forall_nil. exact I.
  - unfold Persisting.handle. apply dispatch_keeps; [reflexivity|exact Htrans|].
    unfold Persisting.app.
    repeat (apply Forall_cons; split); try layer_keeps.
    + cbn [applies route]. intros Happ.
      pose proof (other_sender addr r Hno Happ) as Hip.
      repeat constructor.
      * apply keeps_contact_limiter_other; auto.
      * apply keeps_weaken, persisting_keeps_validator.
      * apply keeps_weaken, persisting_keeps_postContact.
    + apply Forall_nil. exact I.
Qed.

(** ** Counting in the window *)

(** A window ends after the request that opens it, and at most
    [windowMs] later. *)
Lemma window_end_bounds tm window t :
  0 < window ->
  t < window_end tm window t <= t + window /\
  (tm = PerClient -> window_end tm window t = t + window).
Proof.
  intros Hw. destruct tm as [|t0]; simpl.
  - split; [lia | reflexivity].
  - split; [|discriminate].
    pose proof (Z.div_mod (t - t0) window) as Hdm.
    pose proof (Z.mod_pos_bound (t - t0) window Hw) as Hb.
    nia.
Qed.

Lemma counted_in_window_mono addr t_end k k' s :
  (k' <= k)%nat -> counted_in_window addr t_end k s ->
  counted_in_window addr t_end k' s.
Proof. intros Hk (w & Hw & Hh & Hr). exists w. repeat split; auto. lia. Qed.

Lemma counted_in_window_same addr t_end k s s' :
  same_window addr s s' -> counted_in_window addr t_end k s ->
  counted_in_window addr t_end k s'.
Proof.
  unfold same_window. intros E (w & Hw & Hh & Hr). exists w.
  rewrite E. auto.
Qed.

(** What both servers share: in front of the submission endpoint stand
    the general limiter and the submission limiter (ceiling 5, window of
    an hour); the stages behind them, and all other requests, leave the
    submission limiter's store alone. *)
Section Window.
Variable handle : Env -> State -> Request -> State * Response.
Variables general contact : Options.
Variable behind : Env -> Request -> State -> State * Response.

Hypothesis contact_max : RateLimit.max contact = 5.
Hypothesis contact_window : windowMs contact = 60 * 60 * 1000.
Hypothesis submission_stages : forall e s r,
  is_submission r ->
  handle e s r =
    match rateLimit general limiter_timing limiter_store set_limiter_store
            e s r with
    | Respond s1 resp => (s1, resp)
    | Next s1 =>
        match rateLimit contact limiter_timing contactLimiter_store
                set_contactLimiter_store e s1 r with
        | Respond s2 resp => (s2, resp)
        | Next s2 => behind e r s2
        end
    end.
Hypothesis behind_same : forall e r s,
  same_contact_store s (fst (behind e r s)).
Hypothesis other_same : forall addr e s r,
  submission_from addr r = false -> same_window addr s (fst (handle e s r)).

(** One more submission of [addr] inside the window is counted, unless
    the general limiter turns it away, and then the answer is 429. *)
Lemma submission_is_counted addr t_end k e s r :
  is_submission r -> ip r = addr -> now r < t_end ->
  counted_in_window addr t_end k s ->
  counted_in_window addr t_end
    (k + if statusCode (snd (handle e s r)) =? 429 then 0 else 1)
    (fst (handle e s r)).
Proof.
  intros Hr Hip Ht (w & Hw & Hh & Hreset).
  rewrite submission_stages by assumption.
  destruct (admits general (limiter_store s) (ip r) (now r)) eqn:Hg.
  - rewrite rateLimit_admits by exact Hg.
    unfold rateLimit. cbv zeta.
    set (s1 := set_limiter_store _ s).
    assert (Hinc : increment contact (limiter_timing e)
                     (contactLimiter_store s1) (ip r) (now r) =
                   {| hits := hits w + 1; resetTime := resetTime w |}).
    { unfold increment. subst s1. cbn [contactLimiter_store set_limiter_store].
      rewrite Hip, Hw.
      assert ((now r <? resetTime w) = true) as -> by (apply Z.ltb_lt; lia).
      reflexivity. }
    rewrite Hinc. cbn [hits].
    set (s2 := set_contactLimiter_store _ s1).
    assert (H2 : counted_in_window addr t_end (k + 1) s2).
    { exists {| hits := hits w + 1; resetTime := resetTime w |}.
      subst s2. cbn [contactLimiter_store set_contactLimiter_store].
      unfold record. rewrite Hinc, Hip, lookup_insert_eq.
      repeat split; auto. simpl. lia. }
    destruct (_ <? _).
    + simpl. eapply counted_in_window_mono; [|exact H2]. lia.
    + eapply counted_in_window_mono;
        [|eapply counted_in_window_same; [|exact H2]].
      * destruct (_ =? 429); lia.
      * pose proof (behind_same e r s2) as Hs.
        unfold same_window. rewrite Hs. reflexivity.
  - rewrite rateLimit_rejects by exact Hg. simpl.
    rewrite Nat.add_0_r. exists w. auto.
Qed.

(** Serving a trace inside the window counts every submission of [addr]
    that is let through. *)
Lemma trace_is_counted addr t_end trace : forall k s,
  Forall (fun q : Env * Request => now (snd q) < t_end) trace ->
  counted_in_window addr t_end k s ->
  counted_in_window addr t_end
    (k + let_through addr trace (snd (serve handle s trace)))
    (fst (serve handle s trace)).
Proof.
  induction trace as [|[e q] trace IH]; intros k s Ht Hk.
  - simpl. unfold let_through. simpl. rewrite Nat.add_0_r. exact Hk.
  - inversion Ht as [|? ? Hq Ht']; subst. simpl in Hq.
    cbn [serve].
    destruct (handle e s q) as [s1 a] eqn:E1.
    destruct (serve handle s1 trace) as [s2 answers] eqn:E2.
    unfold let_through. cbn [combine List.filter fst snd].
    set (b := submission_from addr q && negb (statusCode a =? 429)).
    assert (H1 : counted_in_window addr t_end (k + if b then 1 else 0) s1).
    { subst b. destruct (submission_from addr q) eqn:Hsub.
      - apply submission_from_true in Hsub as [Hr Hip].
        pose proof (submission_is_counted addr t_end k e s q Hr Hip Hq Hk) as H.
        rewrite E1 in H. simpl in H. simpl.
        destruct (statusCode a =? 429); exact H.
      - simpl. rewrite Nat.add_0_r.
        eapply counted_in_window_same; [|exact Hk].
        pose proof (other_same addr e s q Hsub) as H.
        rewrite E1 in H. exact H. }
    specialize (IH _ s1 Ht' H1).
    rewrite E2 in IH. simpl in IH.
    eapply counted_in_window_mono; [|exact IH].
    unfold let_through. destruct b; simpl; lia.
Qed.

(** The first submission of an address, when it is let through and finds
    no open window, opens one that ends an hour later. *)
Lemma first_submission_opens_window e s r :
  is_submission r -> no_open_window s (ip r) (now r) ->
  statusCode (snd (handle e s r)) <> 429 ->
  counted_in_window (ip r)
    (window_end (limiter_timing e) (60 * 60 * 1000) (now r)) 1
    (fst (handle e s r)).
Proof.
  intros Hr Hclosed. rewrite submission_stages by assumption.
  destruct (admits general (limiter_store s) (ip r) (now r)) eqn:Hg.
  - rewrite rateLimit_admits by exact Hg. intros _.
    unfold rateLimit. cbv zeta.
    set (s1 := set_limiter_store _ s).
    assert (Hinc : increment contact (limiter_timing e)
                     (contactLimiter_store s1) (ip r) (now r) =
                   {| hits := 1;
                      resetTime := window_end (limiter_timing e)
                                     (60 * 60 * 1000) (now r) |}).
    { unfold increment, no_open_window in *. subst s1.
      cbn [contactLimiter_store set_limiter_store]. rewrite contact_window.
      destruct (contactLimiter_store s !! ip r) as [w|]; [|reflexivity].
      assert ((now r <? resetTime w) = false) as -> by (apply Z.ltb_ge; lia).
      reflexivity. }
    rewrite Hinc. cbn [hits].
    set (s2 := set_contactLimiter_store _ s1).
    assert (H2 : counted_in_window (ip r)
                   (window_end (limiter_timing e) (60 * 60 * 1000) (now r))
                   1 s2).
    { exists {| hits := 1;
                resetTime := window_end (limiter_timing e)
                               (60 * 60 * 1000) (now r) |}.
      subst s2. cbn [contactLimiter_store set_contactLimiter_store].
      unfold record. rewrite Hinc, lookup_insert_eq.
      repeat split; auto. simpl. lia. }
    rewrite contact_max. change (5 <? 1) with false.
    eapply counted_in_window_same; [|exact H2].
    pose proof (behind_same e r s2) as Hs.
    unfold same_window. rewrite Hs. reflexivity.
  - rewrite rateLimit_rejects by exact Hg. simpl. congruence.
Qed.

(** With five submissions counted in the open window, the next one is
    turned away before the validator sees it. *)
Lemma full_window_rejects addr t_end e s r :
  is_submission r -> ip r = addr -> now r < t_end ->
  counted_in_window addr t_end 5 s ->
  statusCode (snd (handle e s r)) = 429 /\
  contacts (fst (handle e s r)) = contacts s /\
  events (fst (handle e s r)) = events s.
Proof.
  intros Hr Hip Ht (w & Hw & Hh & Hreset).
  rewrite submission_stages by assumption.
  destruct (admits general (limiter_store s) (ip r) (now r)) eqn:Hg.
  - rewrite rateLimit_admits by exact Hg.
    unfold rateLimit. cbv zeta.
    set (s1 := set_limiter_store _ s).
    assert (Hinc : increment contact (limiter_timing e)
                     (contactLimiter_store s1) (ip r) (now r) =
                   {| hits := hits w + 1; resetTime := resetTime w |}).
    { unfold increment. subst s1. cbn [contactLimiter_store set_limiter_store].
      rewrite Hip, Hw.
      assert ((now r <? resetTime w) = true) as -> by (apply Z.ltb_lt; lia).
      reflexivity. }
    rewrite Hinc. cbn [hits]. rewrite contact_max.
    assert ((5 <? hits w + 1) = true) as -> by (apply Z.ltb_lt; lia).
    auto.
  - rewrite rateLimit_rejects by exact Hg. auto.
Qed.

(** Five let through, the first of them opening the window: the next
    submission of the address inside the window is turned away. *)
Lemma sixth_is_rejected s e1 r1 rest e r :
  let t_end := window_end (limiter_timing e1) (60 * 60 * 1000) (now r1) in
  is_submission r1 -> no_open_window s (ip r1) (now r1) ->
  statusCode (snd (handle e1 s r1)) <> 429 ->
  Forall (fun q : Env * Request => now (snd q) < t_end) rest ->
  (5 <= let_through (ip r1) ((e1, r1) :: rest)
          (snd (serve handle s ((e1, r1) :: rest))))%nat ->
  is_submission r -> ip r = ip r1 -> now r < t_end ->
  let s' := fst (serve handle s ((e1, r1) :: rest)) in
  statusCode (snd (handle e s' r)) = 429 /\
  contacts (fst (handle e s' r)) = contacts s' /\
  events (fst (handle e s' r)) = events s'.
Proof.
  intros t_end Hr1 Hclosed Hfirst Hrest Hfive Hr Hip Ht s'.
  apply (full_window_rejects (ip r1) t_end); auto.
  pose proof (first_submission_opens_window e1 s r1 Hr1 Hclosed Hfirst) as H1.
  subst s'. cbn [serve] in *.
  destruct (handle e1 s r1) as [s1 a1] eqn:E1.
  pose proof (trace_is_counted (ip r1) _ rest 1 s1 Hrest H1) as H.
  destruct (serve handle s1 rest) as [s2 answers] eqn:E2.
  simpl in H |- *.
  eapply counted_in_window_mono; [|exact H].
  unfold let_through in Hfive |- *. cbn [combine List.filter fst snd] in Hfive.
  destruct (submission_from (ip r1) r1 && negb (statusCode a1 =? 429));
    simpl in Hfive; lia.
Qed.

End Window.

(** The stages behind the two limiters, for each server. *)
Lemma stages_behind_same_store v e r s :
  same_contact_store s
    (fst match validator v e s r with
         | Respond s3 resp => (s3, resp)
         | Next s3 =>
             match v with
             | first => EmailOnly.submit e r s3
             | second => Persisting.submit e r s3
             end
         end).
Proof.
  destruct v; simpl validator.
  - pose proof (emailonly_keeps_validator e r s) as Hv.
    destruct (EmailOnly.validateContactInput e s r) as [s3|s3 resp];
      [|exact Hv].
    unfold same_contact_store in *. rewrite <- Hv. apply emailonly_submit_same_store.
  - pose proof (persisting_keeps_validator e r s) as Hv.
    destruct (Persisting.validateContactInput e s r) as [s3|s3 resp];
      [|exact Hv].
    unfold same_contact_store in *. rewrite <- Hv. apply persisting_submit_same_store.
Qed.

End LimiterFacts.

(** C4, as the claim states it, fails: the submission limiter counts in
    fixed windows, and it counts only the submissions that reach it.
    (1) With windows timed per client, a submission at minute 0 opens a
    window that ends at minute 60; the submissions at minutes 56, 57, 58
    and 59 are the second to fifth of that window, and those at minutes
    60 and 61 fall into the next one.  All seven are answered 201,
    although the last six lie within five minutes.  (2) After 100
    requests to the health route the general limiter, which stands in
    front, turns five submissions away with 429 before the submission
    limiter counts them; once the general limiter's window of 15 minutes
    is over, the sixth submission of the hour is answered 201. *)
Lemma sixth_submission_within_the_hour_is_accepted :
  let minute := 60 * 1000 in
  let sub t := (Sample.world, Sample.submission t Sample.ann) in
  map statusCode
    (snd (serve (server second) Sample.fresh
            [sub 0; sub (56 * minute); sub (57 * minute); sub (58 * minute);
             sub (59 * minute); sub (60 * minute); sub (61 * minute)]))
    = [201; 201; 201; 201; 201; 201; 201] /\
  skipn 100
    (map statusCode
       (snd (serve (server second) Sample.fresh
               (List.repeat (Sample.world, Sample.health_request 0) 100 ++
                [sub 1; sub 2; sub 3; sub 4; sub 5; sub (15 * minute + 1)]))))
    = [429; 429; 429; 429; 429; 201].
Proof. vm_compute. split; reflexivity. Qed.

(** C4, amended.  For every client address, on either server: once five
    submissions from the address have been let through inside the
    limiter's window that its first submission opened, a further
    submission from that address within the window is answered 429
    whatever its payload is.  The window is one of 60 minutes: it ends at
    most 60 minutes after the submission that opened it, and exactly 60
    minutes after it when the store times the windows per client.  The
    submission limiter (ceiling 5 per 60 minutes) stands in front of the
    input validator, so nothing is validated, stored or sent for the
    rejected submission.  Requests of other clients and to other routes
    may come in between. *)
Theorem sixth_submission_is_rejected (v : Variant) s e1 r1 rest e r :
  let addr := ip r1 in
  let t_end := window_end (limiter_timing e1) (60 * 60 * 1000) (now r1) in
  let served := serve (server v) s ((e1, r1) :: rest) in
  is_submission r1 -> no_open_window s addr (now r1) ->
  statusCode (snd (server v e1 s r1)) <> 429 ->
  Forall (fun q : Env * Request => now (snd q) < t_end) rest ->
  (5 <= let_through addr ((e1, r1) :: rest) (snd served))%nat ->
  is_submission r -> ip r = addr -> now r < t_end ->
  statusCode (snd (server v e (fst served) r)) = 429 /\
  contacts (fst (server v e (fst served) r)) = contacts (fst served) /\
  events (fst (server v e (fst served) r)) = events (fst served) /\
  now r1 < t_end <= now r1 + 60 * 60 * 1000 /\
  (limiter_timing e1 = PerClient -> t_end = now r1 + 60 * 60 * 1000).
Proof.
  intros addr t_end served Hr1 Hclosed Hfirst Hrest Hfive Hr Hip Ht.
  pose proof (LimiterFacts.window_end_bounds (limiter_timing e1)
                (60 * 60 * 1000) (now r1) eq_refl) as [Hbounds Hexact].
  assert (Hmain :
            statusCode (snd (server v e (fst served) r)) = 429 /\
            contacts (fst (server v e (fst served) r)) = contacts (fst served) /\
            events (fst (server v e (fst served) r)) = events (fst served)).
  { revert Hr1 Hclosed Hfirst Hrest Hfive Hr Hip Ht. subst addr t_end served.
    apply (LimiterFacts.sixth_is_rejected (server v) (general_options v)
             (contact_options v)
             (fun e r s =>
                match validator v e s r with
                | Respond s3 resp => (s3, resp)
                | Next s3 =>
                    match v with
                    | first => EmailOnly.submit e r s3
                    | second => Persisting.submit e r s3
                    end
                end)).
    - destruct v; reflexivity.
    - destruct v; reflexivity.
    - intros e0 s0 r0 Hr0. destruct v; simpl server.
      + apply StackFacts.emailonly_submission. exact Hr0.
      + apply StackFacts.persisting_submission. exact Hr0.
    - intros e0 r0 s0. apply LimiterFacts.stages_behind_same_store.
    - intros addr e0 s0 r0. apply LimiterFacts.other_request_same_window. }
  destruct Hmain as (H1 & H2 & H3). auto.
Qed.

Lemma sixth_submission_is_rejected_witness :
  let w := Sample.world in
  let r1 := Sample.submission 0 Sample.ann in
  let sub t := (w, Sample.submission t Sample.ann) in
  let t_end := window_end (limiter_timing w) (60 * 60 * 1000) (now r1) in
  let served :=
    serve (server second) Sample.fresh ((w, r1) :: [sub 1; sub 2; sub 3; sub 4]) in
  let r := Sample.submission 5 (Sample.form None None None) in
  statusCode (snd (server second w (fst served) r)) = 429 /\
  contacts (fst (server second w (fst served) r)) = contacts (fst served) /\
  events (fst (server second w (fst served) r)) = events (fst served) /\
  now r1 < t_end <= now r1 + 60 * 60 * 1000 /\
  (limiter_timing w = PerClient -> t_end = now r1 + 60 * 60 * 1000).
Proof.
  apply (sixth_submission_is_rejected second Sample.fresh Sample.world
           (Sample.submission 0 Sample.ann)
           [(Sample.world, Sample.submission 1 Sample.ann);
            (Sample.world, Sample.submission 2 Sample.ann);
            (Sample.world, Sample.submission 3 Sample.ann);
            (Sample.world, Sample.submission 4 Sample.ann)]
           Sample.world
           (Sample.submission 5 (Sample.form None None None))).
  - split; reflexivity.
  - vm_compute. exact I.
  - vm_compute. congruence.
  - repeat constructor.
  - vm_compute. lia.
  - split; reflexivity.
  - reflexivity.
  - reflexivity.
Defined.

(* ===================================================================== *)
(** * The admin routes *)
(* ===================================================================== *)

Module AdminFacts.
Import Http Express RateLimit World Common Spec StackFacts.

(** ** Sorting *)

Lemma insert_desc_perm c l : Permutation (Persisting.insert_desc c l) (c :: l).
Proof.
  induction l as [|d l IH]; simpl; [reflexivity|].
  destruct (createdAt d <=? createdAt c); [reflexivity|].
  rewrite IH. apply perm_swap.
Qed.

Lemma sort_desc_perm l : Permutation (Persisting.sort_desc l) l.
Proof.
  induction l as [|c l IH]; simpl; [reflexivity|].
  rewrite insert_desc_perm. constructor. exact IH.
Qed.

Lemma insert_desc_sorted c l :
  descending l -> descending (Persisting.insert_desc c l).
Proof.
  unfold descending. induction 1 as [|d l Hl IH Hd]; simpl.
  - repeat constructor.
  - destruct (createdAt d <=? createdAt c) eqn:E.
    + apply Z.leb_le in E. constructor.
      * constructor; assumption.
      * constructor; [exact E|].
        eapply List.Forall_impl; [|exact Hd]. simpl. intros x Hx. lia.
    + apply Z.leb_gt in E. constructor; [exact IH|].
      eapply Permutation_Forall.
      * symmetry. apply insert_desc_perm.
      * constructor; [lia | exact Hd].
Qed.

Lemma sort_desc_sorted l : descending (Persisting.sort_desc l).
Proof.
  induction l as [|c l IH]; simpl.
  - constructor.
  - apply insert_desc_sorted. exact IH.
Qed.

(** ** The projection *)

Lemma select_public c :
  JObj (Persisting.select_without [js "ipAddress"; js "userAgent"]
          (Persisting.toObject c)) = public_view c.
Proof. reflexivity. Qed.

Lemma public_view_hides c :
  field (js "ipAddress") (public_view c) = None /\
  field (js "userAgent") (public_view c) = None.
Proof. split; reflexivity. Qed.

(** ** The page count *)

Lemma pages_of_ceiling total size :
  (1 <= size)%N ->
  exists pages,
    Persisting.pages_of total size = JNum pages /\
    (pages - 1) * Z.of_N size < total <= pages * Z.of_N size.
Proof.
  intros Hsize. unfold Persisting.pages_of.
  destruct (N.eqb_spec size 0); [lia|].
  eexists. split; [reflexivity|].
  pose proof (Z.div_mod (- total) (Z.of_N size)) as Hdm.
  pose proof (Z.mod_pos_bound (- total) (Z.of_N size)) as Hb.
  nia.
Qed.

(** ** Dispatch *)

Lemma list_route e s r :
  method r = GET -> path r = [js "api"; js "contacts"] ->
  admits Persisting.limiter_options (limiter_store s) (ip r) (now r) = true ->
  Persisting.handle e s r =
    Persisting.listContacts e r (counted_api Persisting.limiter_options e s r).
Proof.
  intros Hm Hp Hg. unfold Persisting.handle, Persisting.app.
  walk_stack Hm Hp.
  unfold Persisting.limiter. rewrite rateLimit_admits by exact Hg.
  fold (counted_api Persisting.limiter_options e s r).
  unfold Persisting.getContacts.
  destruct (Persisting.listContacts e r _); reflexivity.
Qed.

Lemma patch_route e s r id :
  method r = PATCH -> path r = [js "api"; js "contacts"; id] ->
  admits Persisting.limiter_options (limiter_store s) (ip r) (now r) = true ->
  Persisting.handle e s r =
    Persisting.updateStatus e r (counted_api Persisting.limiter_options e s r).
Proof.
  intros Hm Hp Hg. unfold Persisting.handle, Persisting.app.
  cbn [dispatch applies handlers use use_at route run_handlers
       helmet morgan cors express_json express_urlencoded passthrough api
       Persisting.contacts_id].
  rewrite Hm, Hp. eval_tests. cbn [andb].
  unfold Persisting.limiter. rewrite rateLimit_admits by exact Hg.
  fold (counted_api Persisting.limiter_options e s r).
  unfold Persisting.patchContact.
  destruct (Persisting.updateStatus e r _); reflexivity.
Qed.

(** ** The list *)

Lemma list_query_selects (st : option jsstring) (l : list Contact) :
  List.filter
    (if negb (JS.eqb (default (js "all") st) (js "all"))
     then fun c : Contact => JS.eqb (status c) (default (js "all") st)
     else fun _ => true) l = selected st l.
Proof.
  unfold selected. destruct st as [v|]; simpl.
  - destruct (JS.eqb v (js "all")); simpl; [apply filter_true | reflexivity].
  - apply filter_true.
Qed.

Lemma skip_of_page page size :
  (1 <= page)%N ->
  Z.to_nat ((Z.of_N page - 1) * Z.of_N size) =
  ((N.to_nat page - 1) * N.to_nat size)%nat.
Proof.
  intros Hp. rewrite Z2Nat.inj_mul by lia.
  f_equal; lia.
Qed.

(** The answer of the list for a page and a page size of at least 1,
    while the database answers. *)
Lemma listContacts_answer e r s :
  db_up e = true ->
  (1 <= default 1 (q_page (query r)))%N ->
  (1 <= default 10 (q_limit (query r)))%N ->
  let page := default 1%N (q_page (query r)) in
  let size := default 10%N (q_limit (query r)) in
  let matching := selected (q_status (query r)) (contacts s) in
  Persisting.listContacts e r s =
    (s,
     res_json 200
       (JObj [(js "success", JBool true);
              (js "data",
               JArr (map public_view
                       (page_slice (N.to_nat page) (N.to_nat size)
                          (Persisting.sort_desc matching))));
              (js "pagination",
               JObj [(js "page", JNum (Z.of_N page));
                     (js "limit", JNum (Z.of_N size));
                     (js "total", JNum (Z.of_nat (List.length matching)));
                     (js "pages",
                      Persisting.pages_of (Z.of_nat (List.length matching))
                        size)])])).
Proof.
  intros Hdb Hp Hs page size matching.
  unfold Persisting.listContacts, try_catch, bind, Persisting.find,
    Persisting.countDocuments, ret.
  fold page size. rewrite Hdb.
  assert (((Z.of_N page - 1) * Z.of_N size <? 0) = false) as ->
    by (apply Z.ltb_ge; subst page size; nia).
  cbn [negb orb]. rewrite list_query_selects. fold matching.
  unfold Persisting.limit_docs, page_slice.
  destruct (N.eqb_spec size 0); [subst size; lia|].
  rewrite skip_of_page by exact Hp.
  rewrite (map_ext _ public_view) by (intros c; apply select_public).
  reflexivity.
Qed.

(** ** The status update *)

Lemma includes_In arr v : JS.includes arr v = true <-> In v arr.
Proof.
  unfold JS.includes, JS.eqb. rewrite existsb_exists. split.
  - intros (x & Hx & E). apply bool_decide_eq_true in E. congruence.
  - intros H. exists v. split; [exact H | apply bool_decide_eq_true; reflexivity].
Qed.

Lemma update_first_absent oid f l :
  (forall c, In c l -> _id c <> oid) -> Persisting.update_first oid f l = None.
Proof.
  induction l as [|c l IH]; intros H; simpl; [reflexivity|].
  destruct (N.eqb_spec (_id c) oid) as [E|_].
  - destruct (H c (or_introl eq_refl) E).
  - rewrite IH; [reflexivity|]. intros c' Hc'. apply H. right. exact Hc'.
Qed.

Lemma update_first_found oid f before c after :
  _id c = oid -> (forall c', In c' before -> _id c' <> oid) ->
  Persisting.update_first oid f (before ++ c :: after) =
    Some (f c, before ++ f c :: after).
Proof.
  intros Hc. induction before as [|b before IH]; intros H; simpl.
  - rewrite Hc, N.eqb_refl. reflexivity.
  - destruct (N.eqb_spec (_id b) oid) as [E|_].
    + destruct (H b (or_introl eq_refl) E).
    + rewrite IH; [reflexivity|]. intros c' Hc'. apply H. right. exact Hc'.
Qed.


(** With a status of the set, the answer is that of the lookup. *)
Lemma updateStatus_valid e r s st :
  b_status (body r) = Some st -> In st Persisting.statuses ->
  Persisting.updateStatus e r s =
    match Persisting.findByIdAndUpdate e (Persisting.params_id r) st s with
    | (s', Ok (Some c)) =>
        (s', res_json 200
               (JObj [(js "success", JBool true);
                      (js "data", JObj (Persisting.toObject c))]))
    | (s', Ok None) => (s', res_json 404 (envelope false "Contact not found"))
    | (s', Throw _) => (s', res_json 500 (envelope false "Internal server error"))
    end.
Proof.
  intros Hst Hin. unfold Persisting.updateStatus, try_catch, bind, ret.
  rewrite Hst. apply includes_In in Hin. rewrite Hin. cbn [negb JS.ToString].
  destruct (Persisting.findByIdAndUpdate e (Persisting.params_id r) st s)
    as [s' [[c|]|err]]; reflexivity.
Qed.

End AdminFacts.

(** C8.  The admin list returns the records that match the status filter
    ordered by [createdAt], most recent first, each without [ipAddress]
    and [userAgent]; pages are counted from 1, page and page size default
    to 1 and 10, and [pages] is the ceiling of total / page size.  In
    particular, over 25 records, page 2 of size 10 holds the records
    11-20 of that order, and [pages] is 3.  The order is some descending
    order of the matching records: which of two records with the same
    [createdAt] comes first is left to the database.  (The request has
    passed the general limiter, the database answers, page and page size
    are at least 1, and the numbers involved are at most 2^53, the range
    in which the source's arithmetic on them is exact.) *)
Theorem admin_list_is_ordered_and_paged e s r :
  method r = GET -> path r = [js "api"; js "contacts"] ->
  admits Persisting.limiter_options (limiter_store s) (ip r) (now r) = true ->
  db_up e = true ->
  let page := default 1%N (q_page (query r)) in
  let size := default 10%N (q_limit (query r)) in
  (1 <= page)%N -> (1 <= size)%N ->
  let matching := selected (q_status (query r)) (contacts s) in
  let total := Z.of_nat (List.length matching) in
  More.exact_numbers page size total ->
  exists ordered pages,
    Permutation ordered matching /\ descending ordered /\
    (let shown := page_slice (N.to_nat page) (N.to_nat size) ordered in
     snd (server second e s r) =
       res_json 200
         (JObj [(js "success", JBool true);
                (js "data", JArr (map public_view shown));
                (js "pagination",
                 JObj [(js "page", JNum (Z.of_N page));
                       (js "limit", JNum (Z.of_N size));
                       (js "total", JNum total);
                       (js "pages", JNum pages)])]) /\
     Forall (fun doc => field (js "ipAddress") doc = None /\
                        field (js "userAgent") doc = None)
            (map public_view shown) /\
     (total = 25 -> page = 2%N -> size = 10%N ->
      pages = 3 /\ List.length shown = 10%nat /\
      forall i, (i < 10)%nat -> shown !! i = ordered !! (10 + i)%nat)) /\
    (pages - 1) * Z.of_N size < total <= pages * Z.of_N size /\
    contacts (fst (server second e s r)) = contacts s.
Proof.
  intros Hm Hp Hg Hdb page size Hpage Hsize matching total _.
  destruct (AdminFacts.pages_of_ceiling total size Hsize) as (pages & Hpages & Hceil).
  exists (Persisting.sort_desc matching), pages. simpl server.
  rewrite AdminFacts.list_route by assumption.
  rewrite AdminFacts.listContacts_answer by assumption.
  cbn [fst snd].
  fold page size. cbn [counted_api contacts set_limiter_store].
  fold matching. fold total. rewrite Hpages.
  split; [apply AdminFacts.sort_desc_perm|].
  split; [apply AdminFacts.sort_desc_sorted|].
  split; [|split; [exact Hceil | reflexivity]].
  cbv zeta.
  split; [reflexivity|].
  split; [apply Forall_map, Forall_forall; intros c _;
          apply AdminFacts.public_view_hides|].
  intros Htotal Hpage2 Hsize10.
  assert (Hlen : List.length (Persisting.sort_desc matching) = 25%nat).
  { rewrite (Permutation_length (AdminFacts.sort_desc_perm _)).
    subst total. lia. }
  rewrite Hpage2, Hsize10 in *. unfold page_slice.
  change ((N.to_nat 2 - 1) * N.to_nat 10)%nat with 10%nat.
  change (N.to_nat 10) with 10%nat.
  split; [lia|]. split.
  - rewrite length_take, length_drop. lia.
  - intros i Hi. rewrite lookup_take_lt by exact Hi. apply lookup_drop.
Qed.

Lemma admin_list_is_ordered_and_paged_witness :
  let r := Sample.list_request 0
             {| q_page := Some 2%N; q_limit := Some 10%N; q_status := None |} in
  exists ordered shown,
    Permutation ordered (contacts Sample.archive) /\ descending ordered /\
    shown = page_slice 2 10 ordered /\
    payload (snd (server second Sample.world Sample.archive r)) =
      Json (JObj [(js "success", JBool true);
                  (js "data", JArr (map public_view shown));
                  (js "pagination",
                   JObj [(js "page", JNum 2); (js "limit", JNum 10);
                         (js "total", JNum 25); (js "pages", JNum 3)])]) /\
    forall i, (i < 10)%nat -> shown !! i = ordered !! (10 + i)%nat.
Proof.
  intros r.
  destruct (admin_list_is_ordered_and_paged Sample.world Sample.archive r
              eq_refl eq_refl eq_refl eq_refl)
    as (ordered & pages & Hperm & Hdesc & (Hresp & _ & Hpart) & _ & _).
  - vm_compute. congruence.
  - vm_compute. congruence.
  - vm_compute. repeat split; congruence.
  - destruct (Hpart eq_refl eq_refl eq_refl) as (-> & _ & Hshown).
    exists ordered, (page_slice 2 10 ordered).
    split; [exact Hperm|]. split; [exact Hdesc|]. split; [reflexivity|].
    split; [rewrite Hresp; reflexivity | exact Hshown].
Defined.




(** C10.  In the e-mail only server the catch-all 404 handler is
    registered in front of the test-email route and answers every request
    that reaches it, so the body of the test-email handler is
    unreachable: for every request whatsoever the stack behaves as the
    stack without the route.  A request to [/api/test-email] (that the
    general limiter lets through) receives 404
    [{success: false, message: "Route not found"}], and no mail is
    sent. *)
Theorem test_email_route_is_unreachable e s r :
  path r = [js "api"; js "test-email"] ->
  admits EmailOnly.limiter_options (limiter_store s) (ip r) (now r) = true ->
  (forall e' s' r',
     server first e' s' r' = dispatch (removelast EmailOnly.app) e' s' r') /\
  snd (server first e s r) =
    res_json 404 (envelope false "Route not found") /\
  events (fst (server first e s r)) = events s /\
  contacts (fst (server first e s r)) = contacts s.
Proof.
  intros Hp Hg. split.
  - intros e' s' r'. simpl server. unfold EmailOnly.handle.
    change EmailOnly.app with
      (firstn 8 EmailOnly.app ++
       use fallback404 :: [EmailOnly.test_email_route]).
    change (removelast _) with (firstn 8 EmailOnly.app ++ [use fallback404]).
    apply StackFacts.dispatch_hidden.
    intros e0 s0 r0. eexists _, _. reflexivity.
  - simpl server. unfold EmailOnly.handle, EmailOnly.app.
    cbn [dispatch applies handlers use use_at route run_handlers
         helmet morgan cors express_json express_urlencoded passthrough api].
    rewrite Hp. StackFacts.eval_tests. rewrite !andb_false_r.
    unfold EmailOnly.limiter. rewrite StackFacts.rateLimit_admits by exact Hg.
    repeat split; reflexivity.
Qed.

Lemma test_email_route_is_unreachable_witness :
  let r := Sample.test_email_request 0 in
  (forall e' s' r',
     server first e' s' r' = dispatch (removelast EmailOnly.app) e' s' r') /\
  snd (server first Sample.world Sample.fresh r) =
    res_json 404 (envelope false "Route not found") /\
  events (fst (server first Sample.world Sample.fresh r)) =
    events Sample.fresh /\
  contacts (fst (server first Sample.world Sample.fresh r)) =
    contacts Sample.fresh.
Proof.
  apply (test_email_route_is_unreachable Sample.world Sample.fresh).
  - reflexivity.
  - vm_compute. reflexivity.
Defined.

(* ===================================================================== *)
(** * More on the admin routes: delete, repeated updates, the list *)
(* ===================================================================== *)

Module AdminMore.
Import Http Express RateLimit World Common Spec More StackFacts.

Lemma delete_route e s r id :
  method r = DELETE -> path r = [js "api"; js "contacts"; id] ->
  admits Persisting.limiter_options (limiter_store s) (ip r) (now r) = true ->
  Persisting.handle e s r =
    Persisting.removeContact e r (counted_api Persisting.limiter_options e s r).
Proof.
  intros Hm Hp Hg. unfold Persisting.handle, Persisting.app.
  cbn [dispatch applies handlers use use_at route run_handlers
       helmet morgan cors express_json express_urlencoded passthrough api
       Persisting.contacts_id].
  rewrite Hm, Hp. eval_tests. cbn [andb].
  unfold Persisting.limiter. rewrite rateLimit_admits by exact Hg.
  fold (counted_api Persisting.limiter_options e s r).
  unfold Persisting.deleteContact.
  destruct (Persisting.removeContact e r _); reflexivity.
Qed.

Lemma remove_first_absent oid l :
  (forall c, In c l -> _id c <> oid) -> Persisting.remove_first oid l = None.
Proof.
  induction l as [|c l IH]; intros H; simpl; [reflexivity|].
  destruct (N.eqb_spec (_id c) oid) as [E|_].
  - destruct (H c (or_introl eq_refl) E).
  - rewrite IH; [reflexivity|]. intros c' Hc'. apply H. right. exact Hc'.
Qed.

Lemma remove_first_found oid before c after :
  _id c = oid -> (forall c', In c' before -> _id c' <> oid) ->
  Persisting.remove_first oid (before ++ c :: after) = Some (c, before ++ after).
Proof.
  intros Hc. induction before as [|b before IH]; intros H; simpl.
  - rewrite Hc, N.eqb_refl. reflexivity.
  - destruct (N.eqb_spec (_id b) oid) as [E|_].
    + destruct (H b (or_introl eq_refl) E).
    + rewrite IH; [reflexivity|]. intros c' Hc'. apply H. right. exact Hc'.
Qed.

(** Either no document has the id, or the collection splits around the
    first one that has it. *)
Lemma find_by_id oid (l : list Contact) :
  (forall c, In c l -> _id c <> oid) \/
  exists before c after,
    l = before ++ c :: after /\ _id c = oid /\
    forall c', In c' before -> _id c' <> oid.
Proof.
  induction l as [|c l IH].
  - left. intros c [].
  - destruct (N.eq_dec (_id c) oid) as [E|E].
    + right. exists [], c, l. repeat split; auto; intros c' [].
    + destruct IH as [IH|(before & c0 & after & -> & Hc0 & Hb)].
      * left. intros c' [<-|Hc']; auto.
      * right. exists (c :: before), c0, after.
        repeat split; auto; intros c' [<-|Hc']; auto.
Qed.

(** The answer of the delete handler, by cases. *)
Lemma removeContact_answer e r s :
  Persisting.removeContact e r s =
    match castObjectId e (Persisting.params_id r) with
    | None => (s, res_json 500 (envelope false "Internal server error"))
    | Some oid =>
        if db_up e then
          match Persisting.remove_first oid (contacts s) with
          | Some (_, l') =>
              (set_contacts l' s,
               res_json 200 (envelope true "Contact deleted successfully"))
          | None => (s, res_json 404 (envelope false "Contact not found"))
          end
        else (s, res_json 500 (envelope false "Internal server error"))
    end.
Proof.
  unfold Persisting.removeContact, try_catch, bind,
    Persisting.findByIdAndDelete, ret.
  destruct (castObjectId e _); [|reflexivity].
  destruct (db_up e); [|reflexivity].
  destruct (Persisting.remove_first _ _) as [[c l]|]; reflexivity.
Qed.

(** The answer of the update handler, by cases. *)
Lemma updateStatus_answer e r s st :
  b_status (body r) = Some st -> In st Persisting.statuses ->
  Persisting.updateStatus e r s =
    match castObjectId e (Persisting.params_id r) with
    | None => (s, res_json 500 (envelope false "Internal server error"))
    | Some oid =>
        if db_up e then
          match Persisting.update_first oid (Persisting.set_status st)
                  (contacts s) with
          | Some (c, l') =>
              (set_contacts l' s,
               res_json 200
                 (JObj [(js "success", JBool true);
                        (js "data", JObj (Persisting.toObject c))]))
          | None => (s, res_json 404 (envelope false "Contact not found"))
          end
        else (s, res_json 500 (envelope false "Internal server error"))
    end.
Proof.
  intros Hst Hin. rewrite (AdminFacts.updateStatus_valid e r s st) by assumption.
  unfold Persisting.findByIdAndUpdate.
  destruct (castObjectId e _); [|reflexivity].
  destruct (db_up e); [|reflexivity].
  destruct (Persisting.update_first _ _ _) as [[c l]|]; reflexivity.
Qed.

Lemma NoDup_ids_split oid before (c : Contact) after :
  List.NoDup (map _id (before ++ c :: after)) -> _id c = oid ->
  forall c', In c' (before ++ after) -> _id c' <> oid.
Proof.
  intros Hnd Hc c' Hin E.
  rewrite map_app in Hnd. simpl in Hnd.
  apply NoDup_remove_2 in Hnd. apply Hnd.
  rewrite <- map_app. rewrite Hc, <- E. apply in_map. exact Hin.
Qed.

End AdminMore.



(** X3.  The last status update wins.  Two successive
    [PATCH /api/contacts/:id] requests with valid statuses for the id of
    a stored record leave that record with the status of the second
    request, in its place in the collection and with all its other
    fields as they were; the second answer is 200 and carries exactly
    that record. *)
Theorem last_status_update_wins e1 e2 s r1 r2 id1 id2 oid st1 st2
    before c after :
  method r1 = PATCH -> path r1 = [js "api"; js "contacts"; id1] ->
  method r2 = PATCH -> path r2 = [js "api"; js "contacts"; id2] ->
  castObjectId e1 id1 = Some oid -> castObjectId e2 id2 = Some oid ->
  db_up e1 = true -> db_up e2 = true ->
  b_status (body r1) = Some st1 -> In st1 Persisting.statuses ->
  b_status (body r2) = Some st2 -> In st2 Persisting.statuses ->
  More.passes_general second s r1 ->
  More.passes_general second (fst (server second e1 s r1)) r2 ->
  contacts s = before ++ c :: after -> _id c = oid ->
  (forall c', In c' before -> _id c' <> oid) ->
  contacts (fst (server second e2 (fst (server second e1 s r1)) r2)) =
    before ++ Persisting.set_status st2 c :: after /\
  snd (server second e2 (fst (server second e1 s r1)) r2) =
    res_json 200
      (JObj [(js "success", JBool true);
             (js "data",
              JObj (Persisting.toObject (Persisting.set_status st2 c)))]).
Proof.
  intros Hm1 Hp1 Hm2 Hp2 Hc1 Hc2 Hdb1 Hdb2 Hst1 Hin1 Hst2 Hin2 Hg1 Hg2
    Hsplit Hc Hb.
  assert (Hid1 : Persisting.params_id r1 = id1)
    by (unfold Persisting.params_id; rewrite Hp1; reflexivity).
  assert (Hid2 : Persisting.params_id r2 = id2)
    by (unfold Persisting.params_id; rewrite Hp2; reflexivity).
  assert (Hfirst : contacts (fst (server second e1 s r1)) =
                   before ++ Persisting.set_status st1 c :: after).
  { simpl server.
    rewrite (AdminFacts.patch_route e1 s r1 id1) by assumption.
    rewrite (AdminMore.updateStatus_answer e1 r1 _ st1) by assumption.
    rewrite Hid1, Hc1, Hdb1. cbn [counted_api contacts set_limiter_store].
    rewrite Hsplit, AdminFacts.update_first_found by assumption.
    reflexivity. }
  revert Hg2 Hfirst. generalize (fst (server second e1 s r1)).
  intros s1 Hg2 Hfirst.
  simpl server.
  rewrite (AdminFacts.patch_route e2 s1 r2 id2) by assumption.
  rewrite (AdminMore.updateStatus_answer e2 r2 _ st2) by assumption.
  rewrite Hid2, Hc2, Hdb2. cbn [counted_api contacts set_limiter_store].
  rewrite Hfirst, AdminFacts.update_first_found by (assumption || exact Hc).
  split; reflexivity.
Qed.

Lemma last_status_update_wins_witness :
  let id := js "000000000000000000000003" in
  let r1 := Sample.patch_request 0 id (Some (js "replied")) in
  let r2 := Sample.patch_request 1 id (Some (js "read")) in
  contacts (fst (server second Sample.world
                   (fst (server second Sample.world Sample.archive r1)) r2)) =
    map Sample.stored (seq 1 2) ++
    Persisting.set_status (js "read") (Sample.stored 3) ::
    map Sample.stored (seq 4 22) /\
  snd (server second Sample.world
         (fst (server second Sample.world Sample.archive r1)) r2) =
    res_json 200
      (JObj [(js "success", JBool true);
             (js "data",
              JObj (Persisting.toObject
                      (Persisting.set_status (js "read") (Sample.stored 3))))]).
Proof.
  intros id r1 r2.
  apply (last_status_update_wins Sample.world Sample.world Sample.archive
           r1 r2 id id 3%N (js "replied") (js "read")
           (map Sample.stored (seq 1 2)) (Sample.stored 3)
           (map Sample.stored (seq 4 22)));
    try reflexivity; try (simpl; tauto).
  intros c' Hc'. vm_compute in Hc'.
  destruct Hc' as [<-|[<-|[]]]; vm_compute; discriminate.
Defined.

(* ===================================================================== *)
(** * What a request can do to the collection and to the mail trace *)
(* ===================================================================== *)

Module EffectFacts.
Import Http Express RateLimit World Common Spec More StackFacts LimiterFacts.

Lemma same_data_refl s : same_data s s.
Proof. repeat split. Qed.

Lemma same_data_trans a b c : same_data a b -> same_data b c -> same_data a c.
Proof. unfold same_data. intros (?&?&?) (?&?&?). repeat split; congruence. Qed.

Lemma nothing_new_refl s : nothing_new s s.
Proof. repeat split; reflexivity. Qed.

Lemma nothing_new_trans a b c :
  nothing_new a b -> nothing_new b c -> nothing_new a c.
Proof.
  unfold nothing_new. intros (?&?&?) (?&?&?).
  repeat split; try congruence. etransitivity; eassumption.
Qed.

Lemma same_data_nothing_new s s' : same_data s s' -> nothing_new s s'.
Proof. intros (Hc & He & Hn). repeat split; auto. rewrite Hc. reflexivity. Qed.

Lemma same_data_stays_valid s s' : same_data s s' -> stays_valid s s'.
Proof. intros (Hc & _) H. unfold valid_collection in *. rewrite Hc. exact H. Qed.

Lemma keeps_impl {Env State : Type} (R R' : State -> State -> Prop)
    (e : Env) r (h : Handler Env State) :
  (forall s s', R s s' -> R' s s') -> keeps R e r h -> keeps R' e r h.
Proof. intros Himp H s. specialize (H s). destruct (h e s r); auto. Qed.

(** ** Handlers that touch neither the collection nor the mail trace *)

Lemma data_rateLimit_general o (e : Env) r :
  keeps same_data e r
    (rateLimit o limiter_timing limiter_store set_limiter_store).
Proof.
  intros s. unfold rateLimit. cbv zeta. destruct (_ <? _); repeat split.
Qed.

Lemma data_rateLimit_contact o (e : Env) r :
  keeps same_data e r
    (rateLimit o limiter_timing contactLimiter_store set_contactLimiter_store).
Proof.
  intros s. unfold rateLimit. cbv zeta. destruct (_ <? _); repeat split.
Qed.

Lemma data_passthrough (e : Env) r : keeps same_data e r passthrough.
Proof. intros s. repeat split. Qed.

Lemma data_fallback e r : keeps same_data e r fallback404.
Proof. intros s. repeat split. Qed.

Lemma data_persisting_validator e r :
  keeps same_data e r Persisting.validateContactInput.
Proof.
  intros s. unfold Persisting.validateContactInput.
  repeat match goal with
         | |- context [if ?b then _ else _] => destruct b
         end; repeat split.
Qed.

Lemma data_emailonly_validator e r :
  keeps same_data e r EmailOnly.validateContactInput.
Proof.
  intros s. unfold EmailOnly.validateContactInput.
  repeat match goal with
         | |- context [if ?b then _ else _] => destruct b
         end; repeat split.
Qed.

Lemma data_persisting_health e r : keeps same_data e r Persisting.health.
Proof. intros s. repeat split. Qed.

Lemma data_emailonly_health e r : keeps same_data e r EmailOnly.health.
Proof. intros s. repeat split. Qed.

Lemma listContacts_same_state e r s :
  fst (Persisting.listContacts e r s) = s.
Proof.
  unfold Persisting.listContacts, try_catch, bind, Persisting.find,
    Persisting.countDocuments, ret. cbv zeta.
  destruct (negb (db_up e) || _); [reflexivity|].
  destruct (db_up e); reflexivity.
Qed.

Lemma data_getContacts e r : keeps same_data e r Persisting.getContacts.
Proof.
  intros s. unfold Persisting.getContacts.
  pose proof (listContacts_same_state e r s) as H.
  destruct (Persisting.listContacts e r s) as [s' resp].
  simpl in H. subst s'. repeat split.
Qed.

(** ** The handlers that write *)

Lemma update_first_length oid f l c l' :
  Persisting.update_first oid f l = Some (c, l') ->
  List.length l' = List.length l.
Proof.
  revert c l'. induction l as [|d l IH]; intros c l'; simpl; [discriminate|].
  destruct (_id d =? oid)%N.
  - intros [= _ <-]. reflexivity.
  - destruct (Persisting.update_first oid f l) as [[c0 l0]|]; [|discriminate].
    intros [= _ <-]. simpl. f_equal. eapply IH. reflexivity.
Qed.

Lemma update_first_Forall (P : Contact -> Prop) oid f l c l' :
  (forall d, P d -> P (f d)) -> Forall P l ->
  Persisting.update_first oid f l = Some (c, l') -> Forall P l'.
Proof.
  intros Hf. revert c l'.
  induction l as [|d l IH]; intros c l' Hl; simpl; [discriminate|].
  apply Forall_cons in Hl as [Hd Hl].
  destruct (_id d =? oid)%N.
  - intros [= _ <-]. apply Forall_cons. split; auto.
  - destruct (Persisting.update_first oid f l) as [[c0 l0]|]; [|discriminate].
    intros [= _ <-]. apply Forall_cons. split; [exact Hd|].
    eapply IH; [exact Hl | reflexivity].
Qed.

Lemma remove_first_length oid l c l' :
  Persisting.remove_first oid l = Some (c, l') ->
  S (List.length l') = List.length l.
Proof.
  revert c l'. induction l as [|d l IH]; intros c l'; simpl; [discriminate|].
  destruct (_id d =? oid)%N.
  - intros [= _ <-]. reflexivity.
  - destruct (Persisting.remove_first oid l) as [[c0 l0]|]; [|discriminate].
    intros [= _ <-]. simpl. f_equal. eapply IH. reflexivity.
Qed.

Lemma remove_first_Forall (P : Contact -> Prop) oid l c l' :
  Forall P l -> Persisting.remove_first oid l = Some (c, l') -> Forall P l'.
Proof.
  revert c l'.
  induction l as [|d l IH]; intros c l' Hl; simpl; [discriminate|].
  apply Forall_cons in Hl as [Hd Hl].
  destruct (_id d =? oid)%N.
  - intros [= _ <-]. exact Hl.
  - destruct (Persisting.remove_first oid l) as [[c0 l0]|]; [|discriminate].
    intros [= _ <-]. apply Forall_cons. split; [exact Hd|].
    eapply IH; [exact Hl | reflexivity].
Qed.

(** A record that passes the schema still passes it with another status
    of the enumeration. *)
Lemma set_status_valid st c :
  JS.includes Persisting.statuses st = true ->
  Persisting.contactSchema c = [] ->
  Persisting.contactSchema (Persisting.set_status st c) = [].
Proof.
  intros Hst. unfold Persisting.contactSchema.
  cbn [Persisting.set_status name email message ipAddress userAgent status].
  rewrite Hst. intros H.
  apply app_eq_nil in H as [H0 H]. apply app_eq_nil in H as [H1 H].
  apply app_eq_nil in H as [H2 H]. apply app_eq_nil in H as [H3 H].
  apply app_eq_nil in H as [H4 _].
  rewrite H0, H1, H2, H3, H4. reflexivity.
Qed.

Lemma valid_patchContact e r : keeps stays_valid e r Persisting.patchContact.
Proof.
  intros s. unfold Persisting.patchContact, Persisting.updateStatus, try_catch,
    bind, Persisting.findByIdAndUpdate, ret. cbv zeta.
  destruct (b_status (body r)) as [st|]; cbn [negb]; [|intros H; exact H].
  destruct (JS.includes Persisting.statuses st) eqn:Hst; cbn [negb];
    [|intros H; exact H].
  cbn [JS.ToString].
  destruct (castObjectId e _); [|intros H; exact H].
  destruct (db_up e); [|intros H; exact H].
  destruct (Persisting.update_first _ _ _) as [[c l]|] eqn:Hu;
    [|intros H; exact H].
  intros H. unfold valid_collection in *. cbn [contacts set_contacts].
  eapply update_first_Forall; [|exact H|exact Hu].
  intros d. apply set_status_valid. exact Hst.
Qed.

Lemma new_patchContact e r : keeps nothing_new e r Persisting.patchContact.
Proof.
  intros s. unfold Persisting.patchContact, Persisting.updateStatus, try_catch,
    bind, Persisting.findByIdAndUpdate, ret. cbv zeta.
  destruct (negb _); [apply nothing_new_refl|].
  destruct (castObjectId e _); [|apply nothing_new_refl].
  destruct (db_up e); [|apply nothing_new_refl].
  destruct (Persisting.update_first _ _ _) as [[c l]|] eqn:Hu;
    [|apply nothing_new_refl].
  repeat split. cbn [contacts set_contacts].
  rewrite (update_first_length _ _ _ _ _ Hu). reflexivity.
Qed.

Lemma valid_deleteContact e r : keeps stays_valid e r Persisting.deleteContact.
Proof.
  intros s. unfold Persisting.deleteContact, Persisting.removeContact,
    try_catch, bind, Persisting.findByIdAndDelete, ret. cbv zeta.
  destruct (castObjectId e _); [|intros H; exact H].
  destruct (db_up e); [|intros H; exact H].
  destruct (Persisting.remove_first _ _) as [[c l]|] eqn:Hu;
    [|intros H; exact H].
  intros H. unfold valid_collection in *. cbn [contacts set_contacts].
  eapply remove_first_Forall; [exact H|exact Hu].
Qed.

Lemma new_deleteContact e r : keeps nothing_new e r Persisting.deleteContact.
Proof.
  intros s. unfold Persisting.deleteContact, Persisting.removeContact,
    try_catch, bind, Persisting.findByIdAndDelete, ret. cbv zeta.
  destruct (castObjectId e _); [|apply nothing_new_refl].
  destruct (db_up e); [|apply nothing_new_refl].
  destruct (Persisting.remove_first _ _) as [[c l]|] eqn:Hu;
    [|apply nothing_new_refl].
  repeat split. cbn [contacts set_contacts].
  rewrite <- (remove_first_length _ _ _ _ Hu). auto.
Qed.

Lemma valid_postContact e r : keeps stays_valid e r Persisting.postContact.
Proof.
  intros s. unfold Persisting.postContact, Persisting.submit, try_catch, bind,
    Persisting.new_Contact, Persisting.save, sendMail, ret. cbv zeta.
  match goal with
  | |- context [Persisting.contactSchema ?c0] => set (c := c0)
  end.
  destruct (Persisting.contactSchema c) eqn:Hok; [|intros H; exact H].
  destruct (db_up e); [|intros H; exact H].
  assert (Hadd : forall s' : State,
             contacts s' = contacts s ++ [c] -> stays_valid s s').
  { intros s' Hs' H. unfold valid_collection in *. rewrite Hs'.
    apply Forall_app. split; [exact H|]. apply Forall_singleton. exact Hok. }
  destruct (smtp e (ownerMail _ _ _ _)); [apply Hadd; reflexivity|].
  destruct (smtp e (userMail _ _ _)); apply Hadd; reflexivity.
Qed.

(** The e-mail-only server never touches the collection. *)
Lemma emailonly_postContact_contacts e r s :
  match EmailOnly.postContact e s r with
  | Next s' | Respond s' _ =>
      contacts s' = contacts s /\ next_id s' = next_id s
  end.
Proof.
  unfold EmailOnly.postContact, EmailOnly.submit, try_catch, bind, sendMail,
    ret.
  destruct (smtp e (ownerMail _ _ _ _)); [split; reflexivity|].
  destruct (smtp e (userMail _ _ _)); split; reflexivity.
Qed.

(** ** Layers that do not apply *)

Lemma route_other_method m m' pat hs (r : Request) :
  method r = m -> Method_eqb m m' = false ->
  applies (@route Env State m' pat hs) r = true -> False.
Proof.
  intros Hm Hne. cbn [applies route]. rewrite Hm, Hne. discriminate.
Qed.

Lemma route_submission hs (r : Request) :
  applies (@route Env State POST [api; Lit (js "contact")] hs) r = true ->
  is_submission r.
Proof.
  cbn [applies route]. intros H. apply andb_true_iff in H as [Hm Hp].
  split; [destruct (method r); try discriminate; reflexivity|].
  apply path_matches_contact. exact Hp.
Qed.

(** The first server's stack ends at its catch-all. *)
Lemma emailonly_reachable e s r :
  EmailOnly.handle e s r =
    dispatch
      [ use helmet; use morgan; use_at [js "api"] EmailOnly.limiter;
        use cors; use express_json; use express_urlencoded;
        route POST [api; Lit (js "contact")]
          [EmailOnly.contactLimiter; EmailOnly.validateContactInput;
           EmailOnly.postContact];
        route GET [api; Lit (js "health")] [EmailOnly.health];
        use fallback404 ] e s r.
Proof.
  unfold EmailOnly.handle, EmailOnly.app.
  apply (dispatch_hidden
           [ use helmet; use morgan; use_at [js "api"] EmailOnly.limiter;
             use cors; use express_json; use express_urlencoded;
             route POST [api; Lit (js "contact")]
               [EmailOnly.contactLimiter; EmailOnly.validateContactInput;
                EmailOnly.postContact];
             route GET [api; Lit (js "health")] [EmailOnly.health] ]
           [EmailOnly.test_email_route] fallback404).
  intros e0 s0 r0. eexists _, _. reflexivity.
Qed.

Ltac untouched :=
  first [ apply data_passthrough | apply data_rateLimit_general
        | apply data_rateLimit_contact | apply data_fallback
        | apply data_persisting_validator | apply data_emailonly_validator
        | apply data_persisting_health | apply data_emailonly_health
        | apply data_getContacts ].

(** A request handled by the persisting server leaves a valid
    collection valid. *)
Lemma persisting_stays_valid e s r :
  stays_valid s (fst (Persisting.handle e s r)).
Proof.
  unfold Persisting.handle.
  apply dispatch_keeps;
    [intros a H; exact H | intros a b c H1 H2 H; exact (H2 (H1 H)) |].
  unfold Persisting.app.
  repeat (apply Forall_cons; split); try apply Forall_nil; try exact I;
    intros _; repeat constructor;
    first [ apply valid_postContact | apply valid_patchContact
          | apply valid_deleteContact
          | apply (keeps_impl same_data); [apply same_data_stays_valid|];
            untouched
          | intros s0 H; exact H ].
Qed.

(** A request that is not a submission sends no mail and adds no
    record. *)
Lemma persisting_nothing_new e s r :
  ~ is_submission r -> nothing_new s (fst (Persisting.handle e s r)).
Proof.
  intros Hno. unfold Persisting.handle.
  apply dispatch_keeps; [apply nothing_new_refl | apply nothing_new_trans |].
  unfold Persisting.app.
  repeat (apply Forall_cons; split); try apply Forall_nil; try exact I;
    try (intros Happ; destruct (Hno (route_submission _ _ Happ)));
    intros _; repeat constructor;
    first [ apply new_patchContact | apply new_deleteContact
          | apply (keeps_impl same_data); [apply same_data_nothing_new|];
            untouched
          | intros s0; apply nothing_new_refl ].
Qed.

Lemma emailonly_nothing_new e s r :
  ~ is_submission r -> same_data s (fst (EmailOnly.handle e s r)).
Proof.
  intros Hno. rewrite emailonly_reachable.
  apply dispatch_keeps; [apply same_data_refl | apply same_data_trans |].
  repeat (apply Forall_cons; split); try apply Forall_nil; try exact I;
    try (intros Happ; destruct (Hno (route_submission _ _ Happ)));
    intros _; repeat constructor; untouched.
Qed.

(** A request with a method other than POST, PATCH and DELETE changes
    neither the collection nor the mail trace. *)
Lemma persisting_read_only e s r :
  method r <> POST -> method r <> PATCH -> method r <> DELETE ->
  same_data s (fst (Persisting.handle e s r)).
Proof.
  intros H1 H2 H3. unfold Persisting.handle.
  apply dispatch_keeps; [apply same_data_refl | apply same_data_trans |].
  unfold Persisting.app.
  repeat (apply Forall_cons; split); try apply Forall_nil; try exact I;
    try (intros Happ; exfalso; cbn [applies route Persisting.error_middleware]
           in Happ; try discriminate Happ;
         apply andb_true_iff in Happ as [Hm _];
         destruct (method r); try discriminate Hm; congruence);
    intros _; repeat constructor; untouched.
Qed.

(** ** Ids that are never handed out again *)

Lemma retired_same_data oid s s' : same_data s s' -> stays_retired oid s s'.
Proof.
  intros (Hc & _ & Hn) H. unfold retired in *. rewrite Hc, Hn. exact H.
Qed.

(** A new record receives the current value of the id counter. *)
Lemma retired_after_submit oid (s s' : State) (c : Contact) :
  _id c = next_id s -> next_id s' = N.succ (next_id s) ->
  contacts s' = contacts s \/ contacts s' = contacts s ++ [c] ->
  stays_retired oid s s'.
Proof.
  intros Hid Hn Hc [Hlt Hall]. unfold retired. rewrite Hn.
  split; [lia|].
  assert (Hold : Forall (fun d => _id d <> oid /\ (_id d < N.succ (next_id s))%N)
                   (contacts s)).
  { eapply List.Forall_impl; [|exact Hall]. intros d [H1 H2]. split; [exact H1|lia]. }
  destruct Hc as [-> | ->]; [exact Hold|].
  apply Forall_app. split; [exact Hold|].
  apply Forall_singleton. rewrite Hid. split; lia.
Qed.

Lemma retired_postContact oid e r :
  keeps (stays_retired oid) e r Persisting.postContact.
Proof.
  intros s. unfold Persisting.postContact, Persisting.submit, try_catch, bind,
    Persisting.new_Contact, Persisting.save, sendMail, ret. cbv zeta.
  match goal with
  | |- context [Persisting.contactSchema ?c0] => set (c := c0)
  end.
  assert (Hid : _id c = next_id s) by reflexivity.
  destruct (Persisting.contactSchema c);
    [|apply (retired_after_submit oid s _ c Hid); [reflexivity | left; reflexivity]].
  destruct (db_up e);
    [|apply (retired_after_submit oid s _ c Hid); [reflexivity | left; reflexivity]].
  destruct (smtp e (ownerMail _ _ _ _));
    [apply (retired_after_submit oid s _ c Hid); [reflexivity | right; reflexivity]|].
  destruct (smtp e (userMail _ _ _));
    apply (retired_after_submit oid s _ c Hid);
    first [reflexivity | right; reflexivity].
Qed.

Lemma retired_patchContact oid e r :
  keeps (stays_retired oid) e r Persisting.patchContact.
Proof.
  intros s. unfold Persisting.patchContact, Persisting.updateStatus, try_catch,
    bind, Persisting.findByIdAndUpdate, ret. cbv zeta.
  destruct (negb _); [intros H; exact H|].
  destruct (castObjectId e _); [|intros H; exact H].
  destruct (db_up e); [|intros H; exact H].
  destruct (Persisting.update_first _ _ _) as [[c l]|] eqn:Hu;
    [|intros H; exact H].
  intros [Hlt Hall]. split; [exact Hlt|]. cbn [contacts set_contacts next_id].
  eapply update_first_Forall; [|exact Hall|exact Hu].
  intros d Hd. exact Hd.
Qed.

Lemma retired_deleteContact oid e r :
  keeps (stays_retired oid) e r Persisting.deleteContact.
Proof.
  intros s. unfold Persisting.deleteContact, Persisting.removeContact,
    try_catch, bind, Persisting.findByIdAndDelete, ret. cbv zeta.
  destruct (castObjectId e _); [|intros H; exact H].
  destruct (db_up e); [|intros H; exact H].
  destruct (Persisting.remove_first _ _) as [[c l]|] eqn:Hu;
    [|intros H; exact H].
  intros [Hlt Hall]. split; [exact Hlt|]. cbn [contacts set_contacts next_id].
  eapply remove_first_Forall; [exact Hall|exact Hu].
Qed.

(** An id that no record has, and that was handed out before, is not in
    the collection after any request. *)
Lemma persisting_stays_retired oid e s r :
  stays_retired oid s (fst (Persisting.handle e s r)).
Proof.
  unfold Persisting.handle.
  apply (dispatch_keeps (stays_retired oid));
    [intros a H; exact H | intros a b c H1 H2 H; exact (H2 (H1 H)) |].
  unfold Persisting.app.
  repeat (apply Forall_cons; split); try apply Forall_nil; try exact I;
    intros _;
    repeat first [apply List.Forall_nil | apply List.Forall_cons];
    first [ apply retired_postContact | apply retired_patchContact
          | apply retired_deleteContact
          | apply (keeps_impl same_data); [apply retired_same_data|];
            untouched
          | intros s0 H; exact H ].
Qed.

(** A submission, as the model reads it, is one as Express reads it. *)
Lemma submission_route_path r :
  is_submission r -> route_path (path r) = [js "api"; js "contact"].
Proof. intros [_ ->]. reflexivity. Qed.

Lemma serve_keeps (R : State -> State -> Prop)
    (handle : Env -> State -> Request -> State * Response)
    (P : Env * Request -> Prop) :
  (forall s, R s s) -> (forall a b c, R a b -> R b c -> R a c) ->
  (forall e s r, P (e, r) -> R s (fst (handle e s r))) ->
  forall trace s, Forall P trace -> R s (fst (serve handle s trace)).
Proof.
  intros Hrefl Htrans Hstep. induction trace as [|[e r] trace IH]; intros s Ht.
  - apply Hrefl.
  - apply Forall_cons in Ht as [Hr Ht]. simpl.
    pose proof (Hstep e s r Hr) as H1.
    destruct (handle e s r) as [s1 resp]. simpl in H1.
    pose proof (IH s1 Ht) as H2.
    destruct (serve handle s1 trace) as [s2 resps]. simpl in *.
    eapply Htrans; eassumption.
Qed.

Lemma check_path_nil v required_msg ok msg :
  Persisting.check_path v required_msg ok msg = [] -> v <> [] /\ ok = true.
Proof.
  destruct v as [|c v]; simpl; [discriminate|].
  destruct ok; [split; [discriminate|reflexivity] | discriminate].
Qed.

(** A record to which the schema has nothing to object is well formed. *)
Lemma schema_well_formed c :
  Persisting.contactSchema c = [] -> well_formed c.
Proof.
  unfold Persisting.contactSchema. intros H.
  apply app_eq_nil in H as [H0 H]. apply app_eq_nil in H as [H1 H].
  apply app_eq_nil in H as [H2 H]. apply app_eq_nil in H as [H3 H].
  apply app_eq_nil in H as [H4 H5].
  apply check_path_nil in H0 as [N0 L0], H1 as [N1 L1], H2 as [N2 L2],
    H3 as [N3 _], H4 as [N4 _].
  apply Z.leb_le in L0, L2.
  destruct (JS.includes Persisting.statuses (status c)) eqn:Hst;
    [|discriminate H5].
  apply AdminFacts.includes_In in Hst.
  repeat split; assumption.
Qed.

(** The e-mail-only server has no collection to write to. *)
Lemma emailonly_no_store e s r :
  contacts (fst (EmailOnly.handle e s r)) = contacts s /\
  next_id (fst (EmailOnly.handle e s r)) = next_id s.
Proof.
  rewrite emailonly_reachable.
  apply (dispatch_keeps
           (fun a b : State =>
              contacts b = contacts a /\ next_id b = next_id a));
    [split; reflexivity
    |intros a b c [H1 H2] [H3 H4]; split; congruence|].
  repeat (apply Forall_cons; split); try apply Forall_nil; try exact I;
    intros _; repeat constructor;
    first [ intros s0; apply emailonly_postContact_contacts
          | apply (keeps_impl same_data);
            [intros a b (H1 & _ & H2); split; assumption|]; untouched ].
Qed.

End EffectFacts.

(** X2.  A deleted record stays deleted.  Let no two records share an
    id and let every id of the collection have been handed out by the id
    counter.  When [DELETE /api/contacts/:id] is answered 200 then,
    whatever requests the server handles afterwards (submissions that
    create new records included), no record of the collection has that
    id, and a delete or a status update (with a valid status) for the
    same id is answered 404 "Contact not found". *)
Theorem deleted_record_is_gone e s r id oid later :
  method r = DELETE -> path r = [js "api"; js "contacts"; id] ->
  More.passes_general second s r -> db_up e = true ->
  castObjectId e id = Some oid ->
  List.NoDup (map _id (contacts s)) -> More.ids_below_counter s ->
  statusCode (snd (server second e s r)) = 200 ->
  let s' := fst (serve (server second) (fst (server second e s r)) later) in
  (forall c, In c (contacts s') -> _id c <> oid) /\
  (forall e' r' id',
     method r' = DELETE \/
     (method r' = PATCH /\ More.valid_status (b_status (body r'))) ->
     path r' = [js "api"; js "contacts"; id'] ->
     castObjectId e' id' = Some oid -> db_up e' = true ->
     More.passes_general second s' r' ->
     snd (server second e' s' r') =
       res_json 404 (envelope false "Contact not found")).
Proof.
  intros Hm Hp Hg Hdb Hcast Hnd Hbelow H200 s'.
  assert (Hretired : More.retired oid (fst (server second e s r))).
  { revert H200. simpl server.
    rewrite (AdminMore.delete_route e s r id) by assumption.
    rewrite AdminMore.removeContact_answer.
    assert (Hid : Persisting.params_id r = id)
      by (unfold Persisting.params_id; rewrite Hp; reflexivity).
    rewrite Hid, Hcast, Hdb. cbn [counted_api contacts set_limiter_store].
    unfold More.ids_below_counter in Hbelow.
    destruct (AdminMore.find_by_id oid (contacts s))
      as [Hnone|(before & c & after & Hsplit & Hc & Hb)].
    - rewrite AdminMore.remove_first_absent by exact Hnone.
      intros H200. discriminate H200.
    - rewrite Hsplit, AdminMore.remove_first_found by assumption.
      intros _. rewrite Hsplit in Hnd, Hbelow.
      pose proof (AdminMore.NoDup_ids_split oid before c after Hnd Hc)
        as Hgone.
      unfold More.retired. cbn [fst contacts set_contacts next_id
                                set_limiter_store].
      split.
      + rewrite List.Forall_forall in Hbelow. rewrite <- Hc.
        apply Hbelow. apply in_elt.
      + apply List.Forall_forall. intros d Hd. split; [exact (Hgone d Hd)|].
        rewrite List.Forall_forall in Hbelow. apply Hbelow.
        apply in_app_or in Hd as [Hd|Hd]; apply in_or_app;
          [left | right; right]; exact Hd. }
  assert (Hlater : More.retired oid s').
  { revert Hretired. subst s'.
    apply (EffectFacts.serve_keeps (More.stays_retired oid) (server second)
             (fun _ => True)).
    - intros a H; exact H.
    - intros a b c H1 H2 H; exact (H2 (H1 H)).
    - intros e0 s0 r0 _. apply EffectFacts.persisting_stays_retired.
    - apply List.Forall_forall. intros x _. exact I. }
  clearbody s'.
  assert (Hgone : forall c, In c (contacts s') -> _id c <> oid).
  { destruct Hlater as [_ Hall]. rewrite List.Forall_forall in Hall.
    intros c Hc. apply (Hall c Hc). }
  split; [exact Hgone|].
  intros e' r' id' Hkind Hp' Hcast' Hdb' Hg'.
  assert (Hid : Persisting.params_id r' = id')
    by (unfold Persisting.params_id; rewrite Hp'; reflexivity).
  simpl server.
  destruct Hkind as [Hm'|[Hm' (st & Hst & Hin)]].
  - rewrite (AdminMore.delete_route e' s' r' id') by assumption.
    rewrite AdminMore.removeContact_answer, Hid, Hcast', Hdb'.
    cbn [counted_api contacts set_limiter_store].
    rewrite AdminMore.remove_first_absent by exact Hgone. reflexivity.
  - rewrite (AdminFacts.patch_route e' s' r' id') by assumption.
    rewrite (AdminMore.updateStatus_answer e' r' _ st) by assumption.
    rewrite Hid, Hcast', Hdb'.
    cbn [counted_api contacts set_limiter_store].
    rewrite AdminFacts.update_first_absent by exact Hgone. reflexivity.
Qed.

Lemma deleted_record_is_gone_witness :
  let id := js "000000000000000000000007" in
  let later :=
    [(Sample.world, Sample.submission 1 Sample.ann);
     (Sample.world, Sample.patch_request 2 (js "000000000000000000000008")
                      (Some (js "read")))] in
  let s' :=
    fst (serve (server second)
           (fst (server second Sample.world Sample.archive
                   (Sample.delete_request 0 id))) later) in
  snd (server second Sample.world s'
         (Sample.patch_request 3 id (Some (js "read")))) =
    res_json 404 (envelope false "Contact not found").
Proof.
  intros id later s'.
  assert (Hnd : List.NoDup (map _id (contacts Sample.archive))).
  { vm_compute.
    repeat (constructor;
            [intros Hin; repeat (destruct Hin as [Hin|Hin];
                                 [discriminate Hin|]); destruct Hin|]).
    constructor. }
  assert (Hbelow : More.ids_below_counter Sample.archive).
  { apply List.Forall_forall. intros c Hc. vm_compute in Hc.
    repeat (destruct Hc as [<-|Hc]; [reflexivity|]). destruct Hc. }
  refine (proj2 (deleted_record_is_gone Sample.world Sample.archive
                   (Sample.delete_request 0 id) id 7%N later
                   eq_refl eq_refl eq_refl eq_refl eq_refl Hnd Hbelow eq_refl)
            Sample.world (Sample.patch_request 3 id (Some (js "read"))) id
            _ eq_refl eq_refl eq_refl eq_refl).
  right. split; [reflexivity|].
  exists (js "read"). split; [reflexivity|]. simpl. tauto.
Defined.

(** X4.  Every stored record passes the schema, whatever the requests.
    If all records of the collection pass the validators of
    [contactSchema], they still all pass them after the persisting
    server has handled any sequence of requests: name and message are
    non-empty and within 100 and 1000 characters, the e-mail matches the
    pattern, address and user agent are present, and the status is one of
    "unread", "read" and "replied". *)
Theorem stored_records_stay_valid trace s :
  More.valid_collection s ->
  More.valid_collection (fst (serve (server second) s trace)) /\
  Forall More.well_formed (contacts (fst (serve (server second) s trace))).
Proof.
  intros Hs.
  assert (H : More.valid_collection (fst (serve (server second) s trace))).
  { revert Hs.
    apply (EffectFacts.serve_keeps More.stays_valid (server second)
             (fun _ => True)).
    - intros a H; exact H.
    - intros a b c H1 H2 H; exact (H2 (H1 H)).
    - intros e s0 r _. apply EffectFacts.persisting_stays_valid.
    - apply Forall_forall. intros x _. exact I. }
  split; [exact H|].
  eapply List.Forall_impl; [|exact H].
  intros c. apply EffectFacts.schema_well_formed.
Qed.

Lemma stored_records_stay_valid_witness :
  Forall More.well_formed
    (contacts
       (fst (serve (server second) Sample.archive
               [(Sample.world, Sample.submission 0 Sample.ann);
                (Sample.world,
                 Sample.patch_request 1 (js "000000000000000000000003")
                   (Some (js "read")));
                (Sample.world,
                 Sample.patch_request 2 (js "000000000000000000000004")
                   (Some (js "done")));
                (Sample.world,
                 Sample.delete_request 3 (js "000000000000000000000005"))]))).
Proof.
  refine (proj2 (stored_records_stay_valid _ Sample.archive _)).
  unfold More.valid_collection. apply List.Forall_forall. intros c Hc.
  vm_compute in Hc.
  repeat (destruct Hc as [<-|Hc]; [vm_compute; reflexivity|]).
  destruct Hc.
Defined.

(** X5.  Reading is safe.  On either server, a sequence of requests
    whose methods are neither POST nor PATCH nor DELETE (GET requests in
    particular, whatever their paths and parameters) leaves the
    collection, the id counter and the trace of sent mail exactly as they
    were.  On the first server this includes [GET /api/test-email],
    whose handler would send a mail if it were reached. *)
Theorem reading_changes_nothing v trace s :
  Forall (fun er => More.read_only (snd er)) trace ->
  More.same_data s (fst (serve (server v) s trace)).
Proof.
  apply (EffectFacts.serve_keeps More.same_data (server v)
           (fun er => More.read_only (snd er))).
  - apply EffectFacts.same_data_refl.
  - apply EffectFacts.same_data_trans.
  - intros e s0 r (H1 & H2 & H3). destruct v; simpl server.
    + apply EffectFacts.emailonly_nothing_new. intros [Hm _]. exact (H1 Hm).
    + apply EffectFacts.persisting_read_only; assumption.
Qed.

Lemma reading_changes_nothing_witness :
  More.same_data Sample.archive
    (fst (serve (server first) Sample.archive
            [(Sample.world, Sample.test_email_request 0);
             (Sample.world, Sample.health_request 1);
             (Sample.world, Sample.list_request 2 Sample.no_query)])).
Proof.
  apply (reading_changes_nothing first).
  repeat constructor; discriminate.
Defined.

(** X6.  Only a submission can send mail or add a record.  On either
    server a request that is not for [POST /api/contact], as Express
    matches that route (without regard to letter case, and with or
    without a trailing slash), sends no mail, creates no record and does
    not make the collection longer; and the first server never changes
    the collection on any request. *)
Theorem only_submissions_write v e s r :
  (More.not_a_submission r -> More.nothing_new s (fst (server v e s r))) /\
  contacts (fst (server first e s r)) = contacts s.
Proof.
  split.
  - intros Hno.
    assert (Hno' : ~ is_submission r).
    { intros Hsub. destruct Hno as [Hno|Hno]; [exact (Hno (proj1 Hsub))|].
      exact (Hno (EffectFacts.submission_route_path r Hsub)). }
    destruct v; simpl server.
    + apply EffectFacts.same_data_nothing_new,
        EffectFacts.emailonly_nothing_new, Hno'.
    + apply EffectFacts.persisting_nothing_new, Hno'.
  - apply EffectFacts.emailonly_no_store.
Qed.

Lemma only_submissions_write_witness :
  More.nothing_new Sample.archive
    (fst (server second Sample.world Sample.archive
            (Sample.delete_request 0 (js "000000000000000000000005")))).
Proof.
  apply (proj1 (only_submissions_write second Sample.world Sample.archive
                  (Sample.delete_request 0 (js "000000000000000000000005")))).
  left. discriminate.
Defined.

(* ===================================================================== *)
(** * The answers of the two servers *)
(* ===================================================================== *)

Module AnswerFacts.
Import Http Express RateLimit World Common Spec More StackFacts.






















(** ** Paths outside [/api] *)

Lemma path_matches_api pat p :
  starts_with [js "api"] p = false -> path_matches (api :: pat) p = false.
Proof.
  destruct p as [|a p]; simpl; [reflexivity|].
  rewrite andb_true_r. intros ->. reflexivity.
Qed.

End AnswerFacts.



(** X8.  Outside [/api] there is nothing.  A request with one of the
    methods GET, POST, PUT, PATCH and DELETE whose path does not start
    with [/api] (in any letter case) and contains no percent sign is
    answered 404 "Route not found" by either server, and leaves the
    whole state, rate limiter counts included, as it was. *)
Theorem outside_api_is_404 v e s r :
  More.outside_api r -> More.no_escape r ->
  server v e s r = (s, res_json 404 (envelope false "Route not found")).
Proof.
  intros Hout _.
  assert (Hu : starts_with [js "api"] (path r) = false).
  { destruct (path r) as [|a p] eqn:Hp; [reflexivity|]. simpl.
    rewrite andb_true_r. unfold JS.eqb. apply bool_decide_eq_false.
    intros <-. exact (Hout _ _ Hp eq_refl). }
  destruct v; simpl server;
    [unfold EmailOnly.handle, EmailOnly.app, EmailOnly.test_email_route
    |unfold Persisting.handle, Persisting.app, Persisting.contacts_id];
    cbn [dispatch applies handlers use use_at route run_handlers
         helmet morgan cors express_json express_urlencoded passthrough];
    rewrite Hu, !AnswerFacts.path_matches_api by exact Hu;
    rewrite !andb_false_r; reflexivity.
Qed.

Lemma outside_api_is_404_witness :
  server second Sample.world Sample.archive
    {| method := GET; path := [js "contacts"]; ip := Sample.client;
       now := 0; user_agent := None; body := Sample.form None None None;
       query := Sample.no_query |} =
  (Sample.archive, res_json 404 (envelope false "Route not found")).
Proof.
  apply (outside_api_is_404 second).
  - intros a p [= <- _]. vm_compute. discriminate.
  - apply List.Forall_forall. intros seg Hseg. vm_compute in Hseg.
    destruct Hseg as [<-|[]]. vm_compute. intuition discriminate.
Defined.

(** X9.  The health route answers whatever the state of the world.
    [GET /api/health], past the general limiter, is answered 200 with
    [success: true] and "Server is running" by either server, also when
    the database is down; the persisting server adds the time of the
    request as [timestamp].  The request is counted by the general
    limiter and changes nothing else. *)
Theorem health_answers v e s r :
  method r = GET -> path r = [js "api"; js "health"] ->
  More.passes_general v s r ->
  server v e s r =
    (counted_api (general_options v) e s r,
     res_json 200
       (JObj ([(js "success", JBool true);
               (js "message", JStr (js "Server is running"))] ++
              match v with
              | first => []
              | second => [(js "timestamp", JDate (now r))]
              end))).
Proof.
  intros Hm Hp Hg. unfold More.passes_general in Hg.
  destruct v; simpl server; simpl general_options in *.
  - unfold EmailOnly.handle, EmailOnly.app. StackFacts.walk_stack Hm Hp.
    unfold EmailOnly.limiter. rewrite StackFacts.rateLimit_admits by exact Hg.
    reflexivity.
  - unfold Persisting.handle, Persisting.app. StackFacts.walk_stack Hm Hp.
    unfold Persisting.limiter. rewrite StackFacts.rateLimit_admits by exact Hg.
    reflexivity.
Qed.

Lemma health_answers_witness :
  snd (server second Sample.world Sample.fresh (Sample.health_request 42)) =
  res_json 200
    (JObj [(js "success", JBool true);
           (js "message", JStr (js "Server is running"));
           (js "timestamp", JDate 42)]).
Proof.
  rewrite (health_answers second Sample.world Sample.fresh
             (Sample.health_request 42) eq_refl eq_refl eq_refl).
  reflexivity.
Defined.

(* ===================================================================== *)
(** * The general limiter over a trace of requests *)
(* ===================================================================== *)

Module GeneralFacts.
Import Http Express RateLimit World Common Spec More StackFacts LimiterFacts.

Lemma general_refl s : same_general_store s s.
Proof. reflexivity. Qed.

Lemma general_trans a b c :
  same_general_store a b -> same_general_store b c -> same_general_store a c.
Proof. unfold same_general_store. congruence. Qed.

Lemma general_passthrough (e : Env) r :
  keeps same_general_store e r passthrough.
Proof. intros s. reflexivity. Qed.

Lemma general_contact_limiter o (e : Env) r :
  keeps same_general_store e r
    (rateLimit o limiter_timing contactLimiter_store set_contactLimiter_store).
Proof. intros s. unfold rateLimit. cbv zeta. destruct (_ <? _); reflexivity. Qed.

Lemma general_fallback e r : keeps same_general_store e r fallback404.
Proof. intros s. reflexivity. Qed.

Lemma general_persisting_validator e r :
  keeps same_general_store e r Persisting.validateContactInput.
Proof.
  intros s. unfold Persisting.validateContactInput.
  repeat match goal with
         | |- context [if ?b then _ else _] => destruct b
         end; reflexivity.
Qed.

Lemma general_emailonly_validator e r :
  keeps same_general_store e r EmailOnly.validateContactInput.
Proof.
  intros s. unfold EmailOnly.validateContactInput.
  repeat match goal with
         | |- context [if ?b then _ else _] => destruct b
         end; reflexivity.
Qed.

Lemma general_persisting_postContact e r :
  keeps same_general_store e r Persisting.postContact.
Proof.
  intros s. unfold Persisting.postContact, Persisting.submit, try_catch, bind,
    Persisting.new_Contact, Persisting.save, sendMail, ret. cbv zeta.
  destruct (Persisting.contactSchema _); [|reflexivity].
  destruct (db_up e); [|reflexivity].
  destruct (smtp e (ownerMail _ _ _ _)); [reflexivity|].
  destruct (smtp e (userMail _ _ _)); reflexivity.
Qed.

Lemma general_emailonly_postContact e r :
  keeps same_general_store e r EmailOnly.postContact.
Proof.
  intros s. unfold EmailOnly.postContact, EmailOnly.submit, try_catch, bind,
    sendMail, ret.
  destruct (smtp e (ownerMail _ _ _ _)); [reflexivity|].
  destruct (smtp e (userMail _ _ _)); reflexivity.
Qed.

Lemma general_testEmail e r : keeps same_general_store e r EmailOnly.testEmail.
Proof.
  intros s. unfold EmailOnly.testEmail, EmailOnly.sendTestEmail, try_catch,
    bind, sendMail, ret.
  destruct (smtp e (EmailOnly.testMail e)); reflexivity.
Qed.

Lemma general_getContacts e r :
  keeps same_general_store e r Persisting.getContacts.
Proof.
  intros s. unfold Persisting.getContacts.
  pose proof (EffectFacts.listContacts_same_state e r s) as H.
  destruct (Persisting.listContacts e r s) as [s' resp].
  simpl in H. subst s'. reflexivity.
Qed.

Lemma general_patchContact e r :
  keeps same_general_store e r Persisting.patchContact.
Proof.
  intros s. unfold Persisting.patchContact, Persisting.updateStatus, try_catch,
    bind, Persisting.findByIdAndUpdate, ret. cbv zeta.
  destruct (negb _); [reflexivity|].
  destruct (castObjectId e _); [|reflexivity].
  destruct (db_up e); [|reflexivity].
  destruct (Persisting.update_first _ _ _) as [[c l]|]; reflexivity.
Qed.

Lemma general_deleteContact e r :
  keeps same_general_store e r Persisting.deleteContact.
Proof.
  intros s. unfold Persisting.deleteContact, Persisting.removeContact,
    try_catch, bind, Persisting.findByIdAndDelete, ret. cbv zeta.
  destruct (castObjectId e _); [|reflexivity].
  destruct (db_up e); [|reflexivity].
  destruct (Persisting.remove_first _ _) as [[c l]|]; reflexivity.
Qed.

(** Nothing behind the general limiter touches its store. *)
Lemma behind_general_same v e s r :
  same_general_store s (fst (dispatch (behind_general v) e s r)).
Proof.
  apply dispatch_keeps; [apply general_refl | apply general_trans |].
  destruct v; unfold behind_general, stack, EmailOnly.app, Persisting.app,
    EmailOnly.test_email_route, Persisting.error_middleware; cbn [skipn];
    repeat (apply Forall_cons; split); try apply Forall_nil; try exact I;
    intros _; repeat constructor;
    first [ apply general_passthrough | apply general_contact_limiter
          | apply general_fallback | apply general_persisting_validator
          | apply general_emailonly_validator
          | apply general_persisting_postContact
          | apply general_emailonly_postContact | apply general_testEmail
          | apply general_getContacts | apply general_patchContact
          | apply general_deleteContact
          | intros s0; reflexivity ].
Qed.

(** The general limiter is the first layer that can answer. *)
Lemma general_first v e s r :
  server v e s r =
    if under_api r then
      match rateLimit (general_options v) limiter_timing limiter_store
              set_limiter_store e s r with
      | Respond s1 resp => (s1, resp)
      | Next s1 => dispatch (behind_general v) e s1 r
      end
    else dispatch (behind_general v) e s r.
Proof.
  unfold under_api, behind_general.
  destruct v; cbn [server stack general_options];
    unfold EmailOnly.handle, EmailOnly.app, EmailOnly.limiter,
      Persisting.handle, Persisting.app, Persisting.limiter;
    cbn [skipn]; cbn [dispatch applies handlers use use_at run_handlers
                      helmet morgan passthrough];
    destruct (starts_with [js "api"] (path r)); try reflexivity;
    destruct (rateLimit _ _ _ _ e s r); reflexivity.
Qed.

(** What the general limiter's store holds after a request. *)
Lemma general_store_after v e s r :
  limiter_store (fst (server v e s r)) =
    if under_api r
    then record (general_options v) (limiter_timing e) (limiter_store s)
           (ip r) (now r)
    else limiter_store s.
Proof.
  rewrite general_first. destruct (under_api r).
  - unfold rateLimit. cbv zeta. destruct (_ <? _); [reflexivity|].
    rewrite behind_general_same. reflexivity.
  - apply behind_general_same.
Qed.

Lemma general_window_ms v : windowMs (general_options v) = 15 * 60 * 1000.
Proof. destruct v; reflexivity. Qed.

Lemma general_max v : RateLimit.max (general_options v) = 100.
Proof. destruct v; reflexivity. Qed.

(** Inside the window, a request of [addr] under [/api/] adds one to the
    count; any other request leaves it. *)
Lemma general_step v addr t_end k e s r :
  now r < t_end -> general_window addr t_end k s ->
  general_window addr t_end
    (k + if api_request_from addr r then 1 else 0) (fst (server v e s r)).
Proof.
  intros Ht (w & Hw & Hh & Hreset). unfold general_window.
  rewrite general_store_after. unfold api_request_from.
  destruct (under_api r); cbn [andb].
  - unfold record. destruct (decide (ip r = addr)) as [Hip|Hip].
    + rewrite bool_decide_eq_true_2 by exact Hip.
      rewrite Hip, lookup_insert_eq. unfold increment. rewrite Hw.
      assert ((now r <? resetTime w) = true) as -> by (apply Z.ltb_lt; lia).
      eexists. split; [reflexivity|]. simpl. split; [lia | assumption].
    + rewrite bool_decide_eq_false_2 by exact Hip.
      rewrite lookup_insert_ne by exact Hip.
      exists w. rewrite Nat.add_0_r. auto.
  - exists w. rewrite Nat.add_0_r. auto.
Qed.

Lemma general_trace v addr t_end trace : forall k s,
  Forall (fun q : Env * Request => now (snd q) < t_end) trace ->
  general_window addr t_end k s ->
  general_window addr t_end (k + api_requests addr trace)
    (fst (serve (server v) s trace)).
Proof.
  induction trace as [|[e q] trace IH]; intros k s Ht Hk.
  - simpl. unfold api_requests. simpl. rewrite Nat.add_0_r. exact Hk.
  - apply Forall_cons in Ht as [Hq Ht]. simpl in Hq.
    pose proof (general_step v addr t_end k e s q Hq Hk) as H1.
    cbn [serve]. destruct (server v e s q) as [s1 a].
    specialize (IH _ s1 Ht H1).
    destruct (serve (server v) s1 trace) as [s2 answers].
    simpl in IH |- *. unfold api_requests in *. cbn [List.filter snd].
    destruct (api_request_from addr q); simpl;
      [rewrite <- Nat.add_assoc in IH | rewrite Nat.add_0_r in IH]; exact IH.
Qed.

(** A request under [/api/] that finds no open window opens one. *)
Lemma general_opens v e s r :
  under_api r = true -> no_open_general_window s (ip r) (now r) ->
  general_window (ip r)
    (window_end (limiter_timing e) (15 * 60 * 1000) (now r)) 1
    (fst (server v e s r)).
Proof.
  intros Hu Hclosed. unfold general_window, no_open_general_window in *.
  rewrite general_store_after, Hu. unfold record.
  rewrite lookup_insert_eq. unfold increment. rewrite general_window_ms.
  destruct (limiter_store s !! ip r) as [w|].
  - assert ((now r <? resetTime w) = false) as -> by (apply Z.ltb_ge; lia).
    eexists. repeat split.
  - eexists. repeat split.
Qed.

(** The requests under [/api/] are among the requests of the address. *)
Lemma api_requests_le addr trace :
  (api_requests addr trace <= requests_from addr trace)%nat.
Proof.
  unfold api_requests, requests_from.
  induction trace as [|[e q] trace IH]; simpl; [reflexivity|].
  unfold api_request_from at 1.
  destruct (under_api q); cbn [andb];
    destruct (bool_decide (ip q = addr)); simpl; lia.
Qed.

End GeneralFacts.

(** X10.  The general limiter allows 100 requests per address and
    window on all of [/api/].  Let a request under [/api/] find no open
    window of its address; the window it opens ends at most 15 minutes
    later.  If at least 99 further requests under [/api/] from that
    address follow inside the window (to any route and with any outcome,
    other requests coming in between), the next request under [/api/]
    from the address inside the window is answered 429 with the general
    limiter's message and changes neither the collection, nor the mail
    trace, nor the submission limiter's counts.  If fewer than 99
    requests from the address followed, the general limiter lets it
    through. *)
Theorem hundred_and_first_request_is_rejected (v : Variant) s e1 r1 rest e r :
  let addr := ip r1 in
  let t_end := window_end (limiter_timing e1) (15 * 60 * 1000) (now r1) in
  let served := fst (serve (server v) s ((e1, r1) :: rest)) in
  More.under_api r1 = true -> More.no_open_general_window s addr (now r1) ->
  Forall (fun q : Env * Request => now (snd q) < t_end) rest ->
  More.under_api r = true -> ip r = addr -> now r < t_end ->
  ((99 <= More.api_requests addr rest)%nat ->
   snd (server v e served r) =
     {| statusCode := 429;
        payload := Text (RateLimit.message (general_options v)) |} /\
   More.same_data served (fst (server v e served r)) /\
   contactLimiter_store (fst (server v e served r)) =
     contactLimiter_store served) /\
  ((More.requests_from addr rest < 99)%nat ->
   More.passes_general v served r) /\
  now r1 < t_end <= now r1 + 15 * 60 * 1000.
Proof.
  intros addr t_end served Hu1 Hclosed Hrest Hu Hip Ht.
  pose proof (LimiterFacts.window_end_bounds (limiter_timing e1)
                (15 * 60 * 1000) (now r1) eq_refl) as [Hbounds _].
  assert (Hw : More.general_window addr t_end
                 (1 + More.api_requests addr rest) served).
  { pose proof (GeneralFacts.general_opens v e1 s r1 Hu1 Hclosed) as H1.
    subst served. cbn [serve].
    destruct (server v e1 s r1) as [s1 a1].
    pose proof (GeneralFacts.general_trace v addr t_end rest 1 s1 Hrest H1)
      as H.
    destruct (serve (server v) s1 rest) as [s2 answers]. exact H. }
  destruct Hw as (w & Hw & Hh & Hreset).
  assert (Hhits : hits_after (limiter_store served) (ip r) (now r) =
                  Z.of_nat (More.api_requests addr rest) + 2).
  { unfold hits_after. rewrite Hip, Hw.
    assert ((now r <? resetTime w) = true) as -> by (apply Z.ltb_lt; lia).
    lia. }
  split; [|split; [|exact Hbounds]].
  - intros Hmany.
    assert (Hg : admits (general_options v) (limiter_store served)
                   (ip r) (now r) = false).
    { unfold admits. rewrite Hhits, GeneralFacts.general_max.
      apply negb_false_iff, Z.ltb_lt. lia. }
    rewrite GeneralFacts.general_first, Hu.
    rewrite StackFacts.rateLimit_rejects by exact Hg.
    repeat split.
  - intros Hfew. unfold More.passes_general, admits.
    rewrite Hhits, GeneralFacts.general_max.
    pose proof (GeneralFacts.api_requests_le addr rest).
    apply negb_true_iff, Z.ltb_ge. lia.
Qed.

Lemma hundred_and_first_request_is_rejected_witness :
  let rest := List.repeat (Sample.world, Sample.health_request 1) 99 in
  let served :=
    fst (serve (server second) Sample.fresh
           ((Sample.world, Sample.health_request 0) :: rest)) in
  snd (server second Sample.world served (Sample.submission 2 Sample.ann)) =
    {| statusCode := 429;
       payload := Text (RateLimit.message (general_options second)) |} /\
  More.same_data served
    (fst (server second Sample.world served
            (Sample.submission 2 Sample.ann))) /\
  contactLimiter_store
    (fst (server second Sample.world served
            (Sample.submission 2 Sample.ann))) =
    contactLimiter_store served.
Proof.
  assert (Hrest :
    Forall (fun q : Env * Request =>
              now (snd q) <
              window_end (limiter_timing Sample.world) (15 * 60 * 1000)
                (now (Sample.health_request 0)))
      (List.repeat (Sample.world, Sample.health_request 1) 99)).
  { apply List.Forall_forall. intros q Hq. apply repeat_spec in Hq.
    subst q. reflexivity. }
  apply (proj1 (hundred_and_first_request_is_rejected second Sample.fresh
                  Sample.world (Sample.health_request 0)
                  (List.repeat (Sample.world, Sample.health_request 1) 99)
                  Sample.world (Sample.submission 2 Sample.ann)
                  eq_refl I Hrest eq_refl eq_refl eq_refl)).
  vm_compute. lia.
Defined.

(* ===================================================================== *)
(** * More on the submission endpoint *)
(* ===================================================================== *)

Module SubmitMore.
Import Http Express RateLimit World Common Spec More StackFacts.

(** ** Trimming *)

Lemma trimStart_head s c s' :
  JS.trimStart s = c :: s' -> JS.is_space c = false.
Proof.
  induction s as [|d s IH]; simpl; [discriminate|].
  destruct (JS.is_space d) eqn:E; [exact IH|].
  intros [= <- _]. exact E.
Qed.

(** [trimStart] leaves the end of a text that does not end in white
    space. *)
Lemma trimStart_last u c :
  JS.is_space c = false -> exists u', JS.trimStart (u ++ [c]) = u' ++ [c].
Proof.
  intros Hc. induction u as [|d u IH]; simpl.
  - rewrite Hc. exists []. reflexivity.
  - destruct (JS.is_space d); [exact IH|]. exists (d :: u). reflexivity.
Qed.

Lemma trim_trimmed s : trimmed (JS.trim s).
Proof.
  unfold trimmed, JS.trim, JS.trimEnd. split.
  - intros c s' H.
    destruct (JS.trimStart s) as [|c0 t] eqn:Et; [discriminate H|].
    pose proof (trimStart_head s c0 t Et) as Hc0.
    destruct (trimStart_last (rev t) c0 Hc0) as (u' & Hu).
    simpl rev in H. rewrite Hu, rev_app_distr in H. simpl in H.
    injection H as <- _. exact Hc0.
  - intros s' c H.
    apply (f_equal (@rev N)) in H. rewrite rev_involutive, rev_app_distr in H.
    simpl in H. eapply trimStart_head. exact H.
Qed.

Lemma toLowerCase_lower_case s : lower_case (JS.toLowerCase s).
Proof.
  unfold lower_case, JS.toLowerCase. apply Forall_map, Forall_forall.
  intros c _. unfold JS.lower.
  destruct ((65 <=? c) && (c <=? 90))%N eqn:E.
  - apply andb_true_iff in E as [E1 E2].
    apply N.leb_le in E1, E2. lia.
  - apply andb_false_iff in E. rewrite !N.leb_gt in E. lia.
Qed.

(** ** The schema on a document built from an accepted payload *)

Lemma check_path_required v required_msg ok msg :
  (v <> [] -> ok = true) ->
  Persisting.check_path v required_msg ok msg =
    match v with
    | [] => [js required_msg]
    | _ :: _ => []
    end.
Proof.
  destruct v as [|c v]; simpl; [reflexivity|].
  intros H. rewrite H by discriminate. reflexivity.
Qed.

(** After the input validator, only the [required] validators of the
    schema can still object. *)
Lemma schema_after_validator r nm em msg i t :
  accepted r nm em msg ->
  Persisting.contactSchema
    {| _id := i; name := JS.trim nm; email := JS.toLowerCase (JS.trim em);
       message := JS.trim msg; ipAddress := ip r;
       userAgent := Persisting.userAgent_of r; createdAt := t;
       status := js "unread" |} = required_errors nm msg (ip r).
Proof.
  intros (_ & _ & _ & _ & He & _ & L1 & L2 & T).
  unfold Persisting.contactSchema, required_errors.
  cbn [name email message ipAddress userAgent status].
  rewrite (check_path_required (JS.trim nm))
    by (intros _; apply Z.leb_le; pose proof (EmailFacts.trim_length nm); lia).
  rewrite (check_path_required (JS.trim msg))
    by (intros _; apply Z.leb_le; pose proof (EmailFacts.trim_length msg); lia).
  rewrite (check_path_required (ip r)) by reflexivity.
  rewrite (SubmitFacts.check_path_ok (JS.toLowerCase (JS.trim em))).
  - rewrite (SubmitFacts.check_path_ok (Persisting.userAgent_of r))
      by (try apply SubmitFacts.userAgent_of_nonempty; reflexivity).
    change (JS.includes Persisting.statuses (js "unread")) with true.
    cbn [app]. rewrite app_nil_r. reflexivity.
  - rewrite EmailFacts.trim_no_space
      by (apply EmailFacts.matching_email_no_space; exact T).
    destruct em; [congruence | discriminate].
  - apply EmailFacts.stored_email_matches. exact T.
Qed.

(** What the handler proper does when the schema objects. *)
Lemma persisting_submit_invalid e r s nm em msg :
  accepted r nm em msg -> required_errors nm msg (ip r) <> [] ->
  snd (Persisting.submit e r s) =
    validation_error (required_errors nm msg (ip r)) /\
  contacts (fst (Persisting.submit e r s)) = contacts s /\
  events (fst (Persisting.submit e r s)) = events s.
Proof.
  intros Ha Herr.
  pose proof (schema_after_validator r nm em msg (next_id s) (now r) Ha) as Hs.
  destruct Ha as (En & Ee & Em & _).
  unfold Persisting.submit, try_catch, bind, Persisting.new_Contact,
    Persisting.save, ret.
  rewrite En, Ee, Em. cbn [JS.ToString]. rewrite Hs.
  destruct (required_errors nm msg (ip r)) as [|x errs]; [congruence|].
  repeat split.
Qed.

(** What it does when the database does not answer. *)
Lemma persisting_submit_offline e r s nm em msg :
  accepted r nm em msg -> required_errors nm msg (ip r) = [] ->
  db_up e = false ->
  snd (Persisting.submit e r s) =
    res_json 500
      (envelope false "Internal server error. Please try again later.") /\
  contacts (fst (Persisting.submit e r s)) = contacts s /\
  events (fst (Persisting.submit e r s)) = events s.
Proof.
  intros Ha Herr Hdb.
  pose proof (schema_after_validator r nm em msg (next_id s) (now r) Ha) as Hs.
  destruct Ha as (En & Ee & Em & _).
  unfold Persisting.submit, try_catch, bind, Persisting.new_Contact,
    Persisting.save, ret.
  rewrite En, Ee, Em. cbn [JS.ToString]. rewrite Hs, Herr, Hdb.
  repeat split.
Qed.

Lemma counted_data general contact e s r :
  contacts (counted general contact e s r) = contacts s /\
  events (counted general contact e s r) = events s /\
  next_id (counted general contact e s r) = next_id s.
Proof. repeat split. Qed.

(** ** The answers of the validators *)

Lemma validator_missing v e s r :
  missing (b_name (body r)) \/ missing (b_email (body r)) \/
    missing (b_message (body r)) ->
  validator v e s r =
    Respond s (res_json 400 (envelope false "All fields are required")).
Proof.
  rewrite <- !ValidatorFacts.falsy_missing, <- !orb_true_iff, orb_assoc.
  intros H. destruct v; simpl validator;
    unfold EmailOnly.validateContactInput, Persisting.validateContactInput;
    cbv zeta; rewrite H; reflexivity.
Qed.

Lemma validator_present v e s r nm em msg :
  b_name (body r) = Some nm -> b_email (body r) = Some em ->
  b_message (body r) = Some msg -> nm <> [] -> em <> [] -> msg <> [] ->
  validator v e s r =
    if 100 <? JS.length nm then Respond s (too_long_name v)
    else if 1000 <? JS.length msg then Respond s (too_long_message v)
    else if RegExp.test emailRegex em then Next s
    else Respond s (bad_email v).
Proof.
  intros En Ee Em Hn He Hm.
  destruct nm; [congruence|]. destruct em; [congruence|].
  destruct msg; [congruence|].
  destruct v; simpl validator;
    unfold EmailOnly.validateContactInput, Persisting.validateContactInput;
    cbv zeta; rewrite En, Ee, Em;
    cbn [JS.falsy orb JS.length_of JS.ToString];
    destruct (100 <? _); cbn [orb]; try reflexivity;
    destruct (1000 <? _); cbn [orb]; try reflexivity;
    destruct (RegExp.test emailRegex _); reflexivity.
Qed.

(** Behind the limiters the answer is the validator's, when it has
    one. *)
Lemma validator_answers v e s r resp :
  is_submission r -> reaches_validator v s r ->
  validator v e (counted (general_options v) (contact_options v) e s r) r =
    Respond (counted (general_options v) (contact_options v) e s r) resp ->
  server v e s r =
    (counted (general_options v) (contact_options v) e s r, resp).
Proof.
  intros Hr Hl Hv. destruct v; simpl server; simpl validator in Hv;
    simpl general_options in *; simpl contact_options in *.
  - rewrite emailonly_behind_limiters by assumption. cbv zeta.
    rewrite Hv. reflexivity.
  - rewrite persisting_behind_limiters by assumption. cbv zeta.
    rewrite Hv. reflexivity.
Qed.

(** ** The newest record comes first *)

Lemma sort_desc_newest l c :
  Forall (fun d => createdAt d < createdAt c) l ->
  Persisting.sort_desc (l ++ [c]) = c :: Persisting.sort_desc l.
Proof.
  unfold Persisting.sort_desc. rewrite foldr_app. simpl.
  induction 1 as [|d l Hd _ IH]; simpl; [reflexivity|].
  rewrite IH. simpl.
  assert ((createdAt c <=? createdAt d) = false) as ->
    by (apply Z.leb_gt; exact Hd).
  reflexivity.
Qed.

End SubmitMore.

(** X11.  What the schema can still refuse.  For a payload that the
    input validator of the persisting server accepts, the only
    validators of the schema that can fail are the [required] ones: of
    the name or the message when it consists of white space only, and of
    the client address when it is empty.  When one of them fails the
    answer is 400 with the message "Validation error" and exactly these
    messages as [errors], whether or not the database answers; no record
    is stored and no mail is sent. *)
Theorem schema_rejection_is_400 e s r nm em msg :
  is_submission r -> reaches_validator second s r -> accepted r nm em msg ->
  More.required_errors nm msg (ip r) <> [] ->
  snd (server second e s r) =
    More.validation_error (More.required_errors nm msg (ip r)) /\
  contacts (fst (server second e s r)) = contacts s /\
  events (fst (server second e s r)) = events s.
Proof.
  intros Hr Hl Ha Herr. simpl server.
  rewrite (SubmitFacts.persisting_accepted e s r nm em msg) by assumption.
  apply (SubmitMore.persisting_submit_invalid e r
           (counted Persisting.limiter_options
              Persisting.contactLimiter_options e s r) nm em msg);
    assumption.
Qed.

Lemma schema_rejection_is_400_witness :
  let r := Sample.submission 0
             (Sample.form (Some (js " ")) (Some (js "ann@example.com"))
                (Some (js "  "))) in
  snd (server second Sample.world Sample.fresh r) =
    More.validation_error [js "Name is required"; js "Message is required"] /\
  contacts (fst (server second Sample.world Sample.fresh r)) = [] /\
  events (fst (server second Sample.world Sample.fresh r)) = [].
Proof.
  apply (schema_rejection_is_400 Sample.world Sample.fresh
           (Sample.submission 0
              (Sample.form (Some (js " ")) (Some (js "ann@example.com"))
                 (Some (js "  "))))
           (js " ") (js "ann@example.com") (js "  ")).
  - split; reflexivity.
  - split; vm_compute; reflexivity.
  - repeat split; try discriminate; vm_compute; congruence.
  - vm_compute. discriminate.
Defined.

(** X12.  A submission while the database is down.  When the input
    validator and the schema accept the payload but the database does not
    answer, the persisting server answers 500 "Internal server error.
    Please try again later."; no record is stored and no notification is
    attempted, so the submission is lost without the owner hearing of
    it. *)
Theorem submission_without_database e s r nm em msg :
  is_submission r -> reaches_validator second s r -> accepted r nm em msg ->
  More.required_errors nm msg (ip r) = [] -> db_up e = false ->
  snd (server second e s r) =
    res_json 500
      (envelope false "Internal server error. Please try again later.") /\
  contacts (fst (server second e s r)) = contacts s /\
  events (fst (server second e s r)) = events s.
Proof.
  intros Hr Hl Ha Herr Hdb. simpl server.
  rewrite (SubmitFacts.persisting_accepted e s r nm em msg) by assumption.
  apply (SubmitMore.persisting_submit_offline e r
           (counted Persisting.limiter_options
              Persisting.contactLimiter_options e s r) nm em msg);
    assumption.
Qed.

Lemma submission_without_database_witness :
  let e := {| OWNER_EMAIL := js "owner@example.com";
              limiter_timing := PerClient; db_up := false;
              castObjectId := Sample.hex24; smtp := fun _ => None |} in
  let r := Sample.submission 0 Sample.ann in
  snd (server second e Sample.fresh r) =
    res_json 500
      (envelope false "Internal server error. Please try again later.") /\
  contacts (fst (server second e Sample.fresh r)) = contacts Sample.fresh /\
  events (fst (server second e Sample.fresh r)) = events Sample.fresh.
Proof.
  intros e r.
  apply (submission_without_database e Sample.fresh r
           (js "Ann") (js "ann@example.com") (js "Hi")).
  - split; reflexivity.
  - split; vm_compute; reflexivity.
  - repeat split; try discriminate; vm_compute; congruence.
  - reflexivity.
  - reflexivity.
Defined.

(** X13.  The e-mail only server on an accepted submission.  It sends
    the owner's notification (to [OWNER_EMAIL], with name, e-mail and
    message as submitted) and then, only if that send succeeded, the
    acknowledgment to the submitted address; nothing else is sent and
    nothing is stored.  The answer is 200 when both sends succeeded and
    otherwise 500 "Failed to send message. Please try again later.". *)
Theorem emailonly_submission_outcomes e s r nm em msg :
  is_submission r -> reaches_validator first s r -> accepted r nm em msg ->
  events (fst (server first e s r)) =
    events s ++
    Mailed (ownerMail e nm em msg) (delivers e (ownerMail e nm em msg)) ::
    (if delivers e (ownerMail e nm em msg)
     then [Mailed (userMail nm em msg) (delivers e (userMail nm em msg))]
     else []) /\
  to (ownerMail e nm em msg) = OWNER_EMAIL e /\
  content (ownerMail e nm em msg) = OwnerText nm em msg /\
  to (userMail nm em msg) = em /\
  contacts (fst (server first e s r)) = contacts s /\
  snd (server first e s r) =
    if delivers e (ownerMail e nm em msg) && delivers e (userMail nm em msg)
    then res_json 200
           (envelope true
              "Message sent successfully. Check your email for confirmation!")
    else res_json 500
           (envelope false "Failed to send message. Please try again later.").
Proof.
  intros Hr Hl Ha. simpl server.
  rewrite (SubmitFacts.emailonly_accepted e s r nm em msg) by assumption.
  destruct (SubmitFacts.emailonly_submit e r
              (counted EmailOnly.limiter_options
                 EmailOnly.contactLimiter_options e s r) nm em msg Ha)
    as (Hc & Hev & Hresp).
  rewrite Hc, Hev, Hresp. repeat split.
Qed.

Lemma emailonly_submission_outcomes_witness :
  let e := Sample.world_without_mail in
  let r := Sample.submission 0 Sample.ann in
  events (fst (server first e Sample.fresh r)) =
    [Mailed (ownerMail e (js "Ann") (js "ann@example.com") (js "Hi")) false] /\
  snd (server first e Sample.fresh r) =
    res_json 500
      (envelope false "Failed to send message. Please try again later.").
Proof.
  intros e r.
  destruct (emailonly_submission_outcomes e Sample.fresh r
              (js "Ann") (js "ann@example.com") (js "Hi"))
    as (Hev & _ & _ & _ & _ & Hresp).
  - split; reflexivity.
  - split; vm_compute; reflexivity.
  - repeat split; try discriminate; vm_compute; congruence.
  - split; [exact Hev | exact Hresp].
Defined.

(** X14.  What is stored is normalised, what is mailed is not.  The
    record the persisting server stores for an accepted submission holds
    the name and the message without white space at either end, the
    e-mail in lower case (and still matching the pattern), the client
    address, the time of the request, and the [User-Agent] header or
    "Unknown" when the header is absent or empty; the notification
    mails carry name, e-mail and message as they were submitted. *)
Theorem stored_record_is_normalised e s r nm em msg :
  is_submission r -> reaches_validator second s r ->
  accepted r nm em msg -> storable e r nm msg ->
  exists c,
    contacts (fst (server second e s r)) = contacts s ++ [c] /\
    name c = JS.trim nm /\ More.trimmed (name c) /\
    message c = JS.trim msg /\ More.trimmed (message c) /\
    email c = JS.toLowerCase em /\ More.lower_case (email c) /\
    RegExp.test emailRegex (email c) = true /\
    ipAddress c = ip r /\ createdAt c = now r /\
    userAgent c = match user_agent r with
                  | Some (x :: ua) => x :: ua
                  | _ => js "Unknown"
                  end /\
    events (fst (server second e s r)) =
      events s ++ Saved c :: notifications e nm em msg.
Proof.
  intros Hr Hl Ha Hst.
  assert (Hmatch : RegExp.test emailRegex em = true) by apply Ha.
  simpl server.
  rewrite (SubmitFacts.persisting_accepted e s r nm em msg) by assumption.
  set (s2 := counted _ _ e s r).
  assert (Hua : forall c : Contact,
             contacts (fst (Persisting.submit e r s2)) = contacts s2 ++ [c] ->
             userAgent c = Persisting.userAgent_of r).
  { intros c. destruct Hst as (Hdb & Hn & Hm & Hip).
    pose proof (SubmitFacts.schema_accepts r nm em msg (next_id s2) (now r)
                  Ha Hn Hm Hip) as Hs.
    destruct Ha as (En & Ee & Em & _).
    unfold Persisting.submit, try_catch, bind, Persisting.new_Contact,
      Persisting.save, sendMail, ret.
    rewrite En, Ee, Em. cbn [JS.ToString].
    rewrite Hs, Hdb.
    destruct (smtp e (ownerMail _ _ _ _));
      [|destruct (smtp e (userMail _ _ _))];
      cbn [fst contacts log set_contacts set_next_id];
      intros H; apply app_inv_head in H; injection H as <-; reflexivity. }
  destruct (SubmitFacts.persisting_submit_stored e r s2 nm em msg Ha Hst)
    as (c & _ & Hname & Hemail & Hmsg & Hip & Ht & _ & Hc & Hev & _).
  exists c. rewrite Hc, Hev.
  assert (Hem : email c = JS.toLowerCase em).
  { rewrite Hemail, EmailFacts.trim_no_space
      by (apply EmailFacts.matching_email_no_space; exact Hmatch).
    reflexivity. }
  repeat split; try assumption.
  - rewrite Hname. apply SubmitMore.trim_trimmed.
  - rewrite Hname in *. intros s' c0 E.
    pose proof (SubmitMore.trim_trimmed nm) as [_ H]. eapply H, E.
  - rewrite Hmsg. apply SubmitMore.trim_trimmed.
  - rewrite Hmsg in *. intros s' c0 E.
    pose proof (SubmitMore.trim_trimmed msg) as [_ H]. eapply H, E.
  - rewrite Hem. apply SubmitMore.toLowerCase_lower_case.
  - rewrite Hem, EmailFacts.lowercase_keeps_match. exact Hmatch.
  - rewrite (Hua c Hc). unfold Persisting.userAgent_of.
    destruct (user_agent r) as [[|x ua]|]; reflexivity.
Qed.

Lemma stored_record_is_normalised_witness :
  let r := {| method := POST; path := [js "api"; js "contact"];
              ip := Sample.client; now := 7; user_agent := None;
              body := Sample.form (Some (js "  Ann "))
                        (Some (js "Ann@Example.COM")) (Some (js "Hi  "));
              query := Sample.no_query |} in
  exists c,
    contacts (fst (server second Sample.world Sample.fresh r)) = [c] /\
    name c = js "Ann" /\ message c = js "Hi" /\
    email c = js "ann@example.com" /\ userAgent c = js "Unknown".
Proof.
  intros r.
  destruct (stored_record_is_normalised Sample.world Sample.fresh r
              (js "  Ann ") (js "Ann@Example.COM") (js "Hi  "))
    as (c & Hc & Hn & _ & Hm & _ & He & _ & _ & _ & _ & Hua & _).
  - split; reflexivity.
  - split; vm_compute; reflexivity.
  - repeat split; try discriminate; vm_compute; congruence.
  - repeat split; try discriminate; vm_compute; congruence.
  - exists c. repeat split; assumption.
Defined.

(** X15.  The messages of the input validators.  Behind the limiters,
    either validator answers a submission with a missing or empty field
    by 400 "All fields are required"; with all fields present, a name of
    more than 100 characters by "Name cannot exceed 100 characters" (the
    first server: "Input too long"); otherwise a message of more than
    1000 characters by "Message cannot exceed 1000 characters" ("Input
    too long"); otherwise an e-mail that does not match the pattern by
    "Please provide a valid email address" ("Invalid email address").
    The checks are made in this order, and only the first defect is
    reported. *)
Theorem validator_messages v e s r :
  is_submission r -> reaches_validator v s r ->
  let answer := snd (server v e s r) in
  (missing (b_name (body r)) \/ missing (b_email (body r)) \/
     missing (b_message (body r)) ->
   answer = res_json 400 (envelope false "All fields are required")) /\
  (forall nm em msg,
     b_name (body r) = Some nm -> b_email (body r) = Some em ->
     b_message (body r) = Some msg -> nm <> [] -> em <> [] -> msg <> [] ->
     (100 < JS.length nm -> answer = More.too_long_name v) /\
     (JS.length nm <= 100 -> 1000 < JS.length msg ->
      answer = More.too_long_message v) /\
     (JS.length nm <= 100 -> JS.length msg <= 1000 ->
      RegExp.test emailRegex em = false -> answer = More.bad_email v)).
Proof.
  intros Hr Hl answer. subst answer. split.
  - intros Hmiss.
    rewrite (SubmitMore.validator_answers v e s r _ Hr Hl
               (SubmitMore.validator_missing v e _ r Hmiss)).
    reflexivity.
  - intros nm em msg En Ee Em Hn He Hm.
    pose proof (SubmitMore.validator_present v e
                  (counted (general_options v) (contact_options v) e s r)
                  r nm em msg En Ee Em Hn He Hm) as Hv.
    repeat split.
    + intros L1. apply Z.ltb_lt in L1. rewrite L1 in Hv.
      rewrite (SubmitMore.validator_answers v e s r _ Hr Hl Hv). reflexivity.
    + intros L1 L2. apply Z.ltb_ge in L1. apply Z.ltb_lt in L2.
      rewrite L1, L2 in Hv.
      rewrite (SubmitMore.validator_answers v e s r _ Hr Hl Hv). reflexivity.
    + intros L1 L2 T. apply Z.ltb_ge in L1, L2. rewrite L1, L2, T in Hv.
      rewrite (SubmitMore.validator_answers v e s r _ Hr Hl Hv). reflexivity.
Qed.

Lemma validator_messages_witness :
  let r := Sample.submission 0
             (Sample.form (Some (List.repeat 120%N 101))
                (Some (js "not an address"))
                (Some (List.repeat 120%N 1001))) in
  snd (server second Sample.world Sample.fresh r) =
    res_json 400 (envelope false "Name cannot exceed 100 characters").
Proof.
  intros r.
  destruct (validator_messages second Sample.world Sample.fresh r)
    as [_ H].
  - split; reflexivity.
  - split; vm_compute; reflexivity.
  - apply (H (List.repeat 120%N 101) (js "not an address")
             (List.repeat 120%N 1001));
      try reflexivity; try discriminate.
Defined.

(** X16.  A new submission heads the admin list.  After the persisting
    server has stored an accepted submission that is more recent than
    every record of the collection, the first page of
    [GET /api/contacts] without status filter starts with that record:
    its id, the trimmed name and message, the lower-cased e-mail, the
    time of the submission and the status "unread", without client
    address and user agent. *)
Theorem newest_submission_heads_the_list e s r nm em msg e' r' :
  is_submission r -> reaches_validator second s r ->
  accepted r nm em msg -> storable e r nm msg ->
  Forall (fun d => createdAt d < now r) (contacts s) ->
  method r' = GET -> path r' = [js "api"; js "contacts"] ->
  More.passes_general second (fst (server second e s r)) r' ->
  db_up e' = true ->
  default 1%N (q_page (query r')) = 1%N ->
  (1 <= default 10%N (q_limit (query r')))%N ->
  q_status (query r') = None ->
  exists oid rest,
    More.data_of (snd (server second e' (fst (server second e s r)) r')) =
      JObj [ (js "_id", JId oid);
             (js "name", JStr (JS.trim nm));
             (js "email", JStr (JS.toLowerCase em));
             (js "message", JStr (JS.trim msg));
             (js "createdAt", JDate (now r));
             (js "status", JStr (js "unread"));
             (js "__v", JNum 0) ] :: rest.
Proof.
  intros Hr Hl Ha Hst Hold Hm' Hp' Hg' Hdb' Hpage Hsize Hstatus.
  assert (Hmatch : RegExp.test emailRegex em = true) by apply Ha.
  revert Hg'. simpl server.
  rewrite (SubmitFacts.persisting_accepted e s r nm em msg) by assumption.
  destruct (SubmitFacts.persisting_submit_stored e r
              (counted Persisting.limiter_options
                 Persisting.contactLimiter_options e s r) nm em msg Ha Hst)
    as (c & _ & Hname & Hemail & Hmsg & _ & Ht & Hstat & Hc & _ & _).
  revert Hc. generalize (fst (Persisting.submit e r
              (counted Persisting.limiter_options
                 Persisting.contactLimiter_options e s r))).
  intros s1 Hc Hg'. cbn [counted contacts set_contactLimiter_store
                         set_limiter_store] in Hc.
  rewrite AdminFacts.list_route by assumption.
  rewrite AdminFacts.listContacts_answer
    by (assumption || (rewrite Hpage; reflexivity)).
  cbn [snd More.data_of payload res_json field assoc].
  change (JS.eqb (js "data") (js "success")) with false.
  change (JS.eqb (js "data") (js "data")) with true. cbv iota.
  rewrite Hpage, Hstatus. cbn [selected counted_api contacts set_limiter_store].
  rewrite Hc, SubmitMore.sort_desc_newest
    by (rewrite Ht; exact Hold).
  unfold page_slice. change ((N.to_nat 1 - 1) * _)%nat with 0%nat.
  cbn [skipn].
  destruct (N.to_nat (default 10%N (q_limit (query r')))) as [|n] eqn:En;
    [lia|].
  cbn [firstn map]. exists (_id c). eexists.
  unfold public_view. rewrite Hname, Hemail, Hmsg, Ht, Hstat.
  rewrite (EmailFacts.trim_no_space em)
    by (apply EmailFacts.matching_email_no_space; exact Hmatch).
  reflexivity.
Qed.

Lemma newest_submission_heads_the_list_witness :
  let r := {| method := POST; path := [js "api"; js "contact"];
              ip := Sample.client; now := 99000; user_agent := None;
              body := Sample.form (Some (js " Bob "))
                        (Some (js "Bob@Example.com")) (Some (js "Hello"));
              query := Sample.no_query |} in
  let r' := Sample.list_request 99001 Sample.no_query in
  exists oid rest,
    More.data_of
      (snd (server second Sample.world
              (fst (server second Sample.world Sample.archive r)) r')) =
      JObj [ (js "_id", JId oid);
             (js "name", JStr (JS.trim (js " Bob ")));
             (js "email", JStr (JS.toLowerCase (js "Bob@Example.com")));
             (js "message", JStr (JS.trim (js "Hello")));
             (js "createdAt", JDate (now r));
             (js "status", JStr (js "unread"));
             (js "__v", JNum 0) ] :: rest.
Proof.
  intros r r'.
  apply (newest_submission_heads_the_list Sample.world Sample.archive r
           (js " Bob ") (js "Bob@Example.com") (js "Hello")
           Sample.world r');
    try reflexivity.
  - split; reflexivity.
  - split; vm_compute; reflexivity.
  - repeat split; try discriminate; vm_compute; congruence.
  - repeat split; try discriminate; vm_compute; congruence.
  - apply List.Forall_forall. intros d Hd. vm_compute in Hd.
    repeat (destruct Hd as [<-|Hd]; [reflexivity|]). destruct Hd.
  - vm_compute. discriminate.
Defined.

(** X17.  The two input validators accept the same payloads.  On every
    request the validators of the two servers decide alike: both call
    [next()], and that exactly when the three fields are present and
    non-empty, the name has at most 100 and the message at most 1000
    characters (both bounds included) and the e-mail matches the
    pattern; or both answer 400.  Neither changes the state. *)
Theorem validators_agree e s r :
  ((exists nm em msg, accepted r nm em msg) ->
   validator first e s r = Next s /\ validator second e s r = Next s) /\
  (~ (exists nm em msg, accepted r nm em msg) ->
   exists resp1 resp2,
     validator first e s r = Respond s resp1 /\
     validator second e s r = Respond s resp2 /\
     statusCode resp1 = 400 /\ statusCode resp2 = 400).
Proof.
  split.
  - intros Ha. split; simpl validator.
    + apply ValidatorFacts.emailonly_validator_next. auto.
    + apply ValidatorFacts.persisting_validator_next. auto.
  - intros Hno. simpl validator.
    destruct (EmailOnly.validateContactInput e s r) as [s1|s1 resp1] eqn:E1.
    { apply ValidatorFacts.emailonly_validator_next in E1 as [_ Ha].
      destruct (Hno Ha). }
    destruct (Persisting.validateContactInput e s r) as [s2|s2 resp2] eqn:E2.
    { apply ValidatorFacts.persisting_validator_next in E2 as [_ Ha].
      destruct (Hno Ha). }
    apply ValidatorFacts.emailonly_validator_answer in E1 as [-> H1].
    apply ValidatorFacts.persisting_validator_answer in E2 as [-> H2].
    exists resp1, resp2. auto.
Qed.

Lemma validators_agree_witness :
  let r := Sample.submission 0
             (Sample.form (Some (List.repeat 120%N 100))
                (Some (js "ann@example.com"))
                (Some (List.repeat 120%N 1000))) in
  validator first Sample.world Sample.fresh r = Next Sample.fresh /\
  validator second Sample.world Sample.fresh r = Next Sample.fresh.
Proof.
  intros r.
  apply (proj1 (validators_agree Sample.world Sample.fresh r)).
  exists (List.repeat 120%N 100), (js "ann@example.com"),
    (List.repeat 120%N 1000).
  repeat split; try discriminate; vm_compute; congruence.
Defined.

(* ===================================================================== *)
(** * More on the e-mail pattern *)
(* ===================================================================== *)

Module EmailMore.
Import Http Express RateLimit World Common Spec More.

Lemma word_run_chars w :
  word_run w -> Forall (fun c => JS.is_word c = true) w /\ w <> [].
Proof. intros [Hne Hw]. split; assumption. Qed.

Lemma group_chars u :
  group u -> Forall (fun c => JS.is_word c = true \/ c = 46%N \/ c = 45%N) u.
Proof.
  intros (sp & w & -> & Hsp & _ & Hw).
  apply Forall_app. split.
  - destruct Hsp as [->|[->| ->]];
      [ constructor
      | constructor; [right; left; reflexivity | constructor]
      | constructor; [right; right; reflexivity | constructor] ].
  - eapply List.Forall_impl; [|exact Hw]. intros c Hc. left. exact Hc.
Qed.

Lemma separated_words_chars x :
  separated_words x ->
  Forall (fun c => JS.is_word c = true \/ c = 46%N \/ c = 45%N) x.
Proof.
  intros (w & gs & -> & [_ Hw] & Hgs).
  apply Forall_app. split.
  - eapply List.Forall_impl; [|exact Hw]. intros c Hc. left. exact Hc.
  - induction Hgs as [|g gs Hg _ IH]; simpl; [constructor|].
    apply Forall_app. split; [apply group_chars; exact Hg | exact IH].
Qed.

Lemma separated_words_head x :
  separated_words x -> exists c rest, x = c :: rest /\ JS.is_word c = true.
Proof.
  intros (w & gs & -> & [Hne Hw] & _).
  destruct w as [|c w]; [congruence|].
  exists c, (w ++ concat gs). split; [reflexivity|].
  apply Forall_cons in Hw as [Hc _]. exact Hc.
Qed.

Lemma final_segment_chars seg :
  final_segment JS.is_word seg ->
  Forall (fun c => JS.is_word c = true \/ c = 46%N \/ c = 45%N) seg /\
  (3 <= List.length seg)%nat.
Proof.
  intros (cs & -> & [Hlo _] & Hcs). split.
  - constructor; [right; left; reflexivity|].
    eapply List.Forall_impl; [|exact Hcs]. intros c Hc. left. exact Hc.
  - simpl. lia.
Qed.

Lemma final_segments_chars segs :
  Forall (final_segment JS.is_word) segs ->
  Forall (fun c => JS.is_word c = true \/ c = 46%N \/ c = 45%N) (concat segs).
Proof.
  induction 1 as [|seg segs Hseg _ IH]; simpl; [constructor|].
  apply Forall_app. split; [apply final_segment_chars; exact Hseg | exact IH].
Qed.

(** No [@] among word characters, dots and hyphens. *)
Lemma no_at x :
  Forall (fun c => JS.is_word c = true \/ c = 46%N \/ c = 45%N) x ->
  count_occ N.eq_dec x 64%N = 0%nat.
Proof.
  induction 1 as [|c x Hc _ IH]; simpl; [reflexivity|].
  destruct (N.eq_dec c 64%N) as [->|_]; [|exact IH].
  destruct Hc as [Hc|[Hc|Hc]]; vm_compute in Hc; discriminate Hc.
Qed.

(** The last of the final segments. *)
Lemma last_final_segment seg segs :
  Forall (final_segment JS.is_word) (seg :: segs) ->
  exists pre cs,
    seg ++ concat segs = pre ++ 46%N :: cs /\
    (2 <= List.length cs <= 3)%nat /\
    Forall (fun c => JS.is_word c = true) cs.
Proof.
  revert seg. induction segs as [|seg' segs IH]; intros seg Hall.
  - apply Forall_cons in Hall as [(cs & -> & Hlen & Hcs) _].
    exists [], cs. simpl. rewrite app_nil_r. auto.
  - apply Forall_cons in Hall as [_ Hrest].
    destruct (IH seg' Hrest) as (pre & cs & E & Hlen & Hcs).
    exists (seg ++ pre), cs. split; [|auto].
    simpl. simpl in E. rewrite E, app_assoc. reflexivity.
Qed.

(** A text is cut at its last occurrence of a character in one way
    only. *)
Lemma last_occurrence {A} (a : A) l1 r1 l2 r2 :
  l1 ++ a :: r1 = l2 ++ a :: r2 -> ~ In a r1 -> ~ In a r2 -> r1 = r2.
Proof.
  revert l2. induction l1 as [|x l1 IH]; intros [|y l2] E H1 H2; simpl in E.
  - congruence.
  - injection E as <- E. destruct H1. rewrite E. apply in_elt.
  - injection E as -> E. destruct H2. rewrite <- E. apply in_elt.
  - injection E as _ E. eapply IH; eassumption.
Qed.

End EmailMore.

(** X18.  The anatomy of an accepted address.  A text that matches the
    e-mail pattern of the validators and of the schema consists of ASCII
    letters, digits, underscores, dots, hyphens and one [@] only: it
    contains exactly one [@], no white space, at least six characters,
    and it starts and ends with a letter, a digit or an underscore. *)
Theorem accepted_address_anatomy s :
  RegExp.test emailRegex s = true ->
  Forall More.address_char s /\
  count_occ N.eq_dec s 64%N = 1%nat /\
  Forall (fun c => JS.is_space c = false) s /\
  (6 <= List.length s)%nat /\
  (exists c rest, s = c :: rest /\ JS.is_word c = true) /\
  (exists pre c, s = pre ++ [c] /\ JS.is_word c = true).
Proof.
  intros Ht.
  pose proof (EmailFacts.matching_email_no_space s Ht) as Hsp.
  apply EmailFacts.emailRegex_shape in Ht.
  pose proof (EmailFacts.email_shape_end _ _ Ht) as Hend.
  destruct Ht as (loc & dom & seg & segs & -> & Hloc & Hdom & Hall).
  pose proof (EmailMore.separated_words_chars _ Hloc) as Cloc.
  pose proof (EmailMore.separated_words_chars _ Hdom) as Cdom.
  apply Forall_cons in Hall as [Hseg Hsegs].
  destruct (EmailMore.final_segment_chars _ Hseg) as [Cseg Lseg].
  pose proof (EmailMore.final_segments_chars _ Hsegs) as Csegs.
  destruct (EmailMore.separated_words_head _ Hloc) as (c & rest & El & Hc).
  destruct (EmailMore.separated_words_head _ Hdom) as (d & rest' & Ed & _).
  assert (Hweak : forall x,
             Forall (fun c => JS.is_word c = true \/ c = 46%N \/ c = 45%N) x ->
             Forall More.address_char x).
  { intros x. apply List.Forall_impl. unfold More.address_char. tauto. }
  repeat split.
  - apply Forall_app. split; [auto|]. apply Forall_app. split.
    + constructor; [|constructor]. unfold More.address_char. tauto.
    + apply Forall_app. split; [auto|]. apply Forall_app. split; auto.
  - rewrite !count_occ_app. simpl.
    rewrite !EmailMore.no_at by assumption. reflexivity.
  - exact Hsp.
  - rewrite El, Ed. repeat (rewrite ?length_app; simpl). lia.
  - exists c, (rest ++ [64%N] ++ dom ++ seg ++ concat segs).
    rewrite El. split; [reflexivity | exact Hc].
  - exact Hend.
Qed.

Lemma accepted_address_anatomy_witness :
  count_occ N.eq_dec (js "ann.lee@mail.example.org") 64%N = 1%nat /\
  (6 <= List.length (js "ann.lee@mail.example.org"))%nat.
Proof.
  destruct (accepted_address_anatomy (js "ann.lee@mail.example.org"))
    as (_ & H1 & _ & H2 & _).
  - vm_compute. reflexivity.
  - split; assumption.
Defined.

(** X19.  The last label has two or three characters.  In a text that
    matches the e-mail pattern, what follows the last dot is two or
    three letters, digits or underscores; an address whose last label is
    longer, such as one ending in [.info], is therefore refused by the
    validators. *)
Theorem last_label_has_two_or_three s pre suf :
  RegExp.test emailRegex s = true ->
  s = pre ++ 46%N :: suf -> ~ In 46%N suf ->
  (2 <= List.length suf <= 3)%nat /\
  Forall (fun c => JS.is_word c = true) suf.
Proof.
  intros Ht Es Hnodot.
  apply EmailFacts.emailRegex_shape in Ht.
  destruct Ht as (loc & dom & seg & segs & E & _ & _ & Hall).
  destruct (EmailMore.last_final_segment seg segs Hall)
    as (pre' & cs & E' & Hlen & Hcs).
  assert (Hcut : (loc ++ [64%N] ++ dom ++ pre') ++ 46%N :: cs =
                 pre ++ 46%N :: suf).
  { rewrite <- Es, E, E'. rewrite <- !app_assoc. reflexivity. }
  assert (Hno : ~ In 46%N cs).
  { intros Hin. rewrite List.Forall_forall in Hcs.
    specialize (Hcs _ Hin). vm_compute in Hcs. discriminate Hcs. }
  rewrite <- (EmailMore.last_occurrence _ _ _ _ _ Hcut Hno Hnodot).
  split; assumption.
Qed.

Lemma last_label_has_two_or_three_witness :
  (2 <= List.length (js "org") <= 3)%nat /\
  Forall (fun c => JS.is_word c = true) (js "org").
Proof.
  apply (last_label_has_two_or_three (js "ann@example.org")
           (js "ann@example") (js "org")).
  - vm_compute. reflexivity.
  - reflexivity.
  - vm_compute. intuition discriminate.
Defined.

(* ===================================================================== *)
(** * More on the admin list *)
(* ===================================================================== *)

Module ListMore.
Import Http Express RateLimit World Common Spec More StackFacts.

Lemma firstn_add {A} a b (l : list A) :
  firstn (a + b) l = firstn a l ++ firstn b (skipn a l).
Proof.
  revert l. induction a as [|a IH]; intros l; simpl; [reflexivity|].
  destruct l as [|x l]; simpl.
  - rewrite firstn_nil. reflexivity.
  - rewrite IH. reflexivity.
Qed.

(** The first [n] pages, one after the other, are the first [n * size]
    entries. *)
Lemma pages_concat {A} size (l : list A) n :
  concat (map (fun p => page_slice p size l) (seq 1 n)) = firstn (n * size) l.
Proof.
  induction n as [|n IH]; [reflexivity|].
  rewrite seq_S, map_app, concat_app, IH. cbn [map concat].
  rewrite app_nil_r. unfold page_slice.
  replace ((1 + n - 1) * size)%nat with (n * size)%nat by lia.
  replace (S n * size)%nat with (n * size + size)%nat by lia.
  symmetry. apply firstn_add.
Qed.

Lemma concat_map_map {A B C} (f : B -> C) (g : A -> list B) ps :
  concat (map (fun p => map f (g p)) ps) = map f (concat (map g ps)).
Proof.
  induction ps as [|p ps IH]; simpl; [reflexivity|].
  rewrite IH, map_app. reflexivity.
Qed.

Lemma page_beyond {A} size (l : list A) p :
  (List.length l <= (p - 1) * size)%nat -> page_slice p size l = [].
Proof.
  intros H. unfold page_slice. rewrite skipn_all2 by exact H.
  apply firstn_nil.
Qed.

Lemma page_length {A} size (l : list A) p :
  (List.length (page_slice p size l) <= size)%nat.
Proof. unfold page_slice. apply firstn_le_length. Qed.

(** The [data] of the list's answer to a request for page [p]. *)
Lemma page_data e s r p :
  method r = GET -> path r = [js "api"; js "contacts"] ->
  passes_general second s r -> db_up e = true ->
  (1 <= p)%N -> (1 <= default 10%N (q_limit (query r)))%N ->
  data_of (snd (server second e s (with_page p r))) =
    map public_view
      (page_slice (N.to_nat p) (N.to_nat (default 10%N (q_limit (query r))))
         (Persisting.sort_desc (selected (q_status (query r)) (contacts s)))).
Proof.
  intros Hm Hp Hg Hdb Hpage Hsize. simpl server.
  rewrite AdminFacts.list_route by assumption.
  rewrite AdminFacts.listContacts_answer by assumption.
  reflexivity.
Qed.

(** With no matching record the answer is an empty first page. *)
Lemma filter_none {A} (f : A -> bool) l :
  (forall x, In x l -> f x = false) -> List.filter f l = [].
Proof.
  induction l as [|x l IH]; intros H; simpl; [reflexivity|].
  rewrite (H x (or_introl eq_refl)). apply IH.
  intros y Hy. apply H. right. exact Hy.
Qed.

End ListMore.

(** X20.  The pages partition the list.  In a given state of the
    collection in which no two matching records have the same
    [createdAt], for a page size of at least 1 and any status filter,
    the [data] arrays of the answers to [GET /api/contacts] for the
    pages 1, 2, ..., [pages] (the number the answer reports), taken one
    after the other, are exactly the matching records, most recent
    first: no record is left out and none is shown twice.  Every page
    holds at most [limit] records and every page beyond [pages] is
    empty.  (The numbers involved are at most 2^53, the range in which
    the source's arithmetic on them is exact.) *)
Theorem pages_partition_the_list e s r :
  method r = GET -> path r = [js "api"; js "contacts"] ->
  More.passes_general second s r -> db_up e = true ->
  (1 <= default 10%N (q_limit (query r)))%N ->
  let size := default 10%N (q_limit (query r)) in
  let matching := selected (q_status (query r)) (contacts s) in
  let total := Z.of_nat (List.length matching) in
  Z.of_N size <= 2 ^ 53 -> total <= 2 ^ 53 ->
  List.NoDup (map createdAt matching) ->
  let page p := More.data_of (snd (server second e s (More.with_page p r))) in
  exists (n : nat) (ordered : list Contact),
    Permutation ordered matching /\ descending ordered /\
    Persisting.pages_of total size = JNum (Z.of_nat n) /\
    concat (map (fun p => page (N.of_nat p)) (seq 1 n)) =
      map public_view ordered /\
    (forall p, (1 <= p)%N -> More.exact_numbers p size total ->
       (List.length (page p) <= N.to_nat size)%nat) /\
    (forall p, (Z.of_nat n < Z.of_N p) -> More.exact_numbers p size total ->
       page p = []).
Proof.
  intros Hm Hp Hg Hdb Hsize size matching total _ _ _ page.
  destruct (AdminFacts.pages_of_ceiling total size Hsize)
    as (pages & Hpages & Hlo & Hhi).
  assert (Hnonneg : 0 <= pages) by (subst total; nia).
  exists (Z.to_nat pages), (Persisting.sort_desc matching).
  rewrite Z2Nat.id by exact Hnonneg.
  assert (Hlen : List.length (Persisting.sort_desc matching) =
                 List.length matching)
    by apply Permutation_length, AdminFacts.sort_desc_perm.
  assert (Hpage : forall p, (1 <= p)%N ->
             page p = map public_view
                        (page_slice (N.to_nat p) (N.to_nat size)
                           (Persisting.sort_desc matching))).
  { intros p Hp1. apply ListMore.page_data; assumption. }
  clearbody page.
  split; [apply AdminFacts.sort_desc_perm|].
  split; [apply AdminFacts.sort_desc_sorted|].
  split; [exact Hpages|]. split; [|split].
  - rewrite (map_ext_in _
               (fun p => map public_view
                           (page_slice p (N.to_nat size)
                              (Persisting.sort_desc matching)))).
    + rewrite ListMore.concat_map_map.
      rewrite ListMore.pages_concat, firstn_all2; [reflexivity|].
      rewrite Hlen. subst total. nia.
    + intros p Hin. apply in_seq in Hin.
      rewrite Hpage by lia. rewrite Nat2N.id. reflexivity.
  - intros p Hp1 _. rewrite Hpage by exact Hp1.
    rewrite length_map. apply ListMore.page_length.
  - intros p Hbeyond _. rewrite Hpage by lia.
    rewrite ListMore.page_beyond; [reflexivity|].
    rewrite Hlen. subst total. nia.
Qed.

Lemma pages_partition_the_list_witness :
  let r := Sample.list_request 0
             {| q_page := None; q_limit := Some 10%N; q_status := None |} in
  let page p :=
    More.data_of
      (snd (server second Sample.world Sample.archive (More.with_page p r))) in
  exists (n : nat) (ordered : list Contact),
    Permutation ordered (contacts Sample.archive) /\ descending ordered /\
    Persisting.pages_of 25 10 = JNum (Z.of_nat n) /\
    concat (map (fun p => page (N.of_nat p)) (seq 1 n)) =
      map public_view ordered.
Proof.
  intros r page.
  assert (Hnd : List.NoDup (map createdAt (contacts Sample.archive))).
  { vm_compute.
    repeat (constructor;
            [intros Hin; repeat (destruct Hin as [Hin|Hin];
                                 [discriminate Hin|]); destruct Hin|]).
    constructor. }
  destruct (pages_partition_the_list Sample.world Sample.archive r
              eq_refl eq_refl eq_refl eq_refl)
    as (n & ordered & Hperm & Hdesc & Hpages & Hcat & _).
  - vm_compute. discriminate.
  - vm_compute. discriminate.
  - vm_compute. discriminate.
  - exact Hnd.
  - exists n, ordered. repeat split; assumption.
Defined.

(** X21.  The status filter is not validated.  When all stored records
    pass the schema, [GET /api/contacts] with a [status] parameter that
    is neither "all" nor one of "unread", "read" and "replied" is not
    refused: the answer is 200 with an empty [data] array, [total] 0
    and [pages] 0.  (Page and page size are at least 1 and, as their
    product, at most 2^53, the range in which the source's arithmetic on
    them is exact.) *)
Theorem unknown_status_filter_is_empty e s r v :
  method r = GET -> path r = [js "api"; js "contacts"] ->
  More.passes_general second s r -> db_up e = true ->
  (1 <= default 1%N (q_page (query r)))%N ->
  (1 <= default 10%N (q_limit (query r)))%N ->
  More.exact_numbers (default 1%N (q_page (query r)))
    (default 10%N (q_limit (query r))) 0 ->
  More.valid_collection s ->
  q_status (query r) = Some v -> v <> js "all" ->
  ~ In v Persisting.statuses ->
  snd (server second e s r) =
    res_json 200
      (JObj [(js "success", JBool true);
             (js "data", JArr []);
             (js "pagination",
              JObj [(js "page", JNum (Z.of_N (default 1%N (q_page (query r)))));
                    (js "limit",
                     JNum (Z.of_N (default 10%N (q_limit (query r)))));
                    (js "total", JNum 0);
                    (js "pages", JNum 0)])]).
Proof.
  intros Hm Hp Hg Hdb Hpage Hsize _ Hvalid Hst Hall Hunknown. simpl server.
  rewrite AdminFacts.list_route by assumption.
  rewrite AdminFacts.listContacts_answer by assumption.
  cbn [snd counted_api contacts set_limiter_store].
  assert (Hnone : selected (q_status (query r)) (contacts s) = []).
  { rewrite Hst. unfold selected, JS.eqb.
    rewrite bool_decide_eq_false_2 by exact Hall.
    apply ListMore.filter_none. intros c Hc.
    apply bool_decide_eq_false. intros E.
    unfold More.valid_collection in Hvalid.
    rewrite List.Forall_forall in Hvalid.
    destruct (EffectFacts.schema_well_formed c (Hvalid c Hc))
      as (_ & _ & _ & _ & _ & _ & _ & Hin).
    rewrite E in Hin. exact (Hunknown Hin). }
  rewrite Hnone. cbn [Persisting.sort_desc foldr List.length].
  unfold page_slice. rewrite skipn_nil, firstn_nil. cbn [map].
  unfold Persisting.pages_of.
  destruct (N.eqb_spec (default 10%N (q_limit (query r))) 0); [lia|].
  reflexivity.
Qed.

Lemma unknown_status_filter_is_empty_witness :
  let r := Sample.list_request 0
             {| q_page := None; q_limit := None;
                q_status := Some (js "archived") |} in
  snd (server second Sample.world Sample.archive r) =
    res_json 200
      (JObj [(js "success", JBool true);
             (js "data", JArr []);
             (js "pagination",
              JObj [(js "page", JNum (Z.of_N (default 1%N (q_page (query r)))));
                    (js "limit",
                     JNum (Z.of_N (default 10%N (q_limit (query r)))));
                    (js "total", JNum 0);
                    (js "pages", JNum 0)])]).
Proof.
  intros r.
  apply (unknown_status_filter_is_empty Sample.world Sample.archive r
           (js "archived")); try reflexivity; try (vm_compute; discriminate).
  - vm_compute. repeat split; discriminate.
  - unfold More.valid_collection. apply List.Forall_forall. intros c Hc.
    vm_compute in Hc.
    repeat (destruct Hc as [<-|Hc]; [vm_compute; reflexivity|]).
    destruct Hc.
  - vm_compute. intuition discriminate.
Defined.

(** X22.  The list without a limit.  With [limit=0] the database applies
    no limit: on any page from 1 on every matching record is returned,
    most recent first (which of two records with the same [createdAt]
    comes first is left to the database), and [pages], the quotient by
    zero, is [null] in the JSON answer.  (The page number and the number
    of matching records are at most 2^53.) *)
Theorem limit_zero_lists_everything e s r :
  method r = GET -> path r = [js "api"; js "contacts"] ->
  More.passes_general second s r -> db_up e = true ->
  let page := default 1%N (q_page (query r)) in
  let matching := selected (q_status (query r)) (contacts s) in
  let total := Z.of_nat (List.length matching) in
  (1 <= page)%N -> q_limit (query r) = Some 0%N ->
  More.exact_numbers page 0 total ->
  exists ordered,
    Permutation ordered matching /\ descending ordered /\
    snd (server second e s r) =
      res_json 200
        (JObj [(js "success", JBool true);
               (js "data", JArr (map public_view ordered));
               (js "pagination",
                JObj [(js "page", JNum (Z.of_N page));
                      (js "limit", JNum 0);
                      (js "total", JNum total);
                      (js "pages", JNull)])]).
Proof.
  intros Hm Hp Hg Hdb page matching total Hpage Hlimit _.
  exists (Persisting.sort_desc matching).
  split; [apply AdminFacts.sort_desc_perm|].
  split; [apply AdminFacts.sort_desc_sorted|].
  simpl server.
  rewrite AdminFacts.list_route by assumption.
  unfold Persisting.listContacts, try_catch, bind, Persisting.find,
    Persisting.countDocuments, ret. cbv zeta. rewrite Hdb. cbn [negb orb].
  rewrite Hlimit. cbn [default].
  rewrite Z.mul_0_r. change (0 <? 0) with false. cbv iota.
  rewrite AdminFacts.list_query_selects.
  cbn [counted_api contacts set_limiter_store snd].
  fold matching. unfold Persisting.limit_docs, Persisting.pages_of.
  change (0 =? 0)%N with true. cbv iota. cbn [Z.to_nat skipn].
  rewrite (map_ext _ public_view) by (intros c; apply AdminFacts.select_public).
  reflexivity.
Qed.

Lemma limit_zero_lists_everything_witness :
  let r := Sample.list_request 0
             {| q_page := Some 3%N; q_limit := Some 0%N; q_status := None |} in
  exists ordered,
    Permutation ordered (contacts Sample.archive) /\ descending ordered /\
    snd (server second Sample.world Sample.archive r) =
      res_json 200
        (JObj [(js "success", JBool true);
               (js "data", JArr (map public_view ordered));
               (js "pagination",
                JObj [(js "page", JNum 3);
                      (js "limit", JNum 0);
                      (js "total", JNum 25);
                      (js "pages", JNull)])]).
Proof.
  intros r.
  apply (limit_zero_lists_everything Sample.world Sample.archive r
           eq_refl eq_refl eq_refl eq_refl).
  - vm_compute. discriminate.
  - reflexivity.
  - vm_compute. repeat split; discriminate.
Defined.



(* ===================================================================== *)
(** * The end of a limiter's window *)
(* ===================================================================== *)

Module ResetFacts.
Import Http Express RateLimit World Common Spec More StackFacts LimiterFacts.

(** The stages of the submission endpoint behind the two limiters. *)
Lemma submission_stages v e s r :
  is_submission r ->
  server v e s r =
    match rateLimit (general_options v) limiter_timing limiter_store
            set_limiter_store e s r with
    | Respond s1 resp => (s1, resp)
    | Next s1 =>
        match rateLimit (contact_options v) limiter_timing
                contactLimiter_store set_contactLimiter_store e s1 r with
        | Respond s2 resp => (s2, resp)
        | Next s2 =>
            match validator v e s2 r with
            | Respond s3 resp => (s3, resp)
            | Next s3 =>
                match v with
                | first => EmailOnly.submit e r s3
                | second => Persisting.submit e r s3
                end
            end
        end
    end.
Proof.
  intros Hr. destruct v; simpl server.
  - apply emailonly_submission. exact Hr.
  - apply persisting_submission. exact Hr.
Qed.

(** After the submission that opens it and any requests inside it, the
    window of the submission limiter still ends where it did. *)
Lemma contact_window_after v s e1 r1 rest :
  is_submission r1 -> no_open_window s (ip r1) (now r1) ->
  statusCode (snd (server v e1 s r1)) <> 429 ->
  Forall (fun q : Env * Request =>
            now (snd q) <
            window_end (limiter_timing e1) (60 * 60 * 1000) (now r1)) rest ->
  exists k,
    counted_in_window (ip r1)
      (window_end (limiter_timing e1) (60 * 60 * 1000) (now r1)) k
      (fst (serve (server v) s ((e1, r1) :: rest))).
Proof.
  intros Hr1 Hclosed Hfirst Hrest.
  pose (behind := fun e r s =>
          match validator v e s r with
          | Respond s3 resp => (s3, resp)
          | Next s3 =>
              match v with
              | first => EmailOnly.submit e r s3
              | second => Persisting.submit e r s3
              end
          end).
  assert (Hmax : RateLimit.max (contact_options v) = 5)
    by (destruct v; reflexivity).
  assert (Hwin : windowMs (contact_options v) = 60 * 60 * 1000)
    by (destruct v; reflexivity).
  pose proof (first_submission_opens_window (server v) (general_options v)
                (contact_options v) behind Hmax Hwin
                (submission_stages v)
                (fun e r s => stages_behind_same_store v e r s)
                e1 s r1 Hr1 Hclosed Hfirst) as H1.
  cbn [serve]. destruct (server v e1 s r1) as [s1 a1].
  pose proof (trace_is_counted (server v) (general_options v)
                (contact_options v) behind (submission_stages v)
                (fun e r s => stages_behind_same_store v e r s)
                (fun addr e s r => other_request_same_window v addr e s r)
                (ip r1) _ rest 1 s1 Hrest H1) as H.
  destruct (serve (server v) s1 rest) as [s2 answers].
  eexists. exact H.
Qed.

End ResetFacts.

(** X24.  A block ends with the window.  Let a request open a window of
    a limiter for its address, and let any requests follow inside the
    window, so that the address may have used up its allowance.  A
    request from the address at or after the end of the window (at most
    15 minutes after the opening request for the general limiter, at
    most 60 minutes after the opening submission for the submission
    limiter) is let through by that limiter again. *)
Theorem blocks_end_with_the_window (v : Variant) s e1 r1 rest r :
  let addr := ip r1 in
  let served := fst (serve (server v) s ((e1, r1) :: rest)) in
  let general_end :=
    window_end (limiter_timing e1) (15 * 60 * 1000) (now r1) in
  let contact_end :=
    window_end (limiter_timing e1) (60 * 60 * 1000) (now r1) in
  ip r = addr ->
  (More.under_api r1 = true ->
   More.no_open_general_window s addr (now r1) ->
   Forall (fun q : Env * Request => now (snd q) < general_end) rest ->
   general_end <= now r ->
   More.passes_general v served r) /\
  (is_submission r1 -> no_open_window s addr (now r1) ->
   statusCode (snd (server v e1 s r1)) <> 429 ->
   Forall (fun q : Env * Request => now (snd q) < contact_end) rest ->
   contact_end <= now r ->
   admits (contact_options v) (contactLimiter_store served) (ip r) (now r)
     = true) /\
  general_end <= now r1 + 15 * 60 * 1000 /\
  contact_end <= now r1 + 60 * 60 * 1000.
Proof.
  intros addr served general_end contact_end Hip.
  split; [|split; [|split]].
  - intros Hu1 Hclosed Hrest Hlate.
    assert (Hw : exists k, More.general_window addr general_end k served).
    { pose proof (GeneralFacts.general_opens v e1 s r1 Hu1 Hclosed) as H1.
      subst served. cbn [serve]. destruct (server v e1 s r1) as [s1 a1].
      pose proof (GeneralFacts.general_trace v addr general_end rest 1 s1
                    Hrest H1) as H.
      destruct (serve (server v) s1 rest) as [s2 answers].
      eexists. exact H. }
    destruct Hw as (k & w & Hw & _ & Hreset).
    unfold More.passes_general, admits, hits_after. rewrite Hip, Hw.
    assert ((now r <? resetTime w) = false) as -> by (apply Z.ltb_ge; lia).
    rewrite GeneralFacts.general_max. reflexivity.
  - intros Hr1 Hclosed Hfirst Hrest Hlate.
    destruct (ResetFacts.contact_window_after v s e1 r1 rest
                Hr1 Hclosed Hfirst Hrest) as (k & w & Hw & _ & Hreset).
    unfold admits, hits_after. fold served in Hw. rewrite Hip.
    fold addr in Hw. rewrite Hw.
    assert ((now r <? resetTime w) = false) as ->
      by (apply Z.ltb_ge; subst contact_end; lia).
    destruct v; reflexivity.
  - apply (LimiterFacts.window_end_bounds (limiter_timing e1)
             (15 * 60 * 1000) (now r1) eq_refl).
  - apply (LimiterFacts.window_end_bounds (limiter_timing e1)
             (60 * 60 * 1000) (now r1) eq_refl).
Qed.

Lemma blocks_end_with_the_window_witness :
  let w := Sample.world in
  let sub t := (w, Sample.submission t Sample.ann) in
  let served :=
    fst (serve (server second) Sample.fresh
           (sub 0 :: [sub 1; sub 2; sub 3; sub 4; sub 5])) in
  statusCode (snd (server second w served (Sample.submission 6 Sample.ann)))
    = 429 /\
  admits (contact_options second) (contactLimiter_store served)
    (ip (Sample.submission 3600000 Sample.ann))
    (now (Sample.submission 3600000 Sample.ann)) = true.
Proof.
  split; [vm_compute; reflexivity|].
  assert (Hrest :
    Forall (fun q : Env * Request =>
              now (snd q) <
              window_end (limiter_timing Sample.world) (60 * 60 * 1000)
                (now (Sample.submission 0 Sample.ann)))
      [(Sample.world, Sample.submission 1 Sample.ann);
       (Sample.world, Sample.submission 2 Sample.ann);
       (Sample.world, Sample.submission 3 Sample.ann);
       (Sample.world, Sample.submission 4 Sample.ann);
       (Sample.world, Sample.submission 5 Sample.ann)])
    by (repeat constructor).
  refine (proj1 (proj2 (blocks_end_with_the_window second Sample.fresh
                          Sample.world (Sample.submission 0 Sample.ann) _
                          (Sample.submission 3600000 Sample.ann) eq_refl))
            _ I _ Hrest _).
  - split; reflexivity.
  - vm_compute. congruence.
  - vm_compute. congruence.
Defined.

(* ===================================================================== *)
(** * Start and shutdown *)
(* ===================================================================== *)

(** X25.  The persisting server listens only with a database.  Its
    start-up first connects to [MONGODB_URI], or to
    "mongodb://localhost:27017/portfolio" when the variable is unset or
    empty.  Only when the connection is established does it listen, on
    [PORT], or on 5000 when that variable is unset or empty.  When the
    connection fails, the process exits with code 1 and never listens.
    This holds from any earlier trace of effects.  The e-mail only
    server listens at once. *)
Theorem listens_only_with_database env out t :
  let run := Lifecycle.start env out t in
  let uri := Lifecycle.mongo_uri env in
  (Lifecycle.connects out uri = true ->
   run = (t ++ [Lifecycle.Connected uri true;
                Lifecycle.Listening (Lifecycle.PORT env)],
          Lifecycle.Returns tt)) /\
  (Lifecycle.connects out uri = false ->
   run = (t ++ [Lifecycle.Connected uri false; Lifecycle.Exited 1],
          Lifecycle.Exits)) /\
  (forall p, In (Lifecycle.Listening p) (fst run) ->
     ~ In (Lifecycle.Listening p) t ->
     Lifecycle.connects out uri = true /\ p = Lifecycle.PORT env) /\
  (Lifecycle.MONGODB_URI env = None \/ Lifecycle.MONGODB_URI env = Some [] ->
   uri = js "mongodb://localhost:27017/portfolio") /\
  (Lifecycle.env_PORT env = None \/ Lifecycle.env_PORT env = Some [] ->
   Lifecycle.PORT env = JNum 5000) /\
  Lifecycle.start_emailonly env t =
    (t ++ [Lifecycle.Listening (Lifecycle.PORT env)], Lifecycle.Returns tt).
Proof.
  intros run uri.
  assert (Hrun : run =
            if Lifecycle.connects out uri
            then (t ++ [Lifecycle.Connected uri true;
                        Lifecycle.Listening (Lifecycle.PORT env)],
                  Lifecycle.Returns tt)
            else (t ++ [Lifecycle.Connected uri false; Lifecycle.Exited 1],
                  Lifecycle.Exits)).
  { subst run. unfold Lifecycle.start, Lifecycle.startServer,
      Lifecycle.connectDB, Lifecycle.try_catch, Lifecycle.bind,
      Lifecycle.connect, Lifecycle.listen, Lifecycle.exit.
    fold uri. destruct (Lifecycle.connects out uri);
      rewrite <- app_assoc; reflexivity. }
  split; [intros H; rewrite Hrun, H; reflexivity|].
  split; [intros H; rewrite Hrun, H; reflexivity|].
  split.
  - intros p Hin Hnew. rewrite Hrun in Hin.
    destruct (Lifecycle.connects out uri); cbn [fst] in Hin;
      apply in_app_or in Hin as [Hin|Hin]; try contradiction;
      simpl in Hin; destruct Hin as [Hin|[Hin|[]]]; try discriminate Hin.
    injection Hin as <-. split; reflexivity.
  - split; [|split].
    + subst uri. unfold Lifecycle.mongo_uri, Lifecycle.or_else.
      intros [-> | ->]; reflexivity.
    + unfold Lifecycle.PORT. intros [-> | ->]; reflexivity.
    + reflexivity.
Qed.

Lemma listens_only_with_database_witness :
  fst (Lifecycle.start
         {| Lifecycle.MONGODB_URI := None;
            Lifecycle.env_PORT := Some (js "8080") |}
         {| Lifecycle.connects := fun _ => false; Lifecycle.closes := true |}
         []) =
  [Lifecycle.Connected (js "mongodb://localhost:27017/portfolio") false;
   Lifecycle.Exited 1].
Proof.
  pose proof (proj1 (proj2 (listens_only_with_database
                {| Lifecycle.MONGODB_URI := None;
                   Lifecycle.env_PORT := Some (js "8080") |}
                {| Lifecycle.connects := fun _ => false;
                   Lifecycle.closes := true |} [])) eq_refl) as H.
  rewrite H. reflexivity.
Defined.

(** X26.  The shutdown exits with code 0 only after the connection is
    closed.  On [SIGTERM] or [SIGINT] the persisting server first closes
    the database connection and exits with code 0 once that has
    succeeded; when closing fails, the handler's promise rejects and it
    never calls [process.exit] itself.  The handler never listens or
    connects. *)
Theorem shutdown_closes_before_exit out t :
  let run := Lifecycle.shutdown out t in
  (Lifecycle.closes out = true ->
   run = (t ++ [Lifecycle.Closed true; Lifecycle.Exited 0],
          Lifecycle.Exits)) /\
  (Lifecycle.closes out = false ->
   run = (t ++ [Lifecycle.Closed false], Lifecycle.Rejects)) /\
  (forall code, In (Lifecycle.Exited code) (fst run) ->
     ~ In (Lifecycle.Exited code) t ->
     code = 0 /\ In (Lifecycle.Closed true) (fst run)).
Proof.
  intros run. subst run.
  unfold Lifecycle.shutdown, Lifecycle.bind, Lifecycle.close, Lifecycle.exit.
  destruct (Lifecycle.closes out); repeat split; try discriminate;
    try (rewrite <- app_assoc; reflexivity);
    cbn [fst] in *; rewrite <- ?app_assoc in *;
    match goal with
    | H : In _ (_ ++ _) |- _ =>
        apply in_app_or in H as [H|H]; [contradiction|]; simpl in H
    end.
  - destruct H as [H|[H|[]]]; [discriminate H|]. congruence.
  - apply in_or_app. right. left. reflexivity.
  - destruct H as [H|[]]. discriminate H.
  - destruct H as [H|[]]. discriminate H.
Qed.

(* ===================================================================== *)
(** * The routing table *)
(* ===================================================================== *)

Module RouteFacts.
Import Http Express RateLimit World Common Spec More StackFacts.

Lemma path_matches_lower pat :
  lower_literals pat ->
  forall p, path_matches pat p = true ->
            path_matches pat (map JS.toLowerCase p) = true.
Proof.
  induction 1 as [|seg pat Hseg _ IH]; intros p.
  - destruct p; simpl; [reflexivity | discriminate].
  - destruct p as [|b p]; simpl.
    + destruct seg; discriminate.
    + destruct seg as [a|]; [|apply IH].
      intros H. apply andb_true_iff in H as [Hab Hp].
      unfold JS.eqb in *. apply bool_decide_eq_true in Hab. subst b.
      rewrite Hseg, bool_decide_eq_true_2 by reflexivity.
      apply IH. exact Hp.
Qed.

(** A route that does not apply to the request with its path in lower
    case does not apply to the request. *)
Lemma route_unrouted m pat hs (r : Request) :
  lower_literals pat ->
  Method_eqb (method r) m && path_matches pat (map JS.toLowerCase (path r))
    = false ->
  applies (@route Env State m pat hs) r = false.
Proof.
  intros Hlow H. cbn [applies route].
  destruct (Method_eqb (method r) m); [|reflexivity]. cbn [andb] in *.
  destruct (path_matches pat (path r)) eqn:E; [|reflexivity].
  rewrite (path_matches_lower pat Hlow _ E) in H. discriminate H.
Qed.

End RouteFacts.

(** X27.  The routing table.  The first server has two routes,
    [POST /api/contact] and [GET /api/health]; the persisting server has
    five: [GET /api/health], [POST /api/contact], [GET /api/contacts],
    [PATCH /api/contacts/:id] and [DELETE /api/contacts/:id].  A request
    under [/api/] that the general limiter lets through, whose path has
    no empty segment (no doubled or trailing slash) and no percent sign,
    and that is for none of these routes, the path compared without
    regard to letter case (a wrong method on a known path, or an unknown
    path, [GET /api/test-email] on the first server included), is
    answered 404 "Route not found"; it is counted by the general limiter
    and changes nothing else. *)
Theorem unrouted_requests_are_404 v e s r :
  More.under_api r = true -> More.passes_general v s r ->
  More.plain_path r -> More.routed v r = false ->
  server v e s r =
    (counted_api (general_options v) e s r,
     res_json 404 (envelope false "Route not found")).
Proof.
  unfold More.under_api, More.passes_general, More.routed.
  intros Hu Hg _ Hno.
  destruct v; cbn [More.routes existsb fst snd] in Hno;
    repeat (apply orb_false_iff in Hno as [? Hno]); simpl server;
    [unfold EmailOnly.handle, EmailOnly.app, EmailOnly.limiter
    |unfold Persisting.handle, Persisting.app, Persisting.limiter];
    cbn [dispatch applies handlers use use_at run_handlers helmet morgan cors
         express_json express_urlencoded passthrough];
    rewrite Hu;
    rewrite StackFacts.rateLimit_admits by exact Hg;
    repeat match goal with
           | |- context [applies (route ?m ?pat ?hs) r] =>
               rewrite (RouteFacts.route_unrouted m pat hs r)
                 by first [assumption | repeat constructor]
           end;
    reflexivity.
Qed.

Lemma unrouted_requests_are_404_witness :
  let r := {| method := GET; path := [js "api"; js "contact"];
              ip := Sample.client; now := 0; user_agent := None;
              body := Sample.form None None None;
              query := Sample.no_query |} in
  server second Sample.world Sample.archive r =
    (counted_api (general_options second) Sample.world Sample.archive r,
     res_json 404 (envelope false "Route not found")).
Proof.
  intros r.
  apply (unrouted_requests_are_404 second Sample.world Sample.archive r);
    try reflexivity.
  apply List.Forall_forall. intros seg Hseg. vm_compute in Hseg.
  repeat (destruct Hseg as [<-|Hseg];
          [split; [discriminate | vm_compute; intuition discriminate]|]).
  destruct Hseg.
Defined.

(* ===================================================================== *)
(** * The scenario of the specification, run on the model *)
(* ===================================================================== *)

Module Scenario.
Import Http Express RateLimit World Common Spec.

(** Addresses the pattern takes and refuses. *)
Example pattern_samples :
  map (RegExp.test emailRegex)
      [js "ann@example.com"; js "a.b-c@d-e.f.co.uk"; js "a@b.12";
       js "a@b.info"; js "a..b@d.co"; js "a@b.c"; js "ann@example";
       js " ann@example.com"] =
  [true; true; true; false; false; false; false; false].
Proof. vm_compute. reflexivity. Qed.

(** Submitting Ann's form to the persisting server is answered 201 with
    a generated id and the time of creation; a later list holds the
    record with status "unread" and shows neither [ipAddress] nor
    [userAgent]. *)
Example submit_then_list :
  let '(s1, a1) :=
    server second Sample.world Sample.fresh (Sample.submission 1000 Sample.ann) in
  let '(s2, a2) :=
    server second Sample.world s1 (Sample.list_request 2000 Sample.no_query) in
  a1 = res_json 201
         (created_body
            {| _id := 0; name := js "Ann"; email := js "ann@example.com";
               message := js "Hi"; ipAddress := Sample.client;
               userAgent := js "curl/8.5.0"; createdAt := 1000;
               status := js "unread" |}) /\
  a2 = res_json 200
         (JObj [(js "success", JBool true);
                (js "data",
                 JArr [JObj [(js "_id", JId 0);
                             (js "name", JStr (js "Ann"));
                             (js "email", JStr (js "ann@example.com"));
                             (js "message", JStr (js "Hi"));
                             (js "createdAt", JDate 1000);
                             (js "status", JStr (js "unread"));
                             (js "__v", JNum 0)]]);
                (js "pagination",
                 JObj [(js "page", JNum 1); (js "limit", JNum 10);
                       (js "total", JNum 1); (js "pages", JNum 1)])]).
Proof. vm_compute. split; reflexivity. Qed.

(** The e-mail only server answers the same form with 200 and sends the
    two mails. *)
Example submit_email_only :
  let '(s1, a1) :=
    server first Sample.world Sample.fresh (Sample.submission 1000 Sample.ann) in
  statusCode a1 = 200 /\ List.length (events s1) = 2%nat /\ contacts s1 = [].
Proof. vm_compute. repeat split; reflexivity. Qed.

(** Six submissions within two minutes.  With windows per client the
    sixth is turned away.  With a store that resets on the hour the sixth
    starts a new window when the hour strikes in between: what is limited
    is the number of submissions within one window of the limiter. *)
Example six_in_two_minutes :
  let minute := 60 * 1000 in
  let trace w :=
    [(w, Sample.submission (59 * minute) Sample.ann);
     (w, Sample.submission (59 * minute + 1) Sample.ann);
     (w, Sample.submission (59 * minute + 2) Sample.ann);
     (w, Sample.submission (59 * minute + 3) Sample.ann);
     (w, Sample.submission (59 * minute + 4) Sample.ann);
     (w, Sample.submission (61 * minute) Sample.ann)] in
  map statusCode (snd (serve (server second) Sample.fresh (trace Sample.world)))
    = [201; 201; 201; 201; 201; 429] /\
  map statusCode
      (snd (serve (server second) Sample.fresh (trace Sample.world_with_timer)))
    = [201; 201; 201; 201; 201; 201].
Proof. vm_compute. split; reflexivity. Qed.

End Scenario.
